(** * h2p: duration-budgeted timeline compositor and subtitle timing

    A shallow embedding of two pieces of the h2p service:

    - [splitTextByPunctuation] and [calculateSubtitleTimings] of
      [routes/audio.js], which cut the text of a narration block into
      fragments and spread the block's duration over them;
    - the handler of [POST /generate/video-9-16], which fills a target
      duration from three ordered pools (videos, images, append videos).

    Around them, of the same files and of the utilities they call:
    [formatSrtTime], [generateSrtContent] and the loop of [POST /audio] that
    builds the subtitle track; [normalizeUrl]; [parseColorForFFmpeg].

    JavaScript numbers are modelled as rationals ([Q]): every operation the
    functions perform (+, -, *, /, comparison, [Math.max], [Math.min],
    [Math.round], [toFixed]) is exact on [Q], so the theorems speak about the
    arithmetic the code writes down and not about binary floating-point
    rounding.  Equality of times is [Qeq] ([==]), except where two times are
    the same number by construction and [=] is stated.  Three places where
    the rounding of a double operation shows in a result (the end of the
    all-punctuation branch, the milliseconds of a timestamp, the scaled
    height of an image at a tie) are evaluated on binary64 in [Binary64]. *)

From Stdlib Require Import QArith Qminmax Qround Lqa.
From Stdlib Require Import List ZArith Lia Bool Arith Ascii String.
From Stdlib Require Import NArith.
From Stdlib Require DecimalString HexadecimalString.
From Stdlib Require PrimFloat Uint63 FloatOps SpecFloat.
Import ListNotations.

Open Scope Q_scope.

(** ** Numbers *)

(** A JavaScript array index or [length] used in arithmetic. *)
Definition Qnat (n : nat) : Q := inject_Z (Z.of_nat n).

(** [a < b] as a test. *)
Definition Qlt_bool (a b : Q) : bool := negb (Qle_bool b a).

(** [reduce((sum, x) => sum + x, 0)] over numbers. *)
Definition Qsum (l : list Q) : Q := fold_left Qplus l 0.

(** ** Subtitle timing ([routes/audio.js]) *)

Module Subtitle.

(** A JavaScript string, as its sequence of UTF-16 code units. *)
Definition jsstring := list N.

(** The class [[。！？；：，、\n]] that ends a text fragment. *)
Definition isPunctuation (c : N) : bool :=
  existsb (N.eqb c)
    [0x3002; 0xFF01; 0xFF1F; 0xFF1B; 0xFF1A; 0xFF0C; 0x3001; 10]%N.

(** The regular-expression class [\s]. *)
Definition isWhiteSpace (c : N) : bool :=
  existsb (N.eqb c)
    [9; 10; 11; 12; 13; 32; 0xA0; 0x1680; 0x2028; 0x2029; 0x202F; 0x205F;
     0x3000; 0xFEFF]%N
  || ((0x2000 <=? c) && (c <=? 0x200A))%N.

(** [punctuationRegex] of [calculateSubtitleTimings]:
    [/[。！？；：，、\n\s]/g]. *)
Definition punctuationRegex (c : N) : bool :=
  isPunctuation c || isWhiteSpace c.

(** [seg.replace(punctuationRegex, '').length] *)
Definition charCount (seg : jsstring) : nat :=
  List.length (filter (fun c => negb (punctuationRegex c)) seg).

(** [segments.reduce((sum, seg) => sum + charCount(seg), 0)] *)
Definition totalChars (segments : list jsstring) : nat :=
  fold_left (fun sum seg => (sum + charCount seg)%nat) segments 0%nat.

(** [String.prototype.trim]: white space is dropped at both ends. *)
Fixpoint trimStart (s : jsstring) : jsstring :=
  match s with
  | [] => []
  | c :: rest => if isWhiteSpace c then trimStart rest else s
  end.

Definition trim (s : jsstring) : jsstring :=
  rev (trimStart (rev (trimStart s))).

Definition isEmptyString (s : jsstring) : bool :=
  match s with [] => true | _ :: _ => false end.

(** [text.split(/([。！？；：，、\n])/)]: the runs between punctuation marks
    (empty ones included) alternate with the marks themselves. *)
Fixpoint split (text run : jsstring) : list jsstring :=
  match text with
  | [] => [run]
  | c :: rest =>
      if isPunctuation c then run :: [c] :: split rest []
      else split rest (run ++ [c])
  end.

(** The inner loop that cuts an over-long run into pieces of 50 code units. *)
Fixpoint forceSplit (words tempSegment : jsstring)
    (segments : list jsstring) : list jsstring * jsstring :=
  match words with
  | [] => (segments, tempSegment)
  | word :: rest =>
      let tempSegment := tempSegment ++ [word] in
      if (50 <=? List.length tempSegment)%nat
      then forceSplit rest [] (segments ++ [trim tempSegment])
      else forceSplit rest tempSegment segments
  end.

(** One turn of the loop over [parts], on [(segments, currentSegment)]. *)
Definition addPart (state : list jsstring * jsstring) (part : jsstring)
    : list jsstring * jsstring :=
  let (segments, currentSegment) := state in
  if isEmptyString part then state
  else if existsb isPunctuation part then
    let currentSegment := currentSegment ++ part in
    if isEmptyString (trim currentSegment) then (segments, currentSegment)
    else (segments ++ [trim currentSegment], [])
  else
    let currentSegment := currentSegment ++ part in
    if (50 <? List.length currentSegment)%nat
    then forceSplit currentSegment [] segments
    else (segments, currentSegment).

Definition splitTextByPunctuation (text : jsstring) : list jsstring :=
  if isEmptyString (trim text) then []
  else
    let (segments, currentSegment) :=
      fold_left addPart (split text []) ([], []) in
    let segments :=
      if isEmptyString (trim currentSegment) then segments
      else segments ++ [trim currentSegment] in
    filter (fun seg => negb (isEmptyString seg)) segments.

(** A string with something other than white space in it. *)
Definition hasInk (s : jsstring) : bool :=
  existsb (fun c => negb (isWhiteSpace c)) s.

(** A loop state with something to show: a non-empty fragment already kept,
    or ink in the fragment being built. *)
Definition inked (state : list jsstring * jsstring) : bool :=
  existsb (fun seg => negb (isEmptyString seg)) (fst state)
  || hasInk (snd state).

Record Subtitle := mkSubtitle {
  text : jsstring;
  startTime : Q;
  endTime : Q
}.

Definition duration (f : Subtitle) : Q := endTime f - startTime f.

(** The all-punctuation branch:
    [segments.map((seg, index) => ({ text: seg,
       startTime: startTime + index * segmentDuration,
       endTime: startTime + (index + 1) * segmentDuration }))].
    The end of the last fragment is left as this product and sum, it is not
    reset to [startTime + totalDuration] as in the main branch: the two are
    the same rational, not always the same double
    ([Binary64.evenSplitEndTime]). *)
Fixpoint evenSplit (segmentDuration start : Q) (index : nat)
    (segments : list jsstring) : list Subtitle :=
  match segments with
  | [] => []
  | seg :: rest =>
      mkSubtitle seg
        (start + Qnat index * segmentDuration)
        (start + (Qnat index + 1) * segmentDuration)
      :: evenSplit segmentDuration start (S index) rest
  end.

(** [idealDurations]: at least 0.5 s, at most a third of the block. *)
Definition idealDuration (totalDuration timePerChar : Q)
    (segment : jsstring) : Q :=
  Qmax (1#2) (Qmin (totalDuration / 3) (Qnat (charCount segment) * timePerChar)).

Definition idealDurations (segments : list jsstring) (totalDuration : Q)
    : list Q :=
  let timePerChar := totalDuration / Qnat (totalChars segments) in
  map (idealDuration totalDuration timePerChar) segments.

(** [idealTotal > totalDuration ? totalDuration / idealTotal : 1] *)
Definition scaleFactor (segments : list jsstring) (totalDuration : Q) : Q :=
  let idealTotal := Qsum (idealDurations segments totalDuration) in
  if Qlt_bool totalDuration idealTotal then totalDuration / idealTotal else 1.

(** The duration the loop body gives to fragment [i] of [n], from its scaled
    ideal duration and the time still unassigned. *)
Definition segmentDuration (n i : nat) (scaled remainingTime : Q) : Q :=
  let d :=
    if (i =? n - 1)%nat then remainingTime
    else Qmin scaled (remainingTime - (1#2) * Qnat (n - i - 1)) in
  if (i <? n - 1)%nat then Qmax (3#10) d else d.

(** The [for] loop, from index [i] on; [items] pairs [segments[i..]] with
    [idealDurations[i..]], and the two clocks are threaded through. *)
Fixpoint assign (n : nat) (scale : Q) (i : nat) (items : list (jsstring * Q))
    (currentTime remainingTime : Q) : list Subtitle :=
  match items with
  | [] => []
  | (segment, ideal) :: rest =>
      let d := segmentDuration n i (ideal * scale) remainingTime in
      mkSubtitle segment currentTime (currentTime + d)
      :: assign n scale (S i) rest (currentTime + d) (remainingTime - d)
  end.

(** [subtitles[subtitles.length - 1].endTime = t] *)
Fixpoint setLastEndTime (subtitles : list Subtitle) (t : Q) : list Subtitle :=
  match subtitles with
  | [] => []
  | [f] => [mkSubtitle (text f) (startTime f) t]
  | f :: rest => f :: setLastEndTime rest t
  end.

Definition calculateSubtitleTimings (segments : list jsstring)
    (totalDuration start : Q) : list Subtitle :=
  match segments with
  | [] => []
  | _ :: _ =>
      if (totalChars segments =? 0)%nat then
        evenSplit (totalDuration / Qnat (List.length segments)) start 0 segments
      else
        let ideals := idealDurations segments totalDuration in
        let scale := scaleFactor segments totalDuration in
        setLastEndTime
          (assign (List.length segments) scale 0 (combine segments ideals)
             start totalDuration)
          (start + totalDuration)
  end.

End Subtitle.

(** ** The 9:16 video generator ([POST /generate/video-9-16]) *)

Module Video.

(** *** Sources and what the outside world answers for them

    A source carries, next to its URL, the answers of the external
    collaborators for it: whether the download resolves, and what the probe of
    the downloaded file resolves to ([None]: the probe rejects).  The media
    processor itself (re-encoding, concatenation, cutting) is taken to
    succeed and to produce files of the nominal duration, with one
    exception: the command that renders a scrolling image is malformed and
    is refused (see [renderImageVideo]). *)

Record VideoSource := mkVideoSource {
  video_url : string;
  video_download : bool;            (* downloadVideo resolves *)
  video_duration : option Q         (* getVideoDuration of the download *)
}.

Record ImageSource := mkImageSource {
  image_url : string;
  image_download : bool;            (* downloadImage resolves *)
  image_dimensions : option (Z * Z) (* getImageDimensions: (width, height) *)
}.

Record Request := mkRequest {
  targetDuration : Q;
  imageUrls : list ImageSource;
  videoUrls : list VideoSource;
  appendVideoUrls : list VideoSource
}.

(** *** URL handling ([utils/urlUtils.js]) *)

Definition truthy (s : string) : bool :=
  match s with EmptyString => false | String _ _ => true end.

(** [s.replace(/\/$/, '')] *)
Fixpoint stripTrailingSlash (s : string) : string :=
  match s with
  | EmptyString => EmptyString
  | String c EmptyString => if Ascii.eqb c "/"%char then EmptyString else s
  | String c rest => String c (stripTrailingSlash rest)
  end.

Definition normalizeUrl (baseUrl url : string) : string :=
  if negb (truthy url) then url
  else if String.prefix "http" url then url
  else if truthy baseUrl then
    let cleanBaseUrl := stripTrailingSlash baseUrl in
    let cleanUrl :=
      if String.prefix "/" url then url else String.append "/" url in
    String.append cleanBaseUrl cleanUrl
  else url.

(** [urls.map(url => normalizeUrl(url)).filter(url => url)] *)
Definition normalizeVideos (baseUrl : string) (urls : list VideoSource)
    : list VideoSource :=
  filter (fun v => truthy (video_url v))
    (map (fun v => mkVideoSource (normalizeUrl baseUrl (video_url v))
                     (video_download v) (video_duration v)) urls).

Definition normalizeImages (baseUrl : string) (urls : list ImageSource)
    : list ImageSource :=
  filter (fun v => truthy (image_url v))
    (map (fun v => mkImageSource (normalizeUrl baseUrl (image_url v))
                     (image_download v) (image_dimensions v)) urls).

(** *** Awaited calls that may reject

    An [await] outside a [try] either gives a value or throws to the
    handler's outer [catch], which answers [generation_failed]. *)

Inductive Outcome (A : Type) : Type :=
| Resolved (a : A)
| Rejected.
Arguments Resolved {A} a.
Arguments Rejected {A}.

Definition bind {A B : Type} (c : Outcome A) (k : A -> Outcome B)
    : Outcome B :=
  match c with
  | Resolved a => k a
  | Rejected => Rejected
  end.

Notation "x <- c ;; k" := (bind c (fun x => k))
  (at level 61, c at next level, right associativity).

(** *** Segments *)

Inductive SegmentKind :=
| clip_segment
| static_image_segment
| scrolling_image_segment.

Inductive SourceRef :=
| FromVideos (sources : list VideoSource)  (* the concatenated [videoUrls] *)
| FromImage (source : ImageSource)
| FromAppend (source : VideoSource).

(** One entry of [processedVideoFiles]: a rendered file, with the duration
    [getVideoDuration] reports for it. *)
Record Segment := mkSegment {
  seg_kind : SegmentKind;
  seg_source : SourceRef;
  seg_duration : Q
}.

Definition durations (files : list Segment) : list Q := map seg_duration files.

(** The media processor, by what a probe of its output reports: a
    concatenation lasts the sum of its parts, [setDuration(t)] of a longer
    input lasts [t], and re-encoding to 9:16 keeps the duration. *)
Definition concatDuration (parts : list Q) : Q := Qsum parts.

Definition VIDEO_WIDTH : Z := 1080.
Definition VIDEO_HEIGHT : Z := 1920.

(** *** Step 1: the videos *)

Record ProcessedVideo := mkProcessedVideo {
  pv_source : VideoSource;
  pv_duration : Q
}.

(** The download loop of step 1: every download is awaited, none is caught. *)
Fixpoint downloadVideos (urls : list VideoSource)
    : Outcome (list VideoSource) :=
  match urls with
  | [] => Resolved []
  | v :: rest =>
      if video_download v then
        files <- downloadVideos rest ;; Resolved (v :: files)
      else Rejected
  end.

(** The processing loop shared by step 1 and step 3: probe, re-encode, add
    up, and [break] once the running total has reached [budget]. *)
Fixpoint processVideos (budget : Q) (files : list VideoSource)
    (processedVideos : list ProcessedVideo) (total : Q)
    : Outcome (list ProcessedVideo * Q) :=
  match files with
  | [] => Resolved (processedVideos, total)
  | v :: rest =>
      match video_duration v with
      | None => Rejected
      | Some d =>
          let processedVideos := processedVideos ++ [mkProcessedVideo v d] in
          let total := total + d in
          if Qle_bool budget total then Resolved (processedVideos, total)
          else processVideos budget rest processedVideos total
      end
  end.

Definition videoStage (target : Q) (videoUrls : list VideoSource)
    : Outcome (list Segment) :=
  match videoUrls with
  | [] => Resolved []
  | _ :: _ =>
      downloadedVideoFiles <- downloadVideos videoUrls ;;
      r <- processVideos target downloadedVideoFiles [] 0 ;;
      let processedVideos := fst r in
      match processedVideos with
      | [] => Resolved []
      | _ :: _ =>
          let concatenatedDuration :=
            concatDuration (map pv_duration processedVideos) in
          let source := FromVideos (map pv_source processedVideos) in
          if Qlt_bool target concatenatedDuration then
            Resolved [mkSegment clip_segment source target]
          else
            Resolved [mkSegment clip_segment source concatenatedDuration]
      end
  end.

(** *** Step 2: the images *)

Record ValidImage := mkValidImage {
  vi_source : ImageSource;
  vi_width : Z;
  vi_height : Z
}.

(** Download loop with its [try]/[catch]: a failed download is logged and
    left out. *)
Definition downloadImages (urls : list ImageSource) : list ImageSource :=
  filter image_download urls.

(** The size filter with its [try]/[catch]: a rejected probe is logged and
    left out, and so is an image narrower or lower than 500 px. *)
Fixpoint filterImages (downloaded : list ImageSource) : list ValidImage :=
  match downloaded with
  | [] => []
  | img :: rest =>
      match image_dimensions img with
      | Some (w, h) =>
          if ((500 <=? w) && (500 <=? h))%Z then
            mkValidImage img w h :: filterImages rest
          else filterImages rest
      | None => filterImages rest
      end
  end.

(** [Math.round]: the nearest integer, halves upwards. *)
Definition mathRound (x : Q) : Z := Qfloor (x + (1#2)).

(** [Math.round(image.height * (VIDEO_WIDTH / image.width))], on the exact
    quotient and product.  When the exact value is a half (a tie,
    [2160 * height = 3841 * width] at the frame height) it is rounded up
    here, while the code rounds a double product that may lie just below the
    half ([Binary64.scaledProduct]). *)
Definition scaledHeight (width height : Z) : Z :=
  mathRound (inject_Z height * (inject_Z VIDEO_WIDTH / inject_Z width)).

(** Kind and duration of the video an image gives before the budget is
    looked at: a scroll at 100 px/s lasting at least 3 s when the scaled image
    is higher than the frame, a 5 s still otherwise. *)
Definition imageCandidate (width height : Z) : SegmentKind * Q :=
  let scaled := scaledHeight width height in
  if (VIDEO_HEIGHT <? scaled)%Z then
    let scrollDistance := (scaled - VIDEO_HEIGHT)%Z in
    (scrolling_image_segment, Qmax 3 (inject_Z scrollDistance / 100))
  else (static_image_segment, 5).

(** [if (accumulatedDuration + d > remainingDuration)
       d = Math.max(1, remainingDuration - accumulatedDuration)] *)
Definition fitImageDuration (accumulatedDuration remainingDuration d : Q) : Q :=
  if Qlt_bool remainingDuration (accumulatedDuration + d)
  then Qmax 1 (remainingDuration - accumulatedDuration)
  else d.

(** The video planned for an image, before it is rendered: its kind, its
    source and the duration handed to the media processor. *)
Definition plannedImageVideo (image : ValidImage)
    (accumulatedDuration remainingDuration : Q) : Segment :=
  let (kind, d) := imageCandidate (vi_width image) (vi_height image) in
  mkSegment kind (FromImage (vi_source image))
    (fitImageDuration accumulatedDuration remainingDuration d).

(** The render, awaited outside any [try].  The still is rendered through
    [videoFilters] and resolves.  The scroll is rendered with
    [outputOptions(['-vf', `"crop=w=1080:h=1920:x=0:y='min(t*100,
    H-1920)',fps=30"`])]: the option's value carries literal double quotes
    and names [H], which the crop filter does not define, so the media
    processor refuses the filter graph and the promise rejects. *)
Definition renderImageVideo (file : Segment) : Outcome Segment :=
  match seg_kind file with
  | scrolling_image_segment => Rejected
  | _ => Resolved file
  end.

Definition imageVideo (image : ValidImage)
    (accumulatedDuration remainingDuration : Q) : Outcome Segment :=
  renderImageVideo
    (plannedImageVideo image accumulatedDuration remainingDuration).

Fixpoint imageLoop (remainingDuration : Q) (validImages : list ValidImage)
    (imageVideoFiles : list Segment) (accumulatedDuration : Q)
    : Outcome (list Segment) :=
  match validImages with
  | [] => Resolved imageVideoFiles
  | image :: rest =>
      file <- imageVideo image accumulatedDuration remainingDuration ;;
      let imageVideoFiles := imageVideoFiles ++ [file] in
      let accumulatedDuration := accumulatedDuration + seg_duration file in
      if Qle_bool remainingDuration accumulatedDuration
      then Resolved imageVideoFiles
      else imageLoop remainingDuration rest imageVideoFiles accumulatedDuration
  end.

Definition imageStage (remainingDuration : Q) (imageUrls : list ImageSource)
    : Outcome (list Segment) :=
  imageLoop remainingDuration (filterImages (downloadImages imageUrls)) [] 0.

(** *** Step 3: the append videos *)

(** Download loop of step 3, with its [try]/[catch]. *)
Definition downloadAppendVideos (urls : list VideoSource)
    : list VideoSource :=
  filter video_download urls.

(** Cut the last append video when the pool overshoots: it keeps
    [lastVideoDuration - excessDuration] seconds, or is removed when nothing
    would be left. *)
Definition trimLastAppend (remaining : Q)
    (appendProcessedVideos : list ProcessedVideo) (accumulated : Q)
    : list ProcessedVideo :=
  match rev appendProcessedVideos with
  | [] => appendProcessedVideos
  | lastVideo :: earlier =>
      if Qlt_bool remaining accumulated then
        let lastVideoDuration := pv_duration lastVideo in
        let excessDuration := accumulated - remaining in
        let trimmedDuration := lastVideoDuration - excessDuration in
        if Qlt_bool 0 trimmedDuration then
          rev earlier ++ [mkProcessedVideo (pv_source lastVideo) trimmedDuration]
        else rev earlier
      else appendProcessedVideos
  end.

Definition appendSegment (v : ProcessedVideo) : Segment :=
  mkSegment clip_segment (FromAppend (pv_source v)) (pv_duration v).

Definition appendStage (remainingAfterImages : Q)
    (appendVideoUrls : list VideoSource) : Outcome (list Segment) :=
  let downloaded := downloadAppendVideos appendVideoUrls in
  r <- processVideos remainingAfterImages downloaded [] 0 ;;
  let (appendProcessedVideos, appendAccumulatedDuration) := r in
  Resolved (map appendSegment
    (trimLastAppend remainingAfterImages appendProcessedVideos
       appendAccumulatedDuration)).

(** *** The handler *)

Inductive InvalidRequest :=
| target_duration_required   (* targetDuration (number > 0) is required *)
| no_inputs_provided.        (* At least one of imageUrls, videoUrls, or
                                appendVideoUrls must be provided *)

Inductive Response :=
| invalid_request (why : InvalidRequest)     (* 400 *)
| no_video_generated                         (* 400 *)
| generation_failed                          (* 500 *)
| success (timeline : list Segment) (actualDuration duration : Q).

(** [parseFloat(x.toFixed(2))]: the nearest hundredth, halves away from 0. *)
Definition toFixed2 (x : Q) : Q :=
  if Qlt_bool x 0 then - (inject_Z (mathRound (- x * 100)) / 100)
  else inject_Z (mathRound (x * 100)) / 100.

Definition isEmpty {A : Type} (l : list A) : bool :=
  match l with [] => true | _ :: _ => false end.

(** [currentDuration] of step 2: the probed duration of
    [processedVideoFiles[0]], or 0 when step 1 left nothing. *)
Definition currentDurationOf (processedVideoFiles : list Segment) : Q :=
  match processedVideoFiles with
  | [] => 0
  | first :: _ => seg_duration first
  end.

(** Steps 1 to 3 of the [try] block: [processedVideoFiles] is built pool
    after pool, each pool seeing what the earlier ones left of the target. *)
Definition assemble (target : Q) (imageUrls : list ImageSource)
    (videoUrls appendVideoUrls : list VideoSource) : Outcome (list Segment) :=
  processedVideoFiles <- videoStage target videoUrls ;;
  let currentDuration := currentDurationOf processedVideoFiles in
  let remainingDuration := target - currentDuration in
  processedVideoFiles <-
    (if Qlt_bool 0 remainingDuration && negb (isEmpty imageUrls)
     then imageVideoFiles <- imageStage remainingDuration imageUrls ;;
          Resolved (processedVideoFiles ++ imageVideoFiles)
     else Resolved processedVideoFiles) ;;
  let currentTotalDuration := Qsum (durations processedVideoFiles) in
  let remainingAfterImages := target - currentTotalDuration in
  if Qlt_bool 0 remainingAfterImages && negb (isEmpty appendVideoUrls)
  then appended <- appendStage remainingAfterImages appendVideoUrls ;;
       Resolved (processedVideoFiles ++ appended)
  else Resolved processedVideoFiles.

(** Step 4: nothing to concatenate is an error; otherwise the files are
    concatenated and the result is cut to the target when it is longer. *)
Definition finish (target : Q) (processedVideoFiles : list Segment)
    : Response :=
  if isEmpty processedVideoFiles then no_video_generated
  else
    let finalDuration := concatDuration (durations processedVideoFiles) in
    let actualDuration :=
      if Qlt_bool target finalDuration then target else finalDuration in
    success processedVideoFiles actualDuration (toFixed2 actualDuration).

Definition compose (target : Q) (imageUrls : list ImageSource)
    (videoUrls appendVideoUrls : list VideoSource) : Outcome Response :=
  processedVideoFiles <-
    assemble target imageUrls videoUrls appendVideoUrls ;;
  Resolved (finish target processedVideoFiles).

Definition generateVideo916 (BASE_URL : string) (req : Request) : Response :=
  if Qle_bool (targetDuration req) 0 then
    invalid_request target_duration_required
  else if isEmpty (imageUrls req) && isEmpty (videoUrls req)
          && isEmpty (appendVideoUrls req) then
    invalid_request no_inputs_provided
  else
    match compose (targetDuration req)
            (normalizeImages BASE_URL (imageUrls req))
            (normalizeVideos BASE_URL (videoUrls req))
            (normalizeVideos BASE_URL (appendVideoUrls req)) with
    | Resolved response => response
    | Rejected => generation_failed
    end.

(** *** Notions the statements below use *)

(** The two answers that say nothing could be composed: no input list was
    given, or no file came out of the three pools. *)
Definition noSourcesAvailable (r : Response) : Prop :=
  r = invalid_request no_inputs_provided \/ r = no_video_generated.

Definition isSome {A : Type} (o : option A) : bool :=
  match o with Some _ => true | None => false end.

(** A video that downloads and probes. *)
Definition usableVideo (v : VideoSource) : bool :=
  video_download v && isSome (video_duration v).

(** An image that downloads, probes, and is at least 500 px both ways. *)
Definition usableImage (img : ImageSource) : bool :=
  image_download img &&
  match image_dimensions img with
  | Some (w, h) => ((500 <=? w) && (500 <=? h))%Z
  | None => false
  end.

Definition hasUsableSource (BASE_URL : string) (req : Request) : bool :=
  existsb usableVideo (normalizeVideos BASE_URL (videoUrls req))
  || existsb usableImage (normalizeImages BASE_URL (imageUrls req))
  || existsb usableVideo (normalizeVideos BASE_URL (appendVideoUrls req)).

(** Candidate durations: what each usable source would give if the budget
    did not matter. *)
Fixpoint videoCandidates (urls : list VideoSource) : list Q :=
  match urls with
  | [] => []
  | v :: rest =>
      match video_duration v with
      | Some d => if video_download v then d :: videoCandidates rest
                  else videoCandidates rest
      | None => videoCandidates rest
      end
  end.

Definition candidateOf (image : ValidImage) : Q :=
  snd (imageCandidate (vi_width image) (vi_height image)).

Definition imageCandidates (urls : list ImageSource) : list Q :=
  map candidateOf (filterImages (downloadImages urls)).

Definition candidateTotal (BASE_URL : string) (req : Request) : Q :=
  Qsum (videoCandidates (normalizeVideos BASE_URL (videoUrls req)))
  + Qsum (imageCandidates (normalizeImages BASE_URL (imageUrls req)))
  + Qsum (videoCandidates (normalizeVideos BASE_URL (appendVideoUrls req))).

(** An image whose download and probe both resolve. *)
Definition imageAnswers (img : ImageSource) : bool :=
  image_download img && isSome (image_dimensions img).

(** The request without the sources whose failure step 2 and step 3 catch:
    images that do not download or do not probe, append videos that do not
    download. *)
Definition withoutSoftFailures (req : Request) : Request :=
  mkRequest (targetDuration req)
    (filter imageAnswers (imageUrls req))
    (videoUrls req)
    (filter video_download (appendVideoUrls req)).

(** *** Notions the proofs use *)

(** The files the image loop pushes when every render resolves. *)
Fixpoint imageLoopPlan (remainingDuration : Q)
    (validImages : list ValidImage) (imageVideoFiles : list Segment)
    (accumulatedDuration : Q) : list Segment :=
  match validImages with
  | [] => imageVideoFiles
  | image :: rest =>
      let file :=
        plannedImageVideo image accumulatedDuration remainingDuration in
      let imageVideoFiles := imageVideoFiles ++ [file] in
      let accumulatedDuration := accumulatedDuration + seg_duration file in
      if Qle_bool remainingDuration accumulatedDuration then imageVideoFiles
      else
        imageLoopPlan remainingDuration rest imageVideoFiles
          accumulatedDuration
  end.

Definition imageStagePlan (remainingDuration : Q)
    (imageUrls : list ImageSource) : list Segment :=
  imageLoopPlan remainingDuration (filterImages (downloadImages imageUrls))
    [] 0.

(** An image that is usable and whose video would scroll. *)
Definition scrollingImage (img : ImageSource) : bool :=
  usableImage img &&
  match image_dimensions img with
  | Some (w, h) => (VIDEO_HEIGHT <? scaledHeight w h)%Z
  | None => false
  end.

End Video.

(** ** Subtitle track and SRT text ([routes/audio.js]) *)

Module Srt.
Import Subtitle.

(** The code units of an ASCII literal. *)
Fixpoint ofString (s : string) : jsstring :=
  match s with
  | EmptyString => []
  | String c rest => N_of_ascii c :: ofString rest
  end.

(** [String(n)] for an integer [n] (below 10^21, where JavaScript turns to
    exponent notation). *)
Definition numberToString (n : Z) : string :=
  DecimalString.NilZero.string_of_int (Z.to_int n).

(** [s.padStart(targetLength, '0')] *)
Fixpoint zeros (n : nat) : string :=
  match n with
  | O => EmptyString
  | S n => String "0" (zeros n)
  end.

Definition padStart (s : string) (targetLength : nat) : string :=
  String.append (zeros (targetLength - String.length s)) s.

(** The remainder operator [%] on numbers: the sign follows the dividend. *)
Definition jsTrunc (x : Q) : Z :=
  if Qlt_bool x 0 then Qceiling x else Qfloor x.

Definition jsRemainder (x m : Q) : Q := x - m * inject_Z (jsTrunc (x / m)).

(** The four fields of [formatSrtTime].  The remainders are exact on doubles
    as they are here; the product [(seconds % 1) * 1000] is exact here, and
    rounded to a double before the floor in the code, where it can reach the
    next whole millisecond ([Binary64.millisecondsProduct]). *)
Definition hoursOf (seconds : Q) : Z := Qfloor (seconds / 3600).
Definition minutesOf (seconds : Q) : Z :=
  Qfloor (jsRemainder seconds 3600 / 60).
Definition secsOf (seconds : Q) : Z := Qfloor (jsRemainder seconds 60).
Definition millisecondsOf (seconds : Q) : Z :=
  Qfloor (jsRemainder seconds 1 * 1000).

Definition formatSrtTime (seconds : Q) : string :=
  String.append (padStart (numberToString (hoursOf seconds)) 2)
    (String ":"
       (String.append (padStart (numberToString (minutesOf seconds)) 2)
          (String ":"
             (String.append (padStart (numberToString (secsOf seconds)) 2)
                (String ","
                   (padStart (numberToString (millisecondsOf seconds)) 3)))))).

(** One block of the SRT text:
    [`${sequence}\n${startTime} --> ${endTime}\n${subtitle.text}\n\n`]. *)
Definition srtBlock (index : nat) (subtitle : Subtitle) : jsstring :=
  ofString (numberToString (Z.of_nat (index + 1))) ++ [10%N]
  ++ ofString (formatSrtTime (startTime subtitle))
  ++ ofString " --> "
  ++ ofString (formatSrtTime (endTime subtitle)) ++ [10%N]
  ++ text subtitle ++ [10%N; 10%N].

Fixpoint srtBlocks (index : nat) (subtitles : list Subtitle) : jsstring :=
  match subtitles with
  | [] => []
  | subtitle :: rest => srtBlock index subtitle ++ srtBlocks (S index) rest
  end.

Definition generateSrtContent (subtitles : list Subtitle) : jsstring :=
  srtBlocks 0 subtitles.

(** The subtitles of one audio file in the [/audio] handler: nothing for an
    empty or blank text, else the timed fragments of the trimmed text. *)
Definition blockSubtitles (txt : jsstring) (duration currentTime : Q)
    : list Subtitle :=
  if negb (isEmptyString txt) && negb (isEmptyString (trim txt)) then
    let segments := splitTextByPunctuation (trim txt) in
    match segments with
    | [] => []
    | _ :: _ => calculateSubtitleTimings segments duration currentTime
    end
  else [].

(** The loop over [audioTxts]; each text comes with the probed duration of
    its audio file, [durations[i + 1]]: the request is refused unless
    [audioTxts] is as long as [audioUrls], and [durations] holds the intro
    and then one entry for each audio file.  (A probe that rejects ends the
    subtitle generation; the answer then carries no SRT file.)  The clock
    advances also when a text gives no subtitle. *)
Fixpoint audioSubtitles (audios : list (jsstring * Q)) (currentTime : Q)
    (subtitles : list Subtitle) : list Subtitle :=
  match audios with
  | [] => subtitles
  | (audioTxt, audioDuration) :: rest =>
      audioSubtitles rest (currentTime + audioDuration)
        (subtitles ++ blockSubtitles audioTxt audioDuration currentTime)
  end.

Definition SUBTITLE_START_OFFSET : Q := 5.

Definition buildSubtitles (introTxt : jsstring) (introDuration : Q)
    (audios : list (jsstring * Q)) : list Subtitle :=
  audioSubtitles audios (SUBTITLE_START_OFFSET + introDuration)
    (blockSubtitles introTxt introDuration SUBTITLE_START_OFFSET).

(** *** Notions the statements below use *)

(** The code units of a string that are not white space, in order. *)
Definition ink (s : jsstring) : jsstring :=
  filter (fun c => negb (isWhiteSpace c)) s.

(** Subtitles that tile the time from [a] to [b]: the first starts at [a],
    each one starts where the one before ends, the last ends at [b].  The
    times are required to be the same numbers ([=], not [==]): the code
    computes the end of a subtitle and the start of the next one by the same
    operations on the same operands, so that no law of arithmetic is needed
    for them to agree. *)
Fixpoint tiles (a : Q) (subtitles : list Subtitle) (b : Q) : Prop :=
  match subtitles with
  | [] => a = b
  | f :: rest => startTime f = a /\ tiles (endTime f) rest b
  end.

(** The clock of the subtitle loop, [currentTime += duration] for each audio
    file in turn, from [currentTime]. *)
Definition clockAfter (currentTime : Q) (durations : list Q) : Q :=
  fold_left Qplus durations currentTime.

(** Subtitle [g] is subtitle [f] moved by [shift] seconds. *)
Definition shifted (shift : Q) (f g : Subtitle) : Prop :=
  text g = text f /\
  startTime g == startTime f + shift /\
  endTime g == endTime f + shift.

(** A well-formed SRT timestamp, [dd:dd:dd,ddd]. *)
Definition isDigitChar (c : ascii) : bool :=
  ((48 <=? N_of_ascii c) && (N_of_ascii c <=? 57))%N.

Definition wellFormedTimestamp (s : string) : bool :=
  match s with
  | String h1 (String h2 (String c1 (String m1 (String m2 (String c2
      (String s1 (String s2 (String c3 (String f1 (String f2 (String f3
        EmptyString))))))))))) =>
      isDigitChar h1 && isDigitChar h2 && Ascii.eqb c1 ":"
      && isDigitChar m1 && isDigitChar m2 && Ascii.eqb c2 ":"
      && isDigitChar s1 && isDigitChar s2 && Ascii.eqb c3 ","
      && isDigitChar f1 && isDigitChar f2 && isDigitChar f3
  | _ => false
  end.

(** The milliseconds a timestamp [h1 h2 : m1 m2 : s1 s2 , f1 f2 f3] stands
    for. *)
Definition digitValue (c : ascii) : Z := Z.of_N (N_of_ascii c) - 48.

Definition readTimestamp (s : string) : option Z :=
  match s with
  | String h1 (String h2 (String _ (String m1 (String m2 (String _
      (String s1 (String s2 (String _ (String f1 (String f2 (String f3
        EmptyString))))))))))) =>
      Some (1000 * (3600 * (10 * digitValue h1 + digitValue h2)
                    + 60 * (10 * digitValue m1 + digitValue m2)
                    + (10 * digitValue s1 + digitValue s2))
            + (100 * digitValue f1 + 10 * digitValue f2 + digitValue f3))%Z
  | _ => None
  end.

(** *** Notions the proofs use *)

(** A part of [split]: a run without punctuation or a single punctuation
    mark. *)
Definition isPart (part : jsstring) : Prop :=
  existsb isPunctuation part = false \/
  exists c, part = [c] /\ isPunctuation c = true.

(** Punctuation occurs in [u] only inside the white space it starts with. *)
Definition clean (u : jsstring) : Prop :=
  existsb isPunctuation (trimStart u) = false.

(** What the loop keeps: a trimmed string of at most 51 code units with no
    punctuation before its last code unit. *)
Definition shaped (seg : jsstring) : Prop :=
  trim seg = seg /\
  existsb isPunctuation (removelast seg) = false /\
  (List.length seg <= 51)%nat.

(** The loop invariant of [splitTextByPunctuation]. *)
Definition splitInvariant (state : list jsstring * jsstring) : Prop :=
  Forall shaped (fst state) /\
  clean (snd state) /\
  (List.length (trimStart (snd state)) <= 50)%nat.

(** A string of [width] digits that reads [z]. *)
Fixpoint readsAs (s : string) (width : nat) (z : Z) : bool :=
  match s, width with
  | EmptyString, O => (z =? 0)%Z
  | String c rest, S width =>
      isDigitChar c
      && readsAs rest width (z - digitValue c * 10 ^ Z.of_nat width)
  | _, _ => false
  end.

End Srt.

(** ** Colours for the media processor ([utils/colorUtils.js]) *)

Module Color.
Import Subtitle Srt.

Definition isDigit (c : N) : bool := ((48 <=? c) && (c <=? 57))%N.

(** [\d+] is greedy: the digits [s] starts with, and what follows them.
    Giving back a digit never helps, since what follows [\d+] in the pattern
    is not a digit. *)
Fixpoint digits (s : jsstring) : jsstring * jsstring :=
  match s with
  | [] => ([], [])
  | c :: rest =>
      if isDigit c then let (ds, tail) := digits rest in (c :: ds, tail)
      else ([], s)
  end.

(** A captured group [(\d+)]: at least one digit. *)
Definition number (s : jsstring) : option (jsstring * jsstring) :=
  match digits s with
  | ([], _) => None
  | (ds, tail) => Some (ds, tail)
  end.

(** Literal text of the pattern: what is left of [s] behind it. *)
Fixpoint literal (lit s : jsstring) : option jsstring :=
  match lit with
  | [] => Some s
  | l :: lit =>
      match s with
      | [] => None
      | c :: rest => if N.eqb l c then literal lit rest else None
      end
  end.

(** [/rgb\((\d+),\s*(\d+),\s*(\d+)\)/] matched where [s] starts; the three
    groups.  [\s*] is greedy too and is followed by a digit. *)
Definition matchRgbHere (s : jsstring)
    : option (jsstring * jsstring * jsstring) :=
  match literal (ofString "rgb(") s with
  | None => None
  | Some s =>
  match number s with
  | None => None
  | Some (r, s) =>
  match literal (ofString ",") s with
  | None => None
  | Some s =>
  match number (trimStart s) with
  | None => None
  | Some (g, s) =>
  match literal (ofString ",") s with
  | None => None
  | Some s =>
  match number (trimStart s) with
  | None => None
  | Some (b, s) =>
  match literal (ofString ")") s with
  | None => None
  | Some _ => Some (r, g, b)
  end end end end end end end.

(** [color.match(...)]: the leftmost place where the pattern matches. *)
Fixpoint matchRgb (s : jsstring) : option (jsstring * jsstring * jsstring) :=
  match matchRgbHere s with
  | Some groups => Some groups
  | None =>
      match s with
      | [] => None
      | _ :: rest => matchRgb rest
      end
  end.

(** [parseInt(ds, 10)] of a string of digits (exact; JavaScript rounds
    above 2^53). *)
Definition parseInt (ds : jsstring) : N :=
  fold_left (fun n c => (n * 10 + (c - 48))%N) ds 0%N.

(** [n.toString(16)] *)
Definition toString16 (n : N) : jsstring :=
  ofString (HexadecimalString.NilZero.string_of_uint (N.to_hex_uint n)).

(** [s.padStart(targetLength, '0')], on code units *)
Definition padStartUnits (s : jsstring) (targetLength : nat) : jsstring :=
  repeat 48%N (targetLength - List.length s) ++ s.

Definition component (ds : jsstring) : jsstring :=
  padStartUnits (toString16 (parseInt ds)) 2.

(** [color] is a string, as the routes' defaults are; [!color] is then the
    test for the empty string. *)
Definition parseColorForFFmpeg (color : jsstring) : jsstring :=
  if isEmptyString color then ofString "0x000000"
  else
    let rgbForm :=
      match matchRgb color with
      | Some (r, g, b) =>
          ofString "0x" ++ component r ++ component g ++ component b
      | None => ofString "0x000000"
      end in
    match literal (ofString "#") color with
    | Some hex =>
        if (List.length hex =? 3)%nat then
          ofString "0x" ++ flat_map (fun c => [c; c]) hex
        else if (List.length hex =? 6)%nat then ofString "0x" ++ hex
        else rgbForm
    | None => rgbForm
    end.

(** *** Notions the statements below use *)

(** The decimal numeral of [n], as a JavaScript string. *)
Definition decimal (n : N) : jsstring :=
  ofString (numberToString (Z.of_N n)).

(** The lower-case hexadecimal digit for [d < 16]. *)
Definition hexDigit (d : N) : N :=
  nth (N.to_nat d) (ofString "0123456789abcdef") 0%N.

(** *** Notions the proofs use *)

Definition sameString (s1 s2 : jsstring) : bool :=
  if list_eq_dec N.eq_dec s1 s2 then true else false.

End Color.

(** ** Binary64 arithmetic at three places

    The functions above compute on exact rationals; JavaScript computes on
    binary64 doubles.  At three places the rounding of a single operation
    shows in a result.  The expressions of these places are written here on
    primitive floats, so that they can be evaluated next to the exact ones. *)

Module Binary64.
Import PrimFloat.

Definition ofZ (z : Z) : float := of_uint63 (Uint63.of_Z z).

Definition ofNat (n : nat) : float := ofZ (Z.of_nat n).

(** The exact value of a finite double. *)
Definition valueOf (x : float) : option Q :=
  match FloatOps.Prim2SF x with
  | SpecFloat.S754_zero _ => Some 0
  | SpecFloat.S754_finite negative m e =>
      let magnitude := inject_Z (Zpos m) * Qpower 2 e in
      Some (if negative then - magnitude else magnitude)
  | _ => None
  end.

(** The doubles written [0.9] and [0.3]. *)
Definition nine_tenths : float := 0x1.ccccccccccccdp-1%float.
Definition three_tenths : float := 0x1.3333333333333p-2%float.

(** [startTime + (index + 1) * segmentDuration] with
    [segmentDuration = totalDuration / segments.length]: the end of fragment
    [index] in the all-punctuation branch of [calculateSubtitleTimings]. *)
Definition evenSplitEndTime (totalDuration startTime : float)
    (length index : nat) : float :=
  (startTime + ofNat (index + 1) * (totalDuration / ofNat length))%float.

(** [(seconds % 1) * 1000] of [formatSrtTime] for [0 <= seconds < 1], where
    [seconds % 1] is [seconds] itself. *)
Definition millisecondsProduct (seconds : float) : float :=
  (seconds * 1000)%float.

(** [image.height * (VIDEO_WIDTH / image.width)], the number handed to
    [Math.round] for the scaled height. *)
Definition scaledProduct (width height : Z) : float :=
  (ofZ height * (1080 / ofZ width))%float.

End Binary64.

(** * Proofs *)

(** ** Facts about numbers *)

Lemma Qlt_bool_iff (a b : Q) : Qlt_bool a b = true <-> a < b.
Proof.
  unfold Qlt_bool. rewrite negb_true_iff. split.
  - intros H. apply Qnot_le_lt. intros Hle.
    apply Qle_bool_iff in Hle. congruence.
  - intros H. destruct (Qle_bool b a) eqn:E; [|reflexivity].
    apply Qle_bool_iff in E. lra.
Qed.

Lemma Qlt_bool_false (a b : Q) : Qlt_bool a b = false <-> b <= a.
Proof.
  unfold Qlt_bool. rewrite negb_false_iff. apply Qle_bool_iff.
Qed.

Lemma Qle_bool_false (a b : Q) : Qle_bool a b = false <-> b < a.
Proof.
  split.
  - intros H. apply Qnot_le_lt. intros Hle.
    apply Qle_bool_iff in Hle. congruence.
  - intros H. destruct (Qle_bool a b) eqn:E; [|reflexivity].
    apply Qle_bool_iff in E. lra.
Qed.



Lemma Qnat_pos (n : nat) : (0 < n)%nat -> 0 < Qnat n.
Proof.
  intros H. unfold Qnat. change 0 with (inject_Z 0).
  rewrite <- Zlt_Qlt. lia.
Qed.

Lemma fold_left_Qplus_acc (l : list Q) (a : Q) :
  fold_left Qplus l a == a + fold_left Qplus l 0.
Proof.
  revert a. induction l as [|x l IH]; intros a; simpl.
  - lra.
  - rewrite (IH (a + x)), (IH (0 + x)). lra.
Qed.

Lemma Qsum_nil : Qsum [] == 0.
Proof. reflexivity. Qed.

Lemma Qsum_cons (x : Q) (l : list Q) : Qsum (x :: l) == x + Qsum l.
Proof.
  unfold Qsum. simpl. rewrite fold_left_Qplus_acc. lra.
Qed.

Lemma Qsum_app (l1 l2 : list Q) : Qsum (l1 ++ l2) == Qsum l1 + Qsum l2.
Proof.
  induction l1 as [|x l1 IH].
  - simpl. rewrite Qsum_nil. lra.
  - simpl. rewrite !Qsum_cons, IH. lra.
Qed.

(** [Math.max] after [Math.min]: what a floored cap can and cannot exceed. *)
Lemma Qmax_min_le_cap (lo x cap : Q) :
  lo <= cap -> Qmax lo (Qmin x cap) <= cap.
Proof.
  intros H. apply Q.max_lub; [exact H | apply Q.le_min_r].
Qed.

Lemma Qmax_min_le_max (lo x cap : Q) :
  Qmax lo (Qmin x cap) <= Qmax lo cap.
Proof.
  apply Q.max_le_compat_l, Q.le_min_r.
Qed.

(** ** Subtitle timing *)

Module SubtitleFacts.
Import Subtitle.


Lemma assign_length n scale items : forall i c r,
  List.length (assign n scale i items c r) = List.length items.
Proof.
  induction items as [|[seg ideal] rest IH]; intros i c r; simpl.
  - reflexivity.
  - now rewrite IH.
Qed.


Lemma assign_head n scale items i c r f :
  nth_error (assign n scale i items c r) 0 = Some f -> startTime f = c.
Proof.
  destruct items as [|[seg ideal] rest]; simpl; [discriminate|].
  now intros [= <-].
Qed.

Lemma assign_contiguous n scale items : forall i c r,
  forall k a b,
    nth_error (assign n scale i items c r) k = Some a ->
    nth_error (assign n scale i items c r) (S k) = Some b ->
    endTime a = startTime b.
Proof.
  induction items as [|[seg ideal] rest IH]; intros i c r k a b Ha Hb.
  - destruct k; discriminate.
  - destruct k as [|k].
    + simpl in Ha. injection Ha as <-. simpl in Hb.
      apply assign_head in Hb. now rewrite Hb.
    + simpl in Ha. change (nth_error (assign n scale (S i) rest
        (c + segmentDuration n i (ideal * scale) r)
        (r - segmentDuration n i (ideal * scale) r)) (S k) = Some b) in Hb.
      eapply IH; eassumption.
Qed.

Lemma setLastEndTime_length l t :
  List.length (setLastEndTime l t) = List.length l.
Proof.
  induction l as [|f [|g rest] IH]; simpl in *; auto.
Qed.


Lemma setLastEndTime_nth_some t : forall l k f,
  nth_error l k = Some f ->
  exists g, nth_error (setLastEndTime l t) k = Some g.
Proof.
  intros l k f H.
  destruct (nth_error (setLastEndTime l t) k) eqn:E; [eauto|].
  apply nth_error_None in E. rewrite setLastEndTime_length in E.
  assert (k < List.length l)%nat by (apply nth_error_Some; congruence). lia.
Qed.

Lemma evenSplit_length sd s segs : forall idx,
  List.length (evenSplit sd s idx segs) = List.length segs.
Proof.
  induction segs as [|seg rest IH]; intros idx; simpl; auto.
Qed.

Lemma evenSplit_nth sd s segs : forall idx k f,
  nth_error (evenSplit sd s idx segs) k = Some f ->
  startTime f = s + Qnat (idx + k) * sd /\
  endTime f = s + (Qnat (idx + k) + 1) * sd.
Proof.
  induction segs as [|seg rest IH]; intros idx k f H.
  - destruct k; discriminate.
  - destruct k as [|k]; simpl in H.
    + injection H as <-. simpl. now rewrite Nat.add_0_r.
    + apply IH in H. now replace (idx + S k)%nat with (S idx + k)%nat by lia.
Qed.


Lemma idealDurations_length segs D :
  List.length (idealDurations segs D) = List.length segs.
Proof. unfold idealDurations. now rewrite length_map. Qed.


(** *** Splitting a text into fragments *)

Lemma hasInk_app (s1 s2 : jsstring) :
  hasInk (s1 ++ s2) = hasInk s1 || hasInk s2.
Proof. apply existsb_app. Qed.

Lemma hasInk_rev : forall s, hasInk (rev s) = hasInk s.
Proof.
  induction s as [|c s IH]; [reflexivity|].
  simpl. rewrite hasInk_app, IH. simpl.
  now rewrite orb_false_r, orb_comm.
Qed.

Lemma trimStart_nil_iff : forall s, trimStart s = [] <-> hasInk s = false.
Proof.
  induction s as [|c s IH]; simpl; [tauto|].
  destruct (isWhiteSpace c); simpl; [exact IH|].
  split; discriminate.
Qed.

Lemma hasInk_trimStart : forall s, hasInk (trimStart s) = hasInk s.
Proof.
  induction s as [|c s IH]; simpl; [reflexivity|].
  destruct (isWhiteSpace c) eqn:E; simpl; [exact IH|].
  now rewrite E.
Qed.

(** [trim] leaves nothing exactly when there was only white space. *)
Lemma trim_empty_iff (s : jsstring) :
  isEmptyString (trim s) = true <-> hasInk s = false.
Proof.
  unfold trim.
  assert (H : forall l : jsstring, isEmptyString l = true <-> l = []).
  { intros [|x l]; simpl; split; congruence. }
  rewrite H. split.
  - intros E. apply (f_equal (@rev N)) in E. rewrite rev_involutive in E.
    simpl in E. apply trimStart_nil_iff in E.
    now rewrite hasInk_rev, hasInk_trimStart in E.
  - intros E. apply trimStart_nil_iff in E. now rewrite E.
Qed.

Lemma pushed_trim_inked (segments : list jsstring) (s : jsstring) :
  existsb (fun seg => negb (isEmptyString seg)) (segments ++ [trim s])
  = existsb (fun seg => negb (isEmptyString seg)) segments || hasInk s.
Proof.
  rewrite existsb_app. simpl. rewrite orb_false_r. f_equal.
  destruct (hasInk s) eqn:E.
  - destruct (isEmptyString (trim s)) eqn:Et; [|reflexivity].
    apply trim_empty_iff in Et. congruence.
  - apply trim_empty_iff in E. now rewrite E.
Qed.

Lemma forceSplit_inked : forall words temp segments,
  inked (forceSplit words temp segments)
  = inked (segments, temp) || hasInk words.
Proof.
  induction words as [|word rest IH]; intros temp segments;
    cbn [forceSplit].
  - simpl. now rewrite orb_false_r.
  - destruct (50 <=? List.length (temp ++ [word]))%nat; rewrite IH;
      unfold inked; simpl.
    + rewrite pushed_trim_inked, hasInk_app. simpl.
      rewrite !orb_false_r, <- !orb_assoc. reflexivity.
    + rewrite hasInk_app. simpl.
      rewrite !orb_false_r, <- !orb_assoc. reflexivity.
Qed.

Lemma addPart_inked (state : list jsstring * jsstring) (part : jsstring) :
  inked (addPart state part) = inked state || hasInk part.
Proof.
  destruct state as [segments cur]. unfold addPart.
  destruct part as [|c part]; [simpl; now rewrite orb_false_r|].
  simpl isEmptyString. cbv iota.
  set (p := c :: part).
  destruct (existsb isPunctuation p).
  - destruct (isEmptyString (trim (cur ++ p))) eqn:Et; unfold inked; simpl.
    + now rewrite hasInk_app, orb_assoc.
    + rewrite pushed_trim_inked, hasInk_app.
      now rewrite orb_false_r, orb_assoc.
  - destruct (50 <? List.length (cur ++ p))%nat.
    + rewrite forceSplit_inked. unfold inked. simpl.
      now rewrite hasInk_app, orb_false_r, orb_assoc.
    + unfold inked. simpl. now rewrite hasInk_app, orb_assoc.
Qed.

Lemma fold_addPart_inked : forall parts state,
  inked (fold_left addPart parts state)
  = inked state || existsb hasInk parts.
Proof.
  induction parts as [|part parts IH]; intros state; simpl.
  - now rewrite orb_false_r.
  - now rewrite IH, addPart_inked, orb_assoc.
Qed.

Lemma split_inked : forall chars run,
  existsb hasInk (split chars run) = hasInk run || hasInk chars.
Proof.
  induction chars as [|c chars IH]; intros run; simpl.
  - now rewrite !orb_false_r.
  - destruct (isPunctuation c); simpl.
    + rewrite IH. simpl. now rewrite !orb_false_r.
    + rewrite IH, hasInk_app. simpl. now rewrite orb_false_r, orb_assoc.
Qed.

(** A text yields at least one fragment exactly when it is not blank, and
    no fragment is empty. *)
Lemma splitTextByPunctuation_nonempty (text : jsstring) :
  (splitTextByPunctuation text <> [] <-> hasInk text = true) /\
  Forall (fun seg => seg <> []) (splitTextByPunctuation text).
Proof.
  unfold splitTextByPunctuation.
  destruct (isEmptyString (trim text)) eqn:Eblank.
  { apply trim_empty_iff in Eblank. rewrite Eblank.
    split; [split; [congruence | discriminate] | constructor]. }
  assert (Hink : hasInk text = true).
  { destruct (hasInk text) eqn:E; [reflexivity|].
    apply trim_empty_iff in E. congruence. }
  pose proof (fold_addPart_inked (split text []) ([], [])) as Hfold.
  rewrite split_inked, Hink in Hfold. simpl in Hfold.
  destruct (fold_left addPart (split text []) ([], [])) as [segments cur].
  unfold inked in Hfold. simpl in Hfold.
  set (kept := if isEmptyString (trim cur) then segments
               else segments ++ [trim cur]).
  assert (Hkept : existsb (fun seg => negb (isEmptyString seg)) kept = true).
  { subst kept. destruct (isEmptyString (trim cur)) eqn:Et.
    - apply trim_empty_iff in Et. rewrite Et, orb_false_r in Hfold.
      exact Hfold.
    - rewrite existsb_app. simpl. rewrite Et. simpl.
      now rewrite orb_true_r. }
  split.
  - split; [intros _; exact Hink|]. intros _ Hc.
    apply existsb_exists in Hkept. destruct Hkept as (seg & Hin & Hseg).
    assert (Hf : In seg (filter (fun seg => negb (isEmptyString seg)) kept))
      by (apply filter_In; auto).
    rewrite Hc in Hf. destruct Hf.
  - apply Forall_forall. intros seg Hin. apply filter_In in Hin.
    destruct Hin as [_ Hseg]. destruct seg; [discriminate | discriminate].
Qed.

(** With at least one counted character the main branch runs. *)
Lemma totalChars_nil : totalChars [] = 0%nat.
Proof. reflexivity. Qed.

Lemma calculate_main segs D s :
  totalChars segs <> 0%nat ->
  calculateSubtitleTimings segs D s =
  setLastEndTime
    (assign (List.length segs) (scaleFactor segs D) 0
       (combine segs (idealDurations segs D)) s D) (s + D).
Proof.
  intros H. unfold calculateSubtitleTimings.
  destruct segs as [|seg rest]; [now rewrite totalChars_nil in H|].
  destruct (Nat.eqb_spec (totalChars (seg :: rest)) 0); [contradiction|].
  reflexivity.
Qed.


End SubtitleFacts.

Module SubtitleSpec.
Import Subtitle SubtitleFacts.

(** C3 fails in the code on a block too short for its fragments.  The text
    "a，b，c" gives three fragments; in a block of 0.5 s that starts at 0 the
    first two get the 0.3 s floor each, so the last one starts at 0.6 s,
    after the end of the block, and is then made to end at 0.5 s: it ends
    before it starts and lies inside the fragment before it, which runs from
    0.3 s to 0.6 s.  The fragments overlap. *)
Lemma short_block_fragments_overlap :
  let segments := splitTextByPunctuation [97; 0xFF0C; 98; 0xFF0C; 99]%N in
  exists first second last,
    calculateSubtitleTimings segments (1#2) 0 = [first; second; last] /\
    startTime first == 0 /\ endTime first == 3#10 /\
    startTime second == 3#10 /\ endTime second == 6#10 /\
    startTime last == 6#10 /\ endTime last == 1#2 /\
    endTime last < startTime last /\
    startTime second < endTime last /\ endTime last < endTime second.
Proof.
  do 3 eexists. split; [reflexivity|].
  repeat split.
Qed.




(** C8 fails in the code: the text "a，b，c" gives three fragments; in a
    block of 0.5 s the first one gets the 0.3 s floor although the stated
    cap, 0.5 - 0.3 * 2, is negative, and the last one starts at 0.6 s, after
    the block has ended: it is left with a negative duration. *)
Lemma floor_overrides_cap :
  let segments := splitTextByPunctuation [97; 0xFF0C; 98; 0xFF0C; 99]%N in
  let subtitles := calculateSubtitleTimings segments (1#2) 0 in
  List.length segments = 3%nat /\
  exists first last,
    nth_error subtitles 0 = Some first /\
    nth_error subtitles 2 = Some last /\
    ~ (duration first
       <= ((1#2) - (startTime first - 0)) - (3#10) * Qnat (3 - 0 - 1)) /\
    duration last < 0.
Proof.
  split; [reflexivity|].
  do 2 eexists. split; [reflexivity|]. split; [reflexivity|].
  split.
  - unfold duration, Qle. simpl. lia.
  - unfold duration, Qlt. simpl. lia.
Qed.



(** C9, as stated, fails: in a block of 1 s the only fragment, "ab", gets
    the 0.5 s floor, more than a third of the block. *)
Lemma ideal_exceeds_third_of_short_block :
  let segments := splitTextByPunctuation [97; 98]%N in
  totalChars segments <> 0%nat /\
  exists ideal,
    nth_error (idealDurations segments 1) 0 = Some ideal /\
    1#2 <= ideal /\
    ~ (ideal <= 1 / 3).
Proof.
  split; [vm_compute; discriminate|].
  eexists. split; [reflexivity|].
  split; vm_compute; [discriminate | intros H; apply H; reflexivity].
Qed.

(** C9, amended.  With positive total weight, fragment [i]'s ideal duration
    is [max(0.5, min(D/3, weight * (D / totalWeight)))]: at least half a
    second always, at most [max(0.5, D/3)], and at most a third of the block
    once the block lasts 1.5 s or more (in a shorter block the 0.5 s floor
    wins over the cap). *)
Theorem ideal_duration_bounds
    (segments : list jsstring) (totalDuration : Q)
    (i : nat) (segment : jsstring) :
  totalChars segments <> 0%nat ->
  nth_error segments i = Some segment ->
  exists ideal,
    nth_error (idealDurations segments totalDuration) i = Some ideal /\
    ideal == Qmax (1#2)
               (Qmin (totalDuration / 3)
                  (Qnat (charCount segment)
                   * (totalDuration / Qnat (totalChars segments)))) /\
    1#2 <= ideal /\
    ideal <= Qmax (1#2) (totalDuration / 3) /\
    (3#2 <= totalDuration -> ideal <= totalDuration / 3).
Proof.
  intros _ Hseg. unfold idealDurations.
  eexists. split; [apply map_nth_error; exact Hseg|].
  unfold idealDuration.
  split; [reflexivity|]. split; [apply Q.le_max_l|]. split.
  - apply Q.max_le_compat_l, Q.le_min_l.
  - intros Hlong. apply Q.max_lub; [|apply Q.le_min_l].
    unfold Qdiv. change (/ 3) with (1#3). lra.
Qed.

Lemma ideal_duration_bounds_witness :
  let segments := [[97; 98; 0x3002]; [99; 0xFF0C]; [100]]%N in
  exists ideal,
    nth_error (idealDurations segments 6) 1 = Some ideal /\
    ideal == Qmax (1#2) (Qmin (6 / 3) (Qnat 1 * (6 / Qnat 4))) /\
    1#2 <= ideal /\
    ideal <= Qmax (1#2) (6 / 3) /\
    ideal <= 6 / 3.
Proof.
  destruct (ideal_duration_bounds
              [[97; 98; 0x3002]; [99; 0xFF0C]; [100]]%N 6 1 [99; 0xFF0C]%N
              ltac:(vm_compute; discriminate) eq_refl)
    as (ideal & H1 & H2 & H3 & H4 & H5).
  exists ideal.
  split; [exact H1|]. split; [exact H2|]. split; [exact H3|].
  split; [exact H4|]. apply H5. vm_compute; discriminate.
Defined.

End SubtitleSpec.

(** ** The 9:16 video generator *)

Module VideoFacts.
Import Video.

Lemma bind_Resolved {A B} (c : Outcome A) (k : A -> Outcome B) (b : B) :
  bind c k = Resolved b -> exists a, c = Resolved a /\ k a = Resolved b.
Proof.
  destruct c as [a|]; simpl; [eauto | discriminate].
Qed.

Lemma durations_app (l1 l2 : list Segment) :
  durations (l1 ++ l2) = durations l1 ++ durations l2.
Proof. apply map_app. Qed.

(** *** The processing loop of step 1 and step 3 *)

(** What a run of the loop that was not aborted has done: it consumed a
    prefix of the files, every consumed file probed, the total is the sum of
    the probed durations, the loop only stopped early once the budget was
    reached, and before the last consumed file the budget was not reached. *)
Lemma processVideos_spec (budget : Q) : forall files acc0 total0 pv total,
  total0 < budget ->
  processVideos budget files acc0 total0 = Resolved (pv, total) ->
  exists new,
    pv = acc0 ++ new /\
    total == total0 + Qsum (map pv_duration new) /\
    map pv_source new = firstn (List.length new) files /\
    Forall (fun p => video_duration (pv_source p) = Some (pv_duration p)) new /\
    (total < budget -> List.length new = List.length files) /\
    (forall k,
        (k < List.length new)%nat ->
        total0 + Qsum (map pv_duration (firstn k new)) < budget) /\
    (files <> [] -> new <> []).
Proof.
  induction files as [|v rest IH]; intros acc0 total0 pv total Hlt H.
  - simpl in H. injection H as <- <-. exists []. rewrite app_nil_r.
    repeat split; auto.
    + rewrite Qsum_nil. lra.
    + simpl. intros k Hk. lia.
  - simpl in H. destruct (video_duration v) as [d|] eqn:Ed; [|discriminate].
    destruct (Qle_bool budget (total0 + d)) eqn:Ereach.
    + injection H as <- <-. exists [mkProcessedVideo v d].
      apply Qle_bool_iff in Ereach. simpl.
      repeat split; auto.
      * rewrite Qsum_cons, Qsum_nil. lra.
      * intros Hc. lra.
      * intros k Hk. replace k with 0%nat by lia. simpl.
        rewrite Qsum_nil. lra.
      * discriminate.
    + apply Qle_bool_false in Ereach.
      apply IH in H; [|exact Ereach].
      destruct H as (new & Hpv & Htot & Hsrc & Hall & Hfull & Hpre & _).
      exists (mkProcessedVideo v d :: new). simpl.
      repeat split.
      * rewrite Hpv, <- app_assoc. reflexivity.
      * rewrite Htot, Qsum_cons. simpl. lra.
      * now rewrite Hsrc.
      * constructor; [exact Ed | exact Hall].
      * intros Hc. now rewrite (Hfull Hc).
      * intros k Hk. destruct k as [|k].
        -- simpl. rewrite Qsum_nil. lra.
        -- simpl. rewrite Qsum_cons. simpl.
           specialize (Hpre k ltac:(lia)). lra.
      * discriminate.
Qed.

Lemma downloadVideos_Resolved : forall urls files,
  downloadVideos urls = Resolved files ->
  files = urls /\ forallb video_download urls = true.
Proof.
  induction urls as [|v rest IH]; intros files H; simpl in H.
  - now injection H as <-.
  - destruct (video_download v) eqn:E; [|discriminate].
    apply bind_Resolved in H. destruct H as (r & Hr & H).
    injection H as <-. apply IH in Hr. destruct Hr as [-> Hall].
    simpl. now rewrite E, Hall.
Qed.

(** Candidates of a list whose files all download and probe. *)
Lemma videoCandidates_all : forall (new : list ProcessedVideo),
  forallb video_download (map pv_source new) = true ->
  Forall (fun p => video_duration (pv_source p) = Some (pv_duration p)) new ->
  videoCandidates (map pv_source new) = map pv_duration new.
Proof.
  induction new as [|p new IH]; intros Hd Hall; simpl; [reflexivity|].
  inversion Hall as [|? ? Hp Hrest]; subst.
  simpl in Hd. apply andb_true_iff in Hd. destruct Hd as [Hd1 Hd2].
  rewrite Hp, Hd1, (IH Hd2 Hrest). reflexivity.
Qed.

Lemma videoCandidates_downloaded : forall urls,
  videoCandidates (filter video_download urls) = videoCandidates urls.
Proof.
  induction urls as [|v rest IH]; simpl; [reflexivity|].
  destruct (video_download v) eqn:E; simpl; rewrite ?E, IH;
    destruct (video_duration v); reflexivity.
Qed.

(** [firstn] of the whole length. *)
Lemma firstn_length_all {A} (l l' : list A) :
  l' = firstn (List.length l') l -> List.length l' = List.length l -> l' = l.
Proof.
  intros H Hlen. rewrite H, Hlen. apply firstn_all.
Qed.

(** *** Step 1 *)

(** What step 1 leaves in [processedVideoFiles] when it is not aborted:
    nothing when no video was given, else one file, the concatenation of the
    consumed videos cut to the target. *)
Lemma videoStage_spec (target : Q) (vs : list VideoSource)
    (files : list Segment) :
  0 < target ->
  videoStage target vs = Resolved files ->
  forallb video_download vs = true /\
  ((vs = [] /\ files = []) \/
   (exists new d,
      vs <> [] /\ new <> [] /\
      files = [mkSegment clip_segment (FromVideos (map pv_source new)) d] /\
      map pv_source new = firstn (List.length new) vs /\
      Forall (fun p => video_duration (pv_source p) = Some (pv_duration p))
        new /\
      d <= target /\
      (d == target \/
       (d < target /\ d == Qsum (map pv_duration new) /\
        List.length new = List.length vs)))).
Proof.
  intros Htarget H. unfold videoStage in H.
  destruct vs as [|v0 rest]; [injection H as <-; split; auto|].
  apply bind_Resolved in H. destruct H as (dl & Hdl & H).
  apply downloadVideos_Resolved in Hdl. destruct Hdl as [-> Hall].
  split; [exact Hall|]. right.
  apply bind_Resolved in H. destruct H as ([pv total] & Hpv & H).
  apply processVideos_spec in Hpv; [|exact Htarget].
  destruct Hpv as (new & Hnew & Htot & Hsrc & Hprobed & Hfull & _ & Hne).
  simpl in Hnew. subst pv. simpl fst in H.
  specialize (Hne ltac:(discriminate)).
  destruct new as [|p new']; [congruence|].
  set (new := p :: new') in *.
  unfold concatDuration in H.
  change (match new with [] => Resolved [] | _ :: _ =>
           if Qlt_bool target (Qsum (map pv_duration new))
           then Resolved [mkSegment clip_segment
                            (FromVideos (map pv_source new)) target]
           else Resolved [mkSegment clip_segment
                            (FromVideos (map pv_source new))
                            (Qsum (map pv_duration new))]
         end = Resolved files) in H.
  assert (Hnn : new <> []) by (subst new; discriminate).
  destruct (Qlt_bool target (Qsum (map pv_duration new))) eqn:Elong;
    cbv iota in H; unfold new at 1 in H; injection H as <-.
  - exists new, target. repeat split; auto; try discriminate.
    + lra.
    + left. reflexivity.
  - apply Qlt_bool_false in Elong.
    exists new, (Qsum (map pv_duration new)).
    repeat split; auto; try discriminate.
    destruct (Qlt_le_dec (Qsum (map pv_duration new)) target) as [Hlt|Hge].
    + right. split; [exact Hlt|]. split; [reflexivity|].
      apply Hfull. lra.
    + left. lra.
Qed.

Lemma videoStage_sum (target : Q) (vs : list VideoSource)
    (files : list Segment) :
  0 < target ->
  videoStage target vs = Resolved files ->
  currentDurationOf files == Qsum (durations files) /\
  Qsum (durations files) <= target /\
  (Qsum (durations files) < target ->
   Qsum (durations files) == Qsum (videoCandidates vs)) /\
  (vs <> [] -> files <> []) /\
  (forall seg, In seg files -> exists srcs, seg_source seg = FromVideos srcs).
Proof.
  intros Htarget H. apply videoStage_spec in H; [|exact Htarget].
  destruct H as [Hdl [[-> ->] | (new & d & Hvs & Hnew & -> & Hsrc & Hpr & Hle & Hd)]].
  - simpl. rewrite Qsum_nil. repeat split; try lra; try reflexivity.
    + congruence.
    + intros seg [].
  - unfold durations. simpl. rewrite Qsum_cons, Qsum_nil.
    repeat split; try lra.
    + intros Hlt. destruct Hd as [Hd | (_ & Hd & Hlen)]; [lra|].
      pose proof (firstn_length_all vs (map pv_source new)) as Hall.
      rewrite length_map in Hall. specialize (Hall Hsrc Hlen).
      rewrite <- Hall, videoCandidates_all; [lra | | exact Hpr].
      now rewrite Hall.
    + discriminate.
    + intros seg [<- | []]. simpl. eauto.
Qed.

(** A clip list whose run is not aborted starts with a usable clip. *)
Lemma videoStage_head_usable (target : Q) v rest files :
  0 < target ->
  videoStage target (v :: rest) = Resolved files ->
  usableVideo v = true.
Proof.
  intros Htarget H. apply videoStage_spec in H; [|exact Htarget].
  destruct H as [Hdl [[Hc _] | (new & d & _ & Hnew & _ & Hsrc & Hpr & _)]];
    [discriminate|].
  destruct new as [|p new]; [congruence|].
  simpl in Hsrc. injection Hsrc as Hp _.
  inversion Hpr as [|? ? Hprobe _]; subst.
  simpl in Hdl. apply andb_true_iff in Hdl. destruct Hdl as [Hd _].
  unfold usableVideo. now rewrite Hd, Hprobe.
Qed.

(** *** Step 2 *)

Lemma plannedImageVideo_fields image acc rem :
  seg_kind (plannedImageVideo image acc rem)
  = fst (imageCandidate (vi_width image) (vi_height image)) /\
  seg_source (plannedImageVideo image acc rem) = FromImage (vi_source image) /\
  seg_duration (plannedImageVideo image acc rem)
  = fitImageDuration acc rem (candidateOf image).
Proof.
  unfold plannedImageVideo, candidateOf.
  destruct (imageCandidate (vi_width image) (vi_height image)). auto.
Qed.

(** A candidate lasts at least 3 s. *)
Lemma imageCandidate_long w h : 3 <= snd (imageCandidate w h).
Proof.
  unfold imageCandidate. destruct (VIDEO_HEIGHT <? scaledHeight w h)%Z; simpl.
  - apply Q.le_max_l.
  - lra.
Qed.

(** Fitting an image into what is left: never longer than the candidate,
    never shorter than 1 s, and equal to [max(1, min(candidate, left))]. *)
Lemma fitImageDuration_spec acc rem d :
  3 <= d -> acc < rem ->
  fitImageDuration acc rem d == Qmax 1 (Qmin d (rem - acc)) /\
  fitImageDuration acc rem d <= d /\
  1 <= fitImageDuration acc rem d /\
  (acc + fitImageDuration acc rem d < rem -> fitImageDuration acc rem d = d).
Proof.
  intros Hd Hacc. unfold fitImageDuration.
  destruct (Qlt_bool rem (acc + d)) eqn:E.
  - apply Qlt_bool_iff in E.
    assert (Hmin : Qmin d (rem - acc) == rem - acc) by (apply Q.min_r; lra).
    split; [now rewrite Hmin|]. split; [|split].
    + apply Q.max_lub; lra.
    + apply Q.le_max_l.
    + intros Hc. pose proof (Q.le_max_r 1 (rem - acc)). lra.
  - apply Qlt_bool_false in E.
    assert (Hmin : Qmin d (rem - acc) == d) by (apply Q.min_l; lra).
    split; [|split; [lra | split; [lra | reflexivity]]].
    rewrite Hmin. symmetry. apply Q.max_r. lra.
Qed.

(** The image loop, file by file. *)
Lemma imageLoopPlan_spec (rem : Q) : forall valid files0 acc0,
  acc0 < rem ->
  exists new,
    imageLoopPlan rem valid files0 acc0 = files0 ++ new /\
    (valid <> [] -> new <> []) /\
    (forall i seg,
        nth_error new i = Some seg ->
        exists image acc,
          nth_error valid i = Some image /\
          acc == acc0 + Qsum (firstn i (durations new)) /\
          acc < rem /\
          seg = plannedImageVideo image acc rem) /\
    (rem <= acc0 + Qsum (durations new) \/
     Qsum (durations new) == Qsum (map candidateOf valid)).
Proof.
  induction valid as [|image rest IH]; intros files0 acc0 Hacc.
  - exists []. simpl. rewrite app_nil_r. split; [reflexivity|].
    split; [congruence|]. split.
    + intros i seg H. destruct i; discriminate.
    + right. reflexivity.
  - simpl.
    destruct (plannedImageVideo_fields image acc0 rem) as (_ & _ & Hdur).
    remember (plannedImageVideo image acc0 rem) as file eqn:Efile.
    pose proof (fitImageDuration_spec acc0 rem (candidateOf image)
                  (imageCandidate_long _ _) Hacc) as (_ & _ & _ & Hfit).
    rewrite <- Hdur in Hfit.
    destruct (Qle_bool rem (acc0 + seg_duration file)) eqn:Ereach.
    + apply Qle_bool_iff in Ereach. exists [file].
      split; [reflexivity|]. split; [discriminate|]. split.
      * intros i seg H. destruct i as [|[|i]]; try discriminate.
        injection H as <-. exists image, acc0. simpl.
        split; [reflexivity|]. split; [rewrite Qsum_nil; lra|].
        split; [exact Hacc | exact Efile].
      * left. unfold durations. simpl. rewrite Qsum_cons, Qsum_nil. lra.
    + apply Qle_bool_false in Ereach.
      destruct (IH (files0 ++ [file]) (acc0 + seg_duration file) Ereach)
        as (new & Hloop & _ & Hnth & Hsum).
      exists (file :: new). split; [|split; [discriminate | split]].
      * rewrite Hloop, <- app_assoc. reflexivity.
      * intros i seg H. destruct i as [|i].
        -- injection H as <-. exists image, acc0. simpl.
           split; [reflexivity|]. split; [rewrite Qsum_nil; lra|].
           split; [exact Hacc | exact Efile].
        -- simpl in H. apply Hnth in H.
           destruct H as (image' & acc & H1 & H2 & H3 & H4).
           exists image', acc. simpl.
           split; [exact H1|]. split; [rewrite H2, Qsum_cons; lra|].
           split; [exact H3 | exact H4].
      * unfold durations in *. simpl map. rewrite !Qsum_cons.
        destruct Hsum as [Hsum | Hsum]; [left; lra|].
        right. rewrite Hsum, (Hfit Ereach). reflexivity.
Qed.

Lemma filterImages_In : forall downloaded image,
  In image (filterImages downloaded) ->
  In (vi_source image) downloaded /\
  image_dimensions (vi_source image)
  = Some (vi_width image, vi_height image) /\
  (500 <= vi_width image)%Z /\ (500 <= vi_height image)%Z.
Proof.
  induction downloaded as [|img rest IH]; intros image H; [destruct H|].
  simpl in H. destruct (image_dimensions img) as [[w h]|] eqn:Ed.
  - destruct ((500 <=? w) && (500 <=? h))%Z eqn:Esize.
    + destruct H as [<- | H].
      * simpl. apply andb_true_iff in Esize. destruct Esize as [Hw Hh].
        apply Z.leb_le in Hw, Hh. auto.
      * apply IH in H. simpl. tauto.
    + apply IH in H. simpl. tauto.
  - apply IH in H. simpl. tauto.
Qed.

Lemma filterImages_usable : forall urls,
  existsb usableImage urls = true <->
  filterImages (downloadImages urls) <> [].
Proof.
  induction urls as [|img rest IH]; simpl.
  - split; [discriminate | congruence].
  - unfold downloadImages in *. simpl. unfold usableImage at 1.
    destruct (image_download img); simpl.
    + destruct (image_dimensions img) as [[w h]|].
      * destruct ((500 <=? w) && (500 <=? h))%Z; simpl.
        -- split; [discriminate | reflexivity].
        -- exact IH.
      * exact IH.
    + exact IH.
Qed.

(** *** Step 3 *)

Lemma Qsum_firstn_S {A} (f : A -> Q) : forall (l : list A) i x,
  nth_error l i = Some x ->
  Qsum (map f (firstn (S i) l)) == Qsum (map f (firstn i l)) + f x.
Proof.
  induction l as [|y l IH]; intros i x H; [destruct i; discriminate|].
  destruct i as [|i].
  - injection H as <-. simpl. rewrite Qsum_cons, Qsum_nil. lra.
  - simpl in H. change (firstn (S (S i)) (y :: l)) with (y :: firstn (S i) l).
    change (firstn (S i) (y :: l)) with (y :: firstn i l).
    simpl map. rewrite !Qsum_cons, (IH _ _ H). lra.
Qed.

(** Cutting the last append video: it keeps the smaller of its own duration
    and what was left before it. *)
Lemma trimLastAppend_spec rem pre last total :
  total == Qsum (map pv_duration pre) + pv_duration last ->
  Qsum (map pv_duration pre) < rem ->
  exists d,
    trimLastAppend rem (pre ++ [last]) total
    = pre ++ [mkProcessedVideo (pv_source last) d] /\
    d == Qmin (pv_duration last) (rem - Qsum (map pv_duration pre)).
Proof.
  intros Htot Hpre. unfold trimLastAppend.
  rewrite rev_app_distr. simpl rev. simpl app.
  destruct (Qlt_bool rem total) eqn:Eover.
  - apply Qlt_bool_iff in Eover.
    destruct (Qlt_bool 0 (pv_duration last - (total - rem))) eqn:Epos.
    + rewrite rev_involutive. eexists. split; [reflexivity|].
      rewrite Q.min_r; lra.
    + apply Qlt_bool_false in Epos. lra.
  - apply Qlt_bool_false in Eover.
    exists (pv_duration last). split.
    + destruct last; reflexivity.
    + rewrite Q.min_l; lra.
Qed.

(** What step 3 appends when it is not aborted. *)
Lemma appendStage_spec rem apps out :
  0 < rem ->
  appendStage rem apps = Resolved out ->
  exists new,
    map pv_source new = firstn (List.length new) (downloadAppendVideos apps) /\
    Forall (fun p => video_duration (pv_source p) = Some (pv_duration p))
      new /\
    (downloadAppendVideos apps <> [] -> out <> []) /\
    (forall i seg,
        nth_error out i = Some seg ->
        exists p,
          nth_error new i = Some p /\
          seg_kind seg = clip_segment /\
          seg_source seg = FromAppend (pv_source p) /\
          Qsum (firstn i (durations out)) < rem /\
          seg_duration seg
          == Qmin (pv_duration p) (rem - Qsum (firstn i (durations out)))) /\
    (Qsum (durations out) == rem \/
     (Qsum (durations out) < rem /\
      Qsum (durations out) == Qsum (videoCandidates apps))).
Proof.
  intros Hrem H. unfold appendStage in H.
  apply bind_Resolved in H. destruct H as ([pv total] & Hpv & H).
  injection H as <-.
  apply processVideos_spec in Hpv; [|exact Hrem].
  destruct Hpv as (new & Hnew & Htot & Hsrc & Hprobed & Hfull & Hprefix & Hne).
  simpl in Hnew. subst pv. exists new.
  split; [exact Hsrc|]. split; [exact Hprobed|].
  destruct (destruct_list new) as [(x & l & E) | ->].
  2:{ (* nothing was downloaded *)
    assert (Hdl : downloadAppendVideos apps = []).
    { destruct (downloadAppendVideos apps); [reflexivity|].
      exfalso. apply Hne; [discriminate | reflexivity]. }
    simpl. split; [intros Hc; congruence|]. split.
    - intros i seg Hs. destruct i; discriminate.
    - right. rewrite Qsum_nil. split; [exact Hrem|].
      rewrite <- videoCandidates_downloaded.
      unfold downloadAppendVideos in Hdl. rewrite Hdl. reflexivity. }
  assert (Hnn : new <> []) by (rewrite E; discriminate). clear x l E.
  destruct (exists_last Hnn) as (pre & last & ->).
  assert (Hpre : Qsum (map pv_duration pre) < rem).
  { specialize (Hprefix (List.length pre)).
    rewrite length_app in Hprefix. simpl in Hprefix.
    specialize (Hprefix ltac:(lia)).
    rewrite firstn_app, firstn_all, Nat.sub_diag in Hprefix.
    simpl in Hprefix. rewrite app_nil_r in Hprefix. lra. }
  assert (Htot' : total == Qsum (map pv_duration pre) + pv_duration last).
  { rewrite Htot, map_app, Qsum_app. simpl. rewrite Qsum_cons, Qsum_nil. lra. }
  destruct (trimLastAppend_spec rem pre last total Htot' Hpre)
    as (d & -> & Hd).
  set (last' := mkProcessedVideo (pv_source last) d).
  assert (Hdur : durations (map appendSegment (pre ++ [last']))
                 = map pv_duration pre ++ [d]).
  { unfold durations. rewrite map_map, map_app. reflexivity. }
  split; [|split].
  - intros _ Hc. apply map_eq_nil in Hc. destruct pre; discriminate.
  - intros i seg Hs. rewrite Hdur.
    rewrite nth_error_map in Hs.
    destruct (nth_error (pre ++ [last']) i) as [q|] eqn:Eq; [|discriminate].
    injection Hs as <-.
    destruct (Nat.lt_ge_cases i (List.length pre)) as [Hi | Hi].
    + (* a video before the last one: kept whole *)
      rewrite nth_error_app1 in Eq by exact Hi.
      exists q. rewrite nth_error_app1 by exact Hi.
      split; [exact Eq|]. split; [reflexivity|]. split; [reflexivity|].
      assert (Hfirst : firstn i (map pv_duration pre ++ [d])
                       = map pv_duration (firstn i pre)).
      { rewrite firstn_app, length_map.
        replace (i - List.length pre)%nat with 0%nat by lia.
        simpl. rewrite app_nil_r. apply firstn_map. }
      rewrite Hfirst.
      pose proof (Hprefix i) as Hk. pose proof (Hprefix (S i)) as HSk.
      rewrite length_app in Hk, HSk. simpl in Hk, HSk.
      specialize (Hk ltac:(lia)). specialize (HSk ltac:(lia)).
      rewrite (Qsum_firstn_S pv_duration (pre ++ [last]) i q) in HSk
        by (rewrite nth_error_app1; assumption).
      rewrite firstn_app in Hk, HSk.
      replace (i - List.length pre)%nat with 0%nat in Hk, HSk by lia.
      simpl in Hk, HSk. rewrite app_nil_r in Hk, HSk.
      split; [lra|]. simpl. rewrite Q.min_l; lra.
    + (* the last one *)
      assert (Hil : i = List.length pre).
      { assert (i < List.length (pre ++ [last']))%nat
          by (apply nth_error_Some; congruence).
        rewrite length_app in *. simpl in *. lia. }
      subst i. rewrite nth_error_app2, Nat.sub_diag in Eq by lia.
      injection Eq as <-.
      exists last. rewrite nth_error_app2, Nat.sub_diag by lia.
      split; [reflexivity|]. split; [reflexivity|]. split; [reflexivity|].
      assert (Hfirst : firstn (List.length pre) (map pv_duration pre ++ [d])
                       = map pv_duration pre).
      { rewrite <- (length_map pv_duration pre), firstn_app, firstn_all,
          Nat.sub_diag. simpl. apply app_nil_r. }
      rewrite Hfirst. split; [exact Hpre | exact Hd].
  - rewrite Hdur, Qsum_app, Qsum_cons, Qsum_nil.
    destruct (Qlt_le_dec total rem) as [Hshort | Hfilled].
    + right. rewrite Hd, Q.min_l by lra. split; [lra|].
      specialize (Hfull Hshort).
      pose proof (firstn_length_all (downloadAppendVideos apps)
                    (map pv_source (pre ++ [last]))) as Hall.
      rewrite length_map in Hall. specialize (Hall Hsrc Hfull).
      rewrite <- videoCandidates_downloaded.
      fold (downloadAppendVideos apps).
      rewrite <- Hall, videoCandidates_all; [| |exact Hprobed].
      * rewrite map_app, Qsum_app. simpl. rewrite Qsum_cons, Qsum_nil. lra.
      * rewrite Hall. unfold downloadAppendVideos.
        apply forallb_forall. intros v Hv. now apply filter_In in Hv.
    + left. rewrite Hd, Q.min_r by lra. lra.
Qed.

(** *** The handler *)

Lemma imageStagePlan_spec rem imgs :
  0 < rem ->
  (existsb usableImage imgs = true -> imageStagePlan rem imgs <> []) /\
  (existsb usableImage imgs = false -> imageStagePlan rem imgs = []) /\
  (forall i seg,
      nth_error (imageStagePlan rem imgs) i = Some seg ->
      exists image acc,
        nth_error (filterImages (downloadImages imgs)) i = Some image /\
        acc == Qsum (firstn i (durations (imageStagePlan rem imgs))) /\
        acc < rem /\
        seg = plannedImageVideo image acc rem) /\
  (rem <= Qsum (durations (imageStagePlan rem imgs)) \/
   Qsum (durations (imageStagePlan rem imgs)) == Qsum (imageCandidates imgs)).
Proof.
  intros Hrem. unfold imageStagePlan, imageCandidates.
  destruct (imageLoopPlan_spec rem (filterImages (downloadImages imgs)) [] 0 Hrem)
    as (new & -> & Hne & Hnth & Hsum).
  simpl app. split; [|split; [|split]].
  - intros Hu. apply Hne. now apply filterImages_usable.
  - intros Hu. destruct (filterImages (downloadImages imgs)) eqn:E.
    + destruct new as [|seg new]; [reflexivity|].
      destruct (Hnth 0%nat seg eq_refl) as (image & _ & Hc & _). discriminate.
    + assert (Hc : existsb usableImage imgs = true)
        by (apply filterImages_usable; rewrite E; discriminate).
      congruence.
  - intros i seg H. destruct (Hnth i seg H) as (image & acc & H1 & H2 & H3 & H4).
    exists image, acc. split; [exact H1|]. split; [rewrite H2; lra|].
    split; [exact H3 | exact H4].
  - destruct Hsum as [Hsum | Hsum]; [left; lra | right; exact Hsum].
Qed.

(** *** The image loop and its renders *)

Lemma plannedImageVideo_kind image acc rem :
  seg_kind (plannedImageVideo image acc rem) = static_image_segment \/
  seg_kind (plannedImageVideo image acc rem) = scrolling_image_segment.
Proof.
  destruct (plannedImageVideo_fields image acc rem) as (-> & _).
  unfold imageCandidate.
  destruct (VIDEO_HEIGHT <? scaledHeight _ _)%Z; simpl; auto.
Qed.

Lemma imageVideo_Resolved image acc rem file :
  imageVideo image acc rem = Resolved file ->
  file = plannedImageVideo image acc rem /\
  seg_kind file = static_image_segment.
Proof.
  unfold imageVideo, renderImageVideo. intros H.
  destruct (plannedImageVideo_kind image acc rem) as [E | E];
    rewrite E in H; [|discriminate].
  injection H as <-. auto.
Qed.

Lemma imageVideo_static image acc rem :
  seg_kind (plannedImageVideo image acc rem) = static_image_segment ->
  imageVideo image acc rem = Resolved (plannedImageVideo image acc rem).
Proof. unfold imageVideo, renderImageVideo. now intros ->. Qed.

Lemma imageVideo_scroll image acc rem :
  seg_kind (plannedImageVideo image acc rem) = scrolling_image_segment ->
  imageVideo image acc rem = Rejected.
Proof. unfold imageVideo, renderImageVideo. now intros ->. Qed.

(** A loop that is not aborted pushes the planned files, all of them
    stills. *)
Lemma imageLoop_Resolved rem : forall valid files0 acc0 out,
  imageLoop rem valid files0 acc0 = Resolved out ->
  out = imageLoopPlan rem valid files0 acc0 /\
  (Forall (fun seg => seg_kind seg = static_image_segment) files0 ->
   Forall (fun seg => seg_kind seg = static_image_segment) out).
Proof.
  induction valid as [|image rest IH]; intros files0 acc0 out H.
  - simpl in H. injection H as <-. auto.
  - cbn [imageLoop] in H. apply bind_Resolved in H.
    destruct H as (file & Hfile & H).
    apply imageVideo_Resolved in Hfile. destruct Hfile as [-> Hkind].
    cbn [imageLoopPlan]. cbv zeta in *.
    destruct (Qle_bool rem
                (acc0 + seg_duration (plannedImageVideo image acc0 rem))).
    + injection H as <-. split; [reflexivity|].
      intros H0. apply Forall_app. split; [exact H0|]. now constructor.
    + apply IH in H. destruct H as [-> Hstatic].
      split; [reflexivity|]. intros H0. apply Hstatic.
      apply Forall_app. split; [exact H0|]. now constructor.
Qed.

(** Every planned file a still: no render rejects. *)
Lemma imageLoop_stills rem : forall valid files0 acc0,
  Forall (fun image =>
            fst (imageCandidate (vi_width image) (vi_height image))
            = static_image_segment) valid ->
  imageLoop rem valid files0 acc0
  = Resolved (imageLoopPlan rem valid files0 acc0).
Proof.
  induction valid as [|image rest IH]; intros files0 acc0 H; [reflexivity|].
  inversion H as [|? ? Hi Hrest]; subst.
  cbn [imageLoop imageLoopPlan].
  rewrite imageVideo_static
    by (destruct (plannedImageVideo_fields image acc0 rem) as (-> & _);
        exact Hi).
  cbn [bind]. cbv zeta.
  destruct (Qle_bool rem
              (acc0 + seg_duration (plannedImageVideo image acc0 rem)));
    [reflexivity | now apply IH].
Qed.

Lemma imageStage_Resolved rem imgs out :
  imageStage rem imgs = Resolved out ->
  out = imageStagePlan rem imgs /\
  Forall (fun seg => seg_kind seg = static_image_segment) out.
Proof.
  unfold imageStage, imageStagePlan. intros H.
  apply imageLoop_Resolved in H. destruct H as [-> Hs].
  split; [reflexivity | apply Hs; constructor].
Qed.

(** The three steps, taken apart. *)
Lemma assemble_inv target imgs vids apps files :
  assemble target imgs vids apps = Resolved files ->
  exists f1 f2 f3,
    videoStage target vids = Resolved f1 /\
    files = (f1 ++ f2) ++ f3 /\
    f2 = (if Qlt_bool 0 (target - currentDurationOf f1) && negb (isEmpty imgs)
          then imageStagePlan (target - currentDurationOf f1) imgs else []) /\
    (if Qlt_bool 0 (target - Qsum (durations (f1 ++ f2)))
        && negb (isEmpty apps)
     then appendStage (target - Qsum (durations (f1 ++ f2))) apps
     else Resolved []) = Resolved f3.
Proof.
  intros H. unfold assemble in H.
  apply bind_Resolved in H. destruct H as (f1 & Hf1 & H).
  cbv zeta in H. apply bind_Resolved in H. destruct H as (pool & Hpool & H).
  exists f1.
  exists (if Qlt_bool 0 (target - currentDurationOf f1) && negb (isEmpty imgs)
          then imageStagePlan (target - currentDurationOf f1) imgs else []).
  assert (Epool :
    pool = f1 ++ (if Qlt_bool 0 (target - currentDurationOf f1)
                     && negb (isEmpty imgs)
                  then imageStagePlan (target - currentDurationOf f1) imgs
                  else [])).
  { destruct (Qlt_bool 0 (target - currentDurationOf f1)
              && negb (isEmpty imgs)).
    - apply bind_Resolved in Hpool. destruct Hpool as (f2 & Hf2 & Hpool).
      injection Hpool as <-. apply imageStage_Resolved in Hf2.
      now destruct Hf2 as [-> _].
    - injection Hpool as <-. now rewrite app_nil_r. }
  rewrite Epool in H.
  match type of H with
  | (if ?c then _ else _) = _ => destruct c
  end.
  - apply bind_Resolved in H. destruct H as (f3 & Hf3 & H).
    injection H as <-. exists f3. auto.
  - injection H as <-. exists []. rewrite app_nil_r. auto.
Qed.

(** A run that is not aborted rendered stills only. *)
Lemma assemble_rendered target imgs vids apps files :
  assemble target imgs vids apps = Resolved files ->
  exists f1,
    videoStage target vids = Resolved f1 /\
    (Qlt_bool 0 (target - currentDurationOf f1) && negb (isEmpty imgs)
     = true ->
     imageStage (target - currentDurationOf f1) imgs
     = Resolved (imageStagePlan (target - currentDurationOf f1) imgs) /\
     Forall (fun seg => seg_kind seg = static_image_segment)
       (imageStagePlan (target - currentDurationOf f1) imgs)).
Proof.
  intros H. unfold assemble in H.
  apply bind_Resolved in H. destruct H as (f1 & Hf1 & H).
  cbv zeta in H. apply bind_Resolved in H. destruct H as (pool & Hpool & _).
  exists f1. split; [exact Hf1|]. intros Hc. rewrite Hc in Hpool.
  apply bind_Resolved in Hpool. destruct Hpool as (f2 & Hf2 & _).
  destruct (imageStage_Resolved _ _ _ Hf2) as [E Hs].
  rewrite <- E. auto.
Qed.

Lemma isEmpty_true {A} (l : list A) : isEmpty l = true <-> l = [].
Proof. destruct l; simpl; split; congruence. Qed.

(** A run that is validated and not aborted ends in step 4. *)
Lemma generate_cases BASE_URL req :
  0 < targetDuration req ->
  generateVideo916 BASE_URL req <> generation_failed ->
  generateVideo916 BASE_URL req = invalid_request no_inputs_provided /\
    imageUrls req = [] /\ videoUrls req = [] /\ appendVideoUrls req = [] \/
  exists files,
    assemble (targetDuration req)
      (normalizeImages BASE_URL (imageUrls req))
      (normalizeVideos BASE_URL (videoUrls req))
      (normalizeVideos BASE_URL (appendVideoUrls req)) = Resolved files /\
    generateVideo916 BASE_URL req = finish (targetDuration req) files.
Proof.
  intros Htarget Hrun. unfold generateVideo916 in *.
  destruct (Qle_bool (targetDuration req) 0) eqn:Et.
  { apply Qle_bool_iff in Et. lra. }
  destruct (isEmpty (imageUrls req) && isEmpty (videoUrls req)
            && isEmpty (appendVideoUrls req)) eqn:Eempty.
  - left. apply andb_true_iff in Eempty. destruct Eempty as [Eempty E3].
    apply andb_true_iff in Eempty. destruct Eempty as [E1 E2].
    apply isEmpty_true in E1, E2, E3. auto.
  - right. unfold compose in *.
    destruct (assemble _ _ _ _) as [files|]; simpl in *; [|congruence].
    exists files. auto.
Qed.

Lemma finish_spec target files :
  files <> [] ->
  exists a,
    finish target files = success files a (toFixed2 a) /\
    a <= target /\
    a == Qmin (Qsum (durations files)) target.
Proof.
  intros Hne. unfold finish, concatDuration.
  destruct files as [|f files]; [congruence|]. simpl isEmpty. cbv iota zeta.
  destruct (Qlt_bool target (Qsum (durations (f :: files)))) eqn:E.
  - apply Qlt_bool_iff in E. exists target.
    split; [reflexivity|]. split; [lra|]. rewrite Q.min_r; lra.
  - apply Qlt_bool_false in E. exists (Qsum (durations (f :: files))).
    split; [reflexivity|]. split; [lra|]. rewrite Q.min_l; lra.
Qed.

(** [toFixed(2)] adds at most half a hundredth. *)
Lemma toFixed2_upper x : toFixed2 x <= x + (1#200).
Proof.
  unfold toFixed2, mathRound.
  destruct (Qlt_bool x 0).
  - pose proof (Qlt_floor (- x * 100 + (1#2))) as H.
    rewrite inject_Z_plus in H.
    set (r := inject_Z (Qfloor (- x * 100 + (1#2)))) in *.
    change (inject_Z 1) with 1 in H.
    unfold Qdiv. change (/ 100) with (1#100). lra.
  - pose proof (Qfloor_le (x * 100 + (1#2))) as H.
    set (r := inject_Z (Qfloor (x * 100 + (1#2)))) in *.
    unfold Qdiv. change (/ 100) with (1#100). lra.
Qed.

Lemma usableVideo_downloaded : forall apps,
  existsb usableVideo apps = true -> downloadAppendVideos apps <> [].
Proof.
  induction apps as [|v rest IH]; simpl; [discriminate|].
  unfold usableVideo at 1. destruct (video_download v); simpl.
  - discriminate.
  - exact IH.
Qed.

Lemma existsb_false_In {A} (f : A -> bool) (l : list A) (x : A) :
  existsb f l = false -> In x l -> f x = false.
Proof.
  intros H Hin. destruct (f x) eqn:E; [|reflexivity].
  assert (existsb f l = true) by (apply existsb_exists; eauto). congruence.
Qed.

(** What the three steps leave behind when the run is not aborted: some
    file exactly when some source is usable, and either the target is
    reached or everything every usable source could give was taken whole. *)
Lemma assemble_spec target imgs vids apps files :
  0 < target ->
  assemble target imgs vids apps = Resolved files ->
  (existsb usableVideo vids || existsb usableImage imgs
   || existsb usableVideo apps = true -> files <> []) /\
  (existsb usableVideo vids || existsb usableImage imgs
   || existsb usableVideo apps = false -> files = []) /\
  (target <= Qsum (durations files) \/
   Qsum (durations files)
   == Qsum (videoCandidates vids) + Qsum (imageCandidates imgs)
      + Qsum (videoCandidates apps)).
Proof.
  intros Htarget H.
  apply assemble_inv in H. destruct H as (f1 & f2 & f3 & Hv & -> & Hf2 & Hf3).
  pose proof (videoStage_sum _ _ _ Htarget Hv)
    as (Hcur & Hle1 & Hcand1 & Hne1 & _).
  set (rem2 := target - currentDurationOf f1) in *.
  set (rem3 := target - Qsum (durations (f1 ++ f2))) in *.
  assert (Hrem3 : rem3 == target - Qsum (durations f1) - Qsum (durations f2)).
  { subst rem3. rewrite durations_app, Qsum_app. lra. }
  (* what the image step contributes *)
  assert (Himg :
    (existsb usableImage imgs = true -> f1 = [] -> f2 <> []) /\
    (existsb usableImage imgs = false -> f2 = []) /\
    (target <= Qsum (durations f1) + Qsum (durations f2) \/
     Qsum (durations f2) == Qsum (imageCandidates imgs))).
  { destruct (Qlt_bool 0 rem2) eqn:E2; simpl in Hf2.
    - apply Qlt_bool_iff in E2.
      destruct (imageStagePlan_spec rem2 imgs E2) as (Hu & Hnu & _ & Hsum).
      destruct imgs as [|img imgs'].
      + simpl in Hf2. subst f2. split; [discriminate|].
        split; [reflexivity|]. right. reflexivity.
      + simpl in Hf2. subst f2. split; [auto|]. split; [exact Hnu|].
        destruct Hsum as [Hsum | Hsum]; [left | right; exact Hsum].
        subst rem2. lra.
    - apply Qlt_bool_false in E2. subst f2.
      split; [|split].
      + intros _ ->. subst rem2. simpl in E2. lra.
      + reflexivity.
      + left. rewrite Qsum_nil. subst rem2. lra. }
  destruct Himg as (Hu2 & Hnu2 & Hsum2).
  (* what the append step contributes *)
  assert (Happ :
    (existsb usableVideo apps = true -> f1 ++ f2 = [] -> f3 <> []) /\
    (existsb usableVideo apps = false -> f3 = []) /\
    (target <= Qsum (durations f1) + Qsum (durations f2)
               + Qsum (durations f3) \/
     Qsum (durations f3) == Qsum (videoCandidates apps))).
  { destruct (Qlt_bool 0 rem3) eqn:E3; simpl in Hf3.
    - apply Qlt_bool_iff in E3.
      destruct apps as [|app apps'].
      + simpl in Hf3. injection Hf3 as <-. split; [discriminate|].
        split; [reflexivity|]. right. reflexivity.
      + simpl in Hf3.
        destruct (appendStage_spec rem3 _ _ E3 Hf3)
          as (new & Hsrc & Hprobed & Hne & Hnth & Hsum).
        split; [|split].
        * intros Hu _. apply Hne. now apply usableVideo_downloaded.
        * intros Hnu. destruct f3 as [|seg f3']; [reflexivity|]. exfalso.
          destruct (Hnth 0%nat seg eq_refl) as (p & Hp & _).
          destruct new as [|p' new']; [discriminate|].
          injection Hp as ->.
          inversion Hprobed as [|? ? Hpd _]; subst.
          destruct (downloadAppendVideos (app :: apps')) as [|v dl] eqn:Edl;
            [discriminate|].
          simpl in Hsrc. injection Hsrc as Hpv _.
          assert (Hin : In v (downloadAppendVideos (app :: apps')))
            by (rewrite Edl; left; reflexivity).
          unfold downloadAppendVideos in Hin. apply filter_In in Hin.
          destruct Hin as [Hin Hd].
          pose proof (existsb_false_In _ _ _ Hnu Hin) as Hc.
          unfold usableVideo in Hc. rewrite Hd, <- Hpv, Hpd in Hc.
          discriminate.
        * destruct Hsum as [Hsum | [_ Hsum]]; [left | right; exact Hsum].
          lra.
    - apply Qlt_bool_false in E3. injection Hf3 as <-.
      split; [|split].
      + intros _ Hc. apply app_eq_nil in Hc. destruct Hc as [Hc1 Hc2].
        rewrite Hc1, Hc2 in Hrem3.
        change (Qsum (durations [])) with 0 in Hrem3. lra.
      + reflexivity.
      + left. rewrite Qsum_nil. lra. }
  destruct Happ as (Hu3 & Hnu3 & Hsum3).
  split; [|split].
  - intros Hu Hc. apply app_eq_nil in Hc. destruct Hc as [Hc12 Hc3].
    pose proof Hc12 as Hc12'. apply app_eq_nil in Hc12'.
    destruct Hc12' as [Hc1 Hc2].
    apply orb_true_iff in Hu. destruct Hu as [Hu | Hu].
    + apply orb_true_iff in Hu. destruct Hu as [Hu | Hu].
      * apply Hne1; [|exact Hc1]. intros ->. discriminate.
      * now apply (Hu2 Hu Hc1).
    + now apply (Hu3 Hu Hc12).
  - intros Hnu. apply orb_false_iff in Hnu. destruct Hnu as [Hnu Hnu3'].
    apply orb_false_iff in Hnu. destruct Hnu as [Hnu1' Hnu2'].
    rewrite (Hnu2 Hnu2'), (Hnu3 Hnu3'), !app_nil_r.
    destruct vids as [|v vids'].
    + simpl in Hv. now injection Hv as <-.
    + pose proof (videoStage_head_usable _ _ _ _ Htarget Hv) as Hc.
      simpl in Hnu1'. rewrite Hc in Hnu1'. discriminate.
  - rewrite !durations_app, !Qsum_app.
    destruct Hsum3 as [Hsum3 | Hsum3]; [left; lra|].
    destruct Hsum2 as [Hsum2 | Hsum2].
    + left. assert (Hf3nil : 0 <= Qsum (durations f3)).
      { destruct (Qlt_bool 0 rem3) eqn:E3; simpl in Hf3.
        - apply Qlt_bool_iff in E3. lra.
        - injection Hf3 as <-. change (Qsum (durations [])) with 0. lra. }
      lra.
    + destruct (Qlt_le_dec (Qsum (durations f1)) target) as [Hlt | Hge].
      * right. rewrite (Hcand1 Hlt), Hsum2, Hsum3. reflexivity.
      * left. assert (Hf2nil : f2 = []).
        { subst f2. destruct (Qlt_bool 0 rem2) eqn:E2; [|reflexivity].
          apply Qlt_bool_iff in E2. subst rem2. lra. }
        assert (Hf3nil : f3 = []).
        { destruct (Qlt_bool 0 rem3) eqn:E3; simpl in Hf3.
          - apply Qlt_bool_iff in E3. rewrite Hf2nil in Hrem3.
            change (Qsum (durations [])) with 0 in Hrem3. lra.
          - now injection Hf3 as <-. }
        rewrite Hf2nil, Hf3nil. change (Qsum (durations [])) with 0. lra.
Qed.


(** *** Runs that are not aborted *)

Lemma processVideos_resolves (budget : Q) : forall files acc total,
  forallb (fun v => isSome (video_duration v)) files = true ->
  exists r, processVideos budget files acc total = Resolved r.
Proof.
  induction files as [|v rest IH]; intros acc total Hall; simpl.
  - eauto.
  - simpl in Hall. apply andb_true_iff in Hall. destruct Hall as [Hv Hrest].
    destruct (video_duration v) as [d|]; [|discriminate].
    destruct (Qle_bool budget (total + d)); [eauto | apply IH; exact Hrest].
Qed.

(** The only awaits that can reject are the downloads of [videoUrls] and
    the probes of downloaded videos: when the former all resolve and every
    downloaded video probes, the call does not end in [generation_failed]. *)
Lemma no_rejection_no_abort BASE_URL req :
  forallb usableVideo (normalizeVideos BASE_URL (videoUrls req)) = true ->
  existsb scrollingImage (normalizeImages BASE_URL (imageUrls req)) = false ->
  forallb (fun v => negb (video_download v) || isSome (video_duration v))
    (normalizeVideos BASE_URL (appendVideoUrls req)) = true ->
  generateVideo916 BASE_URL req <> generation_failed.
Proof.
  intros Hvids Himgs Happs. unfold generateVideo916.
  destruct (Qle_bool (targetDuration req) 0); [discriminate|].
  destruct (isEmpty (imageUrls req) && isEmpty (videoUrls req)
            && isEmpty (appendVideoUrls req)); [discriminate|].
  set (vids := normalizeVideos BASE_URL (videoUrls req)) in *.
  set (imgs := normalizeImages BASE_URL (imageUrls req)) in *.
  set (apps := normalizeVideos BASE_URL (appendVideoUrls req)) in *.
  assert (Hstage1 : exists f1,
            videoStage (targetDuration req) vids = Resolved f1).
  { unfold videoStage. destruct vids as [|v rest] eqn:E; [eauto|].
    rewrite <- E in *.
    assert (Hdl : downloadVideos vids = Resolved vids).
    { clear E. induction vids as [|u us IHus]; [reflexivity|].
      simpl in Hvids. apply andb_true_iff in Hvids.
      destruct Hvids as [Hu Hus]. unfold usableVideo in Hu.
      apply andb_true_iff in Hu. destruct Hu as [Hu _].
      simpl. now rewrite Hu, (IHus Hus). }
    rewrite Hdl. simpl.
    destruct (processVideos_resolves (targetDuration req) vids [] 0)
      as ([pv total] & ->).
    { apply forallb_forall. intros u Hu.
      rewrite forallb_forall in Hvids. specialize (Hvids u Hu).
      unfold usableVideo in Hvids. now apply andb_true_iff in Hvids. }
    simpl. destruct pv; [eauto|].
    destruct (Qlt_bool _ _); eauto. }
  assert (Hstage2 : forall rem, exists f2, imageStage rem imgs = Resolved f2).
  { intros rem. unfold imageStage. rewrite imageLoop_stills; [eauto|].
    apply Forall_forall. intros image Hin.
    destruct (filterImages_In _ _ Hin) as (Hsrc & Hdim & Hw & Hh).
    unfold downloadImages in Hsrc. apply filter_In in Hsrc.
    destruct Hsrc as [Hsrc Hdl].
    pose proof (existsb_false_In _ _ _ Himgs Hsrc) as Hns.
    unfold scrollingImage, usableImage in Hns. rewrite Hdl, Hdim in Hns.
    apply Z.leb_le in Hw, Hh. rewrite Hw, Hh in Hns. simpl in Hns.
    unfold imageCandidate. now rewrite Hns. }
  assert (Hstage3 : forall rem, exists f3, appendStage rem apps = Resolved f3).
  { intros rem. unfold appendStage.
    destruct (processVideos_resolves rem (downloadAppendVideos apps) [] 0)
      as ([pv total] & ->); [|simpl; eauto].
    apply forallb_forall. intros u Hu.
    unfold downloadAppendVideos in Hu. apply filter_In in Hu.
    destruct Hu as [Hin Hd].
    rewrite forallb_forall in Happs. specialize (Happs u Hin).
    now rewrite Hd in Happs. }
  unfold compose, assemble.
  destruct Hstage1 as (f1 & ->). cbn [bind]. cbv zeta.
  match goal with
  | |- context [if ?c then bind (imageStage ?rem imgs) _ else _] =>
      destruct c; [destruct (Hstage2 rem) as (f2 & ->)|]
  end; cbn [bind];
    match goal with
    | |- context [if ?c then bind (appendStage ?rem apps) _ else _] =>
        destruct c; [destruct (Hstage3 rem) as (f3 & ->)|]
    end; cbn [bind]; unfold finish;
    match goal with
    | |- context [if isEmpty ?l then _ else _] => destruct (isEmpty l)
    end; discriminate.
Qed.

(** *** Sources whose failure is caught *)

Lemma normalizeImages_filter BASE_URL : forall urls,
  normalizeImages BASE_URL (filter imageAnswers urls)
  = filter imageAnswers (normalizeImages BASE_URL urls).
Proof.
  unfold normalizeImages.
  induction urls as [|img rest IH]; [reflexivity|].
  simpl. destruct (imageAnswers img) eqn:E; simpl;
    destruct (truthy (normalizeUrl BASE_URL (image_url img))); simpl;
    unfold imageAnswers at 2 in |- *; simpl;
    unfold imageAnswers in E; rewrite ?E; rewrite IH; reflexivity.
Qed.

Lemma normalizeVideos_filter BASE_URL : forall urls,
  normalizeVideos BASE_URL (filter video_download urls)
  = filter video_download (normalizeVideos BASE_URL urls).
Proof.
  unfold normalizeVideos.
  induction urls as [|v rest IH]; [reflexivity|].
  simpl. destruct (video_download v) eqn:E; simpl;
    destruct (truthy (normalizeUrl BASE_URL (video_url v))); simpl;
    rewrite ?E; rewrite IH; reflexivity.
Qed.

Lemma filterImages_skip : forall urls,
  filterImages (downloadImages (filter imageAnswers urls))
  = filterImages (downloadImages urls).
Proof.
  unfold downloadImages.
  induction urls as [|img rest IH]; [reflexivity|].
  simpl. unfold imageAnswers at 1.
  destruct (image_download img) eqn:Ed; simpl.
  - destruct (image_dimensions img) as [[w h]|] eqn:Edim; simpl.
    + rewrite Ed. simpl. rewrite Edim, IH. reflexivity.
    + exact IH.
  - exact IH.
Qed.

Lemma imageStage_skip rem urls :
  imageStage rem (filter imageAnswers urls) = imageStage rem urls.
Proof. unfold imageStage. now rewrite filterImages_skip. Qed.

Lemma filter_idem {A} (f : A -> bool) : forall l,
  filter f (filter f l) = filter f l.
Proof.
  induction l as [|x l IH]; [reflexivity|].
  simpl. destruct (f x) eqn:E; simpl; rewrite ?E, IH; reflexivity.
Qed.

Lemma appendStage_skip rem urls :
  appendStage rem (filter video_download urls) = appendStage rem urls.
Proof.
  unfold appendStage, downloadAppendVideos. now rewrite filter_idem.
Qed.

Lemma assemble_skip target imgs vids apps :
  assemble target (filter imageAnswers imgs) vids (filter video_download apps)
  = assemble target imgs vids apps.
Proof.
  assert (Hpool2 : forall (c : bool) f1 rem l,
    (if c && negb (isEmpty l)
     then imageVideoFiles <- imageStage rem l ;;
          Resolved (f1 ++ imageVideoFiles)
     else Resolved f1)
    = (if c
       then imageVideoFiles <- imageStage rem l ;;
            Resolved (f1 ++ imageVideoFiles)
       else Resolved f1)).
  { intros c f1 rem l. destruct c, l; simpl; try reflexivity.
    now rewrite app_nil_r. }
  assert (Hpool3 : forall (c : bool) files rem l,
    (if c && negb (isEmpty l)
     then appended <- appendStage rem l ;; Resolved (files ++ appended)
     else Resolved files)
    = (if c
       then appended <- appendStage rem l ;; Resolved (files ++ appended)
       else Resolved files)).
  { intros c files rem l. destruct c, l; simpl; try reflexivity.
    unfold appendStage. simpl. now rewrite app_nil_r. }
  unfold assemble. destruct (videoStage target vids) as [f1|]; simpl;
    [|reflexivity].
  rewrite !Hpool2, imageStage_skip.
  match goal with
  | |- bind ?c _ = bind ?c _ => destruct c as [pool|]; simpl; [|reflexivity]
  end.
  rewrite !Hpool3, appendStage_skip. reflexivity.
Qed.

Lemma downloadVideos_fail : forall urls v,
  In v urls -> video_download v = false -> downloadVideos urls = Rejected.
Proof.
  induction urls as [|u rest IH]; intros v Hin Hv; [destruct Hin|].
  simpl. destruct Hin as [-> | Hin].
  - now rewrite Hv.
  - destruct (video_download u); [|reflexivity].
    now rewrite (IH _ Hin Hv).
Qed.

End VideoFacts.

Module VideoSpec.
Import Video VideoFacts.




(** C4, as stated, fails: a request whose only source is a video that
    cannot be downloaded has no usable source, yet the answer is
    [generation_failed], not one of the no-sources answers. *)
Lemma unreachable_clip_is_not_no_sources :
  let req :=
    mkRequest 10 [] [mkVideoSource "http://cdn/gone.mp4" false None] [] in
  hasUsableSource EmptyString req = false /\
  generateVideo916 EmptyString req = generation_failed /\
  ~ noSourcesAvailable (generateVideo916 EmptyString req).
Proof.
  split; [reflexivity|]. split; [reflexivity|].
  intros [H | H]; vm_compute in H; discriminate.
Qed.

(** C4, amended.  For a request with a positive target whose run is not
    aborted by a rejected await: the answer is a no-sources answer exactly
    when no pool holds a usable source; and when some source is usable the
    answer is [success] with a non-empty timeline, returned as it is (no
    error) also when it falls short of the target. *)
Theorem no_sources_iff_nothing_usable (BASE_URL : string) (req : Request) :
  0 < targetDuration req ->
  generateVideo916 BASE_URL req <> generation_failed ->
  (noSourcesAvailable (generateVideo916 BASE_URL req)
   <-> hasUsableSource BASE_URL req = false) /\
  (hasUsableSource BASE_URL req = true ->
   exists timeline actualDuration duration,
     generateVideo916 BASE_URL req = success timeline actualDuration duration /\
     timeline <> [] /\
     (Qsum (durations timeline) <= targetDuration req ->
      actualDuration == Qsum (durations timeline))).
Proof.
  intros Htarget Hrun.
  destruct (generate_cases _ _ Htarget Hrun)
    as [(E & E1 & E2 & E3) | (files & Hfiles & E)].
  - assert (Hnone : hasUsableSource BASE_URL req = false).
    { unfold hasUsableSource. now rewrite E1, E2, E3. }
    split.
    + split; [intros _; exact Hnone | intros _; left; exact E].
    + intros Hc. congruence.
  - destruct (assemble_spec _ _ _ _ _ Htarget Hfiles) as (Hne & Hnil & _).
    fold (hasUsableSource BASE_URL req) in Hne, Hnil.
    destruct (hasUsableSource BASE_URL req) eqn:Eu.
    + destruct (finish_spec (targetDuration req) files (Hne eq_refl))
        as (a & Hfin & _ & Hmin).
      rewrite E, Hfin. split.
      * split; [|discriminate]. intros [Hc | Hc]; discriminate.
      * intros _. exists files, a, (toFixed2 a).
        split; [reflexivity|]. split; [exact (Hne eq_refl)|].
        intros Hshort. rewrite Hmin. apply Q.min_l. exact Hshort.
    + rewrite E, (Hnil eq_refl). split; [|discriminate].
      split; [reflexivity | intros _; right; reflexivity].
Qed.

Lemma no_sources_iff_nothing_usable_witness :
  let req :=
    mkRequest 10 []
      [mkVideoSource "http://cdn/a.mp4" true (Some 4)]
      [mkVideoSource "http://cdn/gone.mp4" false None] in
  (noSourcesAvailable (generateVideo916 EmptyString req)
   <-> hasUsableSource EmptyString req = false) /\
  exists timeline actualDuration duration,
    generateVideo916 EmptyString req
    = success timeline actualDuration duration /\
    timeline <> [] /\
    (Qsum (durations timeline) <= 10 ->
     actualDuration == Qsum (durations timeline)).
Proof.
  destruct (no_sources_iff_nothing_usable EmptyString
              (mkRequest 10 []
                 [mkVideoSource "http://cdn/a.mp4" true (Some 4)]
                 [mkVideoSource "http://cdn/gone.mp4" false None])
              ltac:(reflexivity) ltac:(vm_compute; discriminate))
    as [Hiff Hpartial].
  split; [exact Hiff | exact (Hpartial eq_refl)].
Defined.

(** C5, as stated, fails: one video of [videoUrls] that cannot be
    downloaded ends the whole call with [generation_failed], although the
    request also holds a good image from which, alone, a video is made. *)
Lemma unreachable_clip_aborts_allocation :
  let good := mkImageSource "http://cdn/ok.png" true (Some (1000, 1000)%Z) in
  let bad := mkVideoSource "http://cdn/gone.mp4" false None in
  generateVideo916 EmptyString (mkRequest 10 [good] [bad] [])
  = generation_failed /\
  exists timeline actualDuration duration,
    generateVideo916 EmptyString (mkRequest 10 [good] [] [])
    = success timeline actualDuration duration.
Proof.
  split; [reflexivity|]. do 3 eexists. reflexivity.
Qed.

(** C5, amended.  In the image pool a source whose download or probe fails,
    and in the append pool a source whose download fails, is skipped: the
    answer is the one the request gets without these sources (up to which of
    the two no-sources answers is given when nothing else was supplied).  In
    the video pool a failed download is not skipped: it ends the call with
    [generation_failed]. *)
Theorem caught_failures_are_skipped (BASE_URL : string) (req : Request) :
  (generateVideo916 BASE_URL req
   = generateVideo916 BASE_URL (withoutSoftFailures req) \/
   (generateVideo916 BASE_URL req = no_video_generated /\
    generateVideo916 BASE_URL (withoutSoftFailures req)
    = invalid_request no_inputs_provided)) /\
  (0 < targetDuration req ->
   (exists v,
       In v (normalizeVideos BASE_URL (videoUrls req)) /\
       video_download v = false) ->
   generateVideo916 BASE_URL req = generation_failed).
Proof.
  split.
  - unfold generateVideo916, withoutSoftFailures. simpl.
    destruct (Qle_bool (targetDuration req) 0); [left; reflexivity|].
    unfold compose.
    rewrite normalizeImages_filter, normalizeVideos_filter, assemble_skip.
    destruct (isEmpty (imageUrls req) && isEmpty (videoUrls req)
              && isEmpty (appendVideoUrls req)) eqn:Eraw.
    + left. apply andb_true_iff in Eraw. destruct Eraw as [Eraw E3].
      apply andb_true_iff in Eraw. destruct Eraw as [E1 E2].
      apply isEmpty_true in E1, E2, E3. rewrite E1, E2, E3. reflexivity.
    + destruct (isEmpty (filter imageAnswers (imageUrls req))
                && isEmpty (videoUrls req)
                && isEmpty (filter video_download (appendVideoUrls req)))
        eqn:Eleft; [|left; reflexivity].
      right. split; [|reflexivity].
      apply andb_true_iff in Eleft. destruct Eleft as [Eleft E3].
      apply andb_true_iff in Eleft. destruct Eleft as [E1 E2].
      apply isEmpty_true in E1, E2, E3.
      rewrite <- assemble_skip.
      rewrite <- normalizeImages_filter, <- normalizeVideos_filter.
      rewrite E1, E2, E3. unfold assemble. simpl.
      rewrite !andb_false_r. simpl. rewrite ?andb_false_r. reflexivity.
  - intros Htarget (v & Hin & Hv). unfold generateVideo916.
    destruct (Qle_bool (targetDuration req) 0) eqn:Et.
    { apply Qle_bool_iff in Et. lra. }
    assert (Hraw : isEmpty (videoUrls req) = false).
    { destruct (videoUrls req); [destruct Hin | reflexivity]. }
    rewrite Hraw, andb_false_r. simpl.
    unfold compose, assemble, videoStage.
    destruct (normalizeVideos BASE_URL (videoUrls req)) as [|v0 vs] eqn:Evs;
      [destruct Hin|].
    rewrite (downloadVideos_fail _ _ Hin Hv). reflexivity.
Qed.

Lemma caught_failures_are_skipped_witness :
  let req :=
    mkRequest 10
      [mkImageSource "http://cdn/ok.png" true (Some (1000, 1000)%Z)]
      [mkVideoSource "http://cdn/gone.mp4" false None]
      [] in
  generateVideo916 EmptyString req = generation_failed.
Proof.
  apply (proj2 (caught_failures_are_skipped EmptyString
                  (mkRequest 10
                     [mkImageSource "http://cdn/ok.png" true
                        (Some (1000, 1000)%Z)]
                     [mkVideoSource "http://cdn/gone.mp4" false None]
                     []))).
  - reflexivity.
  - eexists. split; [left; reflexivity | reflexivity].
Defined.

(** C6, as stated, fails: asked for 0.5 s with one still image (candidate
    5 s), the handler does not cut the image to [min(5, 0.5)]; the file made
    for it lasts 1 s, more than what remained. *)
Lemma short_budget_image_exceeds_remaining :
  let image := mkImageSource "http://cdn/ok.png" true (Some (1000, 1000)%Z) in
  exists timeline actualDuration duration seg,
    generateVideo916 EmptyString (mkRequest (1#2) [image] [] [])
    = success timeline actualDuration duration /\
    timeline = [seg] /\
    imageCandidate 1000 1000 = (static_image_segment, 5) /\
    ~ (seg_duration seg == Qmin 5 (1#2)) /\
    ~ (seg_duration seg <= 1#2).
Proof.
  do 4 eexists. split; [reflexivity|]. split; [reflexivity|].
  split; [reflexivity|].
  split; vm_compute; intros H; [discriminate H | apply H; reflexivity].
Qed.

(** C6, amended.  With [remaining > 0] left for a pool, and [left] what is
    still unfilled when a source is reached:
    - video pool: the one file it leaves never lasts more than [remaining];
    - image pool: the file made for an image lasts
      [max(1, min(candidate, left))], so it is never longer than its
      candidate, never shorter than 1 s, and equal to [min(candidate, left)]
      as soon as [left >= 1];
    - append pool: the file kept for a video lasts [min(candidate, left)],
      never more than its probed duration, and is positive when that is.
    Each pool is taken when its awaits resolve. *)
Theorem pool_durations_are_clamped (remaining : Q) :
  0 < remaining ->
  (forall vids files seg,
      videoStage remaining vids = Resolved files ->
      In seg files ->
      seg_duration seg <= remaining) /\
  (forall imgs files i seg,
      imageStage remaining imgs = Resolved files ->
      nth_error files i = Some seg ->
      exists image,
        nth_error (filterImages (downloadImages imgs)) i = Some image /\
        let left := remaining - Qsum (firstn i (durations files)) in
        0 < left /\
        seg_duration seg == Qmax 1 (Qmin (candidateOf image) left) /\
        seg_duration seg <= candidateOf image /\
        1 <= seg_duration seg /\
        (1 <= left -> seg_duration seg == Qmin (candidateOf image) left)) /\
  (forall apps out i seg,
      appendStage remaining apps = Resolved out ->
      nth_error out i = Some seg ->
      exists v d,
        nth_error (downloadAppendVideos apps) i = Some v /\
        video_duration v = Some d /\
        let left := remaining - Qsum (firstn i (durations out)) in
        0 < left /\
        seg_duration seg == Qmin d left /\
        seg_duration seg <= d /\
        (0 < d -> 0 < seg_duration seg)).
Proof.
  intros Hrem. split; [|split].
  - intros vids files seg Hv Hin.
    apply videoStage_spec in Hv; [|exact Hrem].
    destruct Hv as [_ [[_ ->] | (new & d & _ & _ & -> & _ & _ & Hle & _)]];
      [destruct Hin|].
    destruct Hin as [<- | []]. exact Hle.
  - intros imgs files i seg Hfiles H.
    destruct (imageStage_Resolved _ _ _ Hfiles) as [-> _].
    destruct (imageStagePlan_spec remaining imgs Hrem) as (_ & _ & Hnth & _).
    destruct (Hnth i seg H) as (image & acc & Him & Hacc & Hlt & ->).
    exists image. split; [exact Him|]. cbv zeta.
    destruct (plannedImageVideo_fields image acc remaining) as (_ & _ & ->).
    destruct (fitImageDuration_spec acc remaining (candidateOf image)
                (imageCandidate_long _ _) Hlt) as (Hshape & Hle & Hge & _).
    rewrite <- Hacc.
    split; [lra|]. split; [exact Hshape|]. split; [exact Hle|].
    split; [exact Hge|].
    intros Hleft. rewrite Hshape. apply Q.max_r.
    apply Q.min_glb; [|exact Hleft].
    pose proof (imageCandidate_long (vi_width image) (vi_height image)).
    unfold candidateOf. lra.
  - intros apps out i seg Hout H.
    destruct (appendStage_spec remaining apps out Hrem Hout)
      as (new & Hsrc & Hprobed & _ & Hnth & _).
    destruct (Hnth i seg H) as (p & Hp & _ & _ & Hleft & Hdur).
    exists (pv_source p), (pv_duration p).
    split; [|split; [|cbv zeta; split; [lra | split; [exact Hdur | split]]]].
    + assert (Hi : (i < List.length new)%nat)
        by (apply nth_error_Some; congruence).
      pose proof (map_nth_error pv_source _ _ Hp) as Hmp.
      rewrite Hsrc, nth_error_firstn in Hmp.
      destruct (Nat.ltb_spec i (List.length new)); [exact Hmp | lia].
    + apply nth_error_In in Hp.
      rewrite Forall_forall in Hprobed. exact (Hprobed _ Hp).
    + rewrite Hdur. apply Q.le_min_l.
    + intros Hd. rewrite Hdur. apply Q.min_glb_lt; lra.
Qed.

Lemma pool_durations_are_clamped_witness :
  let imgs := [mkImageSource "http://cdn/ok.png" true (Some (1000, 1000)%Z);
               mkImageSource "http://cdn/wide.png" true (Some (1000, 600)%Z)] in
  exists files seg image,
    imageStage 7 imgs = Resolved files /\
    nth_error files 1 = Some seg /\
    nth_error (filterImages (downloadImages imgs)) 1 = Some image /\
    seg_duration seg
    == Qmin (candidateOf image) (7 - Qsum (firstn 1 (durations files))).
Proof.
  destruct (pool_durations_are_clamped 7 ltac:(reflexivity)) as (_ & Himg & _).
  do 2 eexists.
  destruct (Himg [mkImageSource "http://cdn/ok.png" true (Some (1000, 1000)%Z);
                  mkImageSource "http://cdn/wide.png" true
                    (Some (1000, 600)%Z)] _ 1%nat _ eq_refl eq_refl)
    as (image & Him & _ & _ & _ & _ & Hmin).
  exists image. split; [reflexivity|]. split; [reflexivity|].
  split; [exact Him|].
  apply Hmin. vm_compute. discriminate.
Defined.

(** C7 fails in the code on an image that is higher than the frame once
    scaled.  An image of 1000 x 2000 px downloads and is probed; scaled to
    the frame width it is 2160 px high, so the handler takes the scrolling
    branch, with a duration of [max(3, 240 / 100) = 3] s before it is fitted
    to the budget.  The command of that branch is refused by the media
    processor, nothing catches the rejection, and the call ends with
    [generation_failed]: no scrolling segment is made. *)
Lemma scrolling_image_ends_the_call :
  let tall := mkImageSource "http://cdn/tall.png" true (Some (1000, 2000)%Z) in
  scaledHeight 1000 2000 = 2160%Z /\
  fst (imageCandidate 1000 2000) = scrolling_image_segment /\
  snd (imageCandidate 1000 2000) == Qmax 3 (inject_Z (2160 - 1920) / 100) /\
  snd (imageCandidate 1000 2000) == 3 /\
  generateVideo916 EmptyString (mkRequest 10 [tall] [] [])
  = generation_failed.
Proof.
  repeat split; reflexivity.
Qed.


End VideoSpec.

(** ** Subtitle fragments, subtitle track and SRT text *)

Module SrtFacts.
Import Subtitle SubtitleFacts Srt.

(** *** White space at the ends of a string *)

Lemma trimStart_decomp : forall s,
  exists ws, s = ws ++ trimStart s /\ forallb isWhiteSpace ws = true.
Proof.
  induction s as [|c s [ws [E Hws]]]; simpl.
  - exists []. split; reflexivity.
  - destruct (isWhiteSpace c) eqn:Ec.
    + exists (c :: ws). simpl. rewrite Ec, Hws. split; [now f_equal | reflexivity].
    + exists []. split; reflexivity.
Qed.

Lemma forallb_rev {A} (f : A -> bool) (l : list A) :
  forallb f (rev l) = forallb f l.
Proof.
  induction l as [|x l IH]; simpl; [reflexivity|].
  rewrite forallb_app, IH. simpl. rewrite andb_true_r. apply andb_comm.
Qed.

(** [trim] removes a run of white space at each end and nothing else. *)
Lemma trim_decomp (s : jsstring) :
  exists before after,
    s = before ++ trim s ++ after /\
    forallb isWhiteSpace before = true /\
    forallb isWhiteSpace after = true.
Proof.
  destruct (trimStart_decomp s) as [ws1 [E1 H1]].
  destruct (trimStart_decomp (rev (trimStart s))) as [ws2 [E2 H2]].
  exists ws1, (rev ws2). unfold trim. repeat split.
  - rewrite <- rev_app_distr, <- E2, rev_involutive. exact E1.
  - exact H1.
  - now rewrite forallb_rev.
Qed.

Lemma trimStart_head (s : jsstring) c rest :
  trimStart s = c :: rest -> isWhiteSpace c = false.
Proof.
  induction s as [|x s IH]; simpl; [discriminate|].
  destruct (isWhiteSpace x) eqn:Ex; [exact IH|].
  intros E. injection E as <- _. exact Ex.
Qed.

Lemma trimStart_fixed (s : jsstring) :
  match s with [] => True | c :: _ => isWhiteSpace c = false end ->
  trimStart s = s.
Proof. destruct s as [|c s]; simpl; [reflexivity|]. now intros ->. Qed.

Lemma last_app_ne {A} (d : A) : forall l1 l2,
  l2 <> [] -> last (l1 ++ l2) d = last l2 d.
Proof.
  induction l1 as [|x l1 IH]; intros l2 H; simpl; [reflexivity|].
  rewrite IH by exact H.
  destruct (l1 ++ l2) eqn:E; [|reflexivity].
  apply app_eq_nil in E. tauto.
Qed.

Lemma trimStart_last (s : jsstring) c rest :
  trimStart s = c :: rest -> last s 0%N = last (c :: rest) 0%N.
Proof.
  intros E. destruct (trimStart_decomp s) as [ws [Es _]]. rewrite E in Es.
  rewrite Es at 1. apply last_app_ne. discriminate.
Qed.

(** A trimmed string is not changed by trimming again. *)
Lemma trim_trim (s : jsstring) : trim (trim s) = trim s.
Proof.
  unfold trim.
  destruct (trimStart (rev (trimStart s))) as [|c rest] eqn:E;
    [reflexivity|].
  assert (Hc : isWhiteSpace c = false) by exact (trimStart_head _ _ _ E).
  assert (Hl : last (rev (trimStart s)) 0%N = last (c :: rest) 0%N)
    by exact (trimStart_last _ _ _ E).
  assert (Hne : trimStart s <> []) by (intros En; rewrite En in E; discriminate).
  destruct (trimStart s) as [|d u] eqn:Es; [congruence|].
  assert (Hd : isWhiteSpace d = false) by exact (trimStart_head _ _ _ Es).
  simpl rev in Hl. rewrite last_last in Hl.
  assert (Hfix1 : trimStart (rev (c :: rest)) = rev (c :: rest)).
  { apply trimStart_fixed.
    destruct (rev (c :: rest)) as [|h t] eqn:Er.
    - trivial.
    - assert (Eh : last (c :: rest) 0%N = h).
      { rewrite <- (rev_involutive (c :: rest)), Er. simpl. apply last_last. }
      congruence. }
  rewrite Hfix1, rev_involutive.
  simpl. now rewrite Hc.
Qed.

Lemma trim_length (s : jsstring) : (List.length (trim s) <= List.length s)%nat.
Proof.
  destruct (trim_decomp s) as [a [b [E _]]]. rewrite E at 2.
  rewrite !length_app. lia.
Qed.

(** *** The ink of a string *)

Lemma ink_app (s1 s2 : jsstring) : ink (s1 ++ s2) = ink s1 ++ ink s2.
Proof. apply filter_app. Qed.

Lemma ink_whitespace : forall ws,
  forallb isWhiteSpace ws = true -> ink ws = [].
Proof.
  induction ws as [|c ws IH]; simpl; [reflexivity|].
  intros H. apply andb_true_iff in H as [Hc Hws]. rewrite Hc. simpl. auto.
Qed.

Lemma ink_trim (s : jsstring) : ink (trim s) = ink s.
Proof.
  destruct (trim_decomp s) as [a [b [E [Ha Hb]]]]. rewrite E at 2.
  rewrite !ink_app, (ink_whitespace _ Ha), (ink_whitespace _ Hb).
  now rewrite app_nil_r.
Qed.

Lemma ink_nil_iff (s : jsstring) : ink s = [] <-> hasInk s = false.
Proof.
  induction s as [|c s IH]; simpl; [tauto|].
  destruct (isWhiteSpace c); simpl; [exact IH|]. split; discriminate.
Qed.


Lemma charCount_ink (s : jsstring) : charCount (ink s) = charCount s.
Proof.
  unfold charCount, ink, punctuationRegex.
  induction s as [|c s IH]; simpl; [reflexivity|].
  destruct (isWhiteSpace c) eqn:Ew; simpl.
  - rewrite orb_true_r. simpl. exact IH.
  - rewrite Ew, orb_false_r.
    destruct (isPunctuation c); simpl; now rewrite IH.
Qed.

Lemma charCount_app (s1 s2 : jsstring) :
  charCount (s1 ++ s2) = (charCount s1 + charCount s2)%nat.
Proof. unfold charCount. now rewrite filter_app, length_app. Qed.

Lemma fold_charCount : forall segments acc,
  fold_left (fun sum seg => (sum + charCount seg)%nat) segments acc
  = (acc + charCount (List.concat segments))%nat.
Proof.
  induction segments as [|seg rest IH]; intros acc; simpl.
  - unfold charCount. simpl. lia.
  - rewrite IH, charCount_app. lia.
Qed.

Lemma totalChars_concat (segments : list jsstring) :
  totalChars segments = charCount (List.concat segments).
Proof. unfold totalChars. now rewrite fold_charCount. Qed.

(** *** What [split] returns *)

Lemma concat_split : forall chars run,
  List.concat (split chars run) = run ++ chars.
Proof.
  induction chars as [|c chars IH]; intros run; simpl.
  - now rewrite app_nil_r.
  - destruct (isPunctuation c); simpl.
    + now rewrite IH.
    + now rewrite IH, <- app_assoc.
Qed.

Lemma split_parts : forall chars run,
  existsb isPunctuation run = false ->
  Forall isPart (split chars run).
Proof.
  induction chars as [|c chars IH]; intros run Hrun; simpl.
  - constructor; [now left | constructor].
  - destruct (isPunctuation c) eqn:Ec.
    + constructor; [now left|].
      constructor; [right; now exists c|].
      now apply IH.
    + apply IH. rewrite existsb_app, Hrun. simpl. now rewrite Ec.
Qed.

(** *** Splitting keeps the ink *)

Lemma ink_cons (c : N) (s : jsstring) : ink (c :: s) = ink [c] ++ ink s.
Proof. exact (ink_app [c] s). Qed.

Lemma forceSplit_ink : forall words temp segments,
  ink (List.concat (fst (forceSplit words temp segments)))
  ++ ink (snd (forceSplit words temp segments))
  = ink (List.concat segments) ++ ink temp ++ ink words.
Proof.
  induction words as [|word rest IH]; intros temp segments;
    cbn [forceSplit].
  - simpl. now rewrite app_nil_r.
  - rewrite (ink_cons word rest).
    destruct (50 <=? List.length (temp ++ [word]))%nat; rewrite IH.
    + rewrite concat_app, !ink_app. cbn [List.concat].
      rewrite app_nil_r, ink_trim, ink_app.
      change (ink []) with (@nil N). simpl app.
      now rewrite <- !app_assoc.
    + rewrite !ink_app. now rewrite <- !app_assoc.
Qed.

Lemma addPart_ink (state : list jsstring * jsstring) (part : jsstring) :
  ink (List.concat (fst (addPart state part))) ++ ink (snd (addPart state part))
  = (ink (List.concat (fst state)) ++ ink (snd state)) ++ ink part.
Proof.
  destruct state as [segments cur]. unfold addPart.
  destruct part as [|p0 p]; [simpl; now rewrite app_nil_r|].
  cbn [isEmptyString].
  destruct (existsb isPunctuation (p0 :: p)).
  - destruct (isEmptyString (trim (cur ++ p0 :: p))); cbn [fst snd].
    + now rewrite ink_app, app_assoc.
    + rewrite concat_app, ink_app. cbn [List.concat].
      rewrite (app_nil_r (trim _)), ink_trim, ink_app.
      change (ink []) with (@nil N). now rewrite app_nil_r, !app_assoc.
  - destruct (50 <? List.length (cur ++ p0 :: p))%nat.
    + rewrite forceSplit_ink. change (ink []) with (@nil N).
      simpl app. now rewrite ink_app, !app_assoc.
    + cbn [fst snd]. now rewrite ink_app, !app_assoc.
Qed.

Lemma fold_addPart_ink : forall parts state,
  ink (List.concat (fst (fold_left addPart parts state)))
  ++ ink (snd (fold_left addPart parts state))
  = (ink (List.concat (fst state)) ++ ink (snd state)) ++ ink (List.concat parts).
Proof.
  induction parts as [|part rest IH]; intros state; simpl.
  - now rewrite app_nil_r.
  - now rewrite IH, addPart_ink, ink_app, !app_assoc.
Qed.

Lemma concat_filter_nonempty : forall segments : list jsstring,
  List.concat (filter (fun seg => negb (isEmptyString seg)) segments)
  = List.concat segments.
Proof.
  induction segments as [|seg rest IH]; simpl; [reflexivity|].
  destruct seg as [|c seg]; simpl; now rewrite IH.
Qed.

Lemma splitTextByPunctuation_ink (chars : jsstring) :
  ink (List.concat (splitTextByPunctuation chars)) = ink chars.
Proof.
  unfold splitTextByPunctuation.
  destruct (isEmptyString (trim chars)) eqn:Eblank.
  - apply trim_empty_iff in Eblank. apply ink_nil_iff in Eblank.
    now rewrite Eblank.
  - pose proof (fold_addPart_ink (split chars []) ([], [])) as H.
    destruct (fold_left addPart (split chars []) ([], []))
      as [segments cur].
    cbn [fst snd] in H. rewrite concat_split in H. simpl in H.
    rewrite concat_filter_nonempty.
    destruct (isEmptyString (trim cur)) eqn:Ecur.
    + apply trim_empty_iff in Ecur. apply ink_nil_iff in Ecur.
      rewrite Ecur, app_nil_r in H. exact H.
    + rewrite concat_app, ink_app. cbn [List.concat].
      now rewrite app_nil_r, ink_trim.
Qed.


(** *** The shape of a fragment *)

Lemma trim_prefix (s : jsstring) :
  exists after, trimStart s = trim s ++ after.
Proof.
  destruct (trimStart_decomp (rev (trimStart s))) as [ws [E _]].
  exists (rev ws). unfold trim.
  now rewrite <- rev_app_distr, <- E, rev_involutive.
Qed.

Lemma trimStart_snoc (u : jsstring) (c : N) :
  trimStart (u ++ [c]) = [] \/ trimStart (u ++ [c]) = trimStart u ++ [c].
Proof.
  induction u as [|x u IH]; simpl.
  - destruct (isWhiteSpace c); [now left | now right].
  - destruct (isWhiteSpace x); [exact IH | now right].
Qed.

Lemma trimStart_app (u v : jsstring) :
  trimStart (u ++ v) = trimStart v \/
  trimStart (u ++ v) = trimStart u ++ v.
Proof.
  induction u as [|x u IH]; simpl.
  - now left.
  - destruct (isWhiteSpace x); [exact IH | now right].
Qed.

Lemma existsb_trimStart (f : N -> bool) (s : jsstring) :
  existsb f s = false -> existsb f (trimStart s) = false.
Proof.
  intros H. destruct (trimStart_decomp s) as [ws [E _]].
  rewrite E, existsb_app in H. now apply orb_false_iff in H.
Qed.

Lemma existsb_removelast {A} (f : A -> bool) : forall l,
  existsb f l = false -> existsb f (removelast l) = false.
Proof.
  induction l as [|x l IH]; [reflexivity|].
  intros H. simpl in H. apply orb_false_iff in H as [Hx Hl].
  destruct l as [|y l]; [reflexivity|].
  change (removelast (x :: y :: l)) with (x :: removelast (y :: l)).
  simpl existsb at 1. rewrite Hx. simpl. now apply IH.
Qed.

Lemma clean_app_l (u v : jsstring) : clean (u ++ v) -> clean u.
Proof.
  unfold clean. intros H.
  destruct (trimStart u) as [|c rest] eqn:Eu; [reflexivity|].
  assert (E : trimStart (u ++ v) = trimStart u ++ v).
  { clear H. induction u as [|x u IH]; simpl in *; [discriminate|].
    destruct (isWhiteSpace x); [now apply IH | reflexivity]. }
  rewrite E, Eu, existsb_app in H. now apply orb_false_iff in H.
Qed.

Lemma clean_app_r (u v : jsstring) : clean (u ++ v) -> clean v.
Proof.
  unfold clean. intros H.
  destruct (trimStart_app u v) as [E|E]; rewrite E in H; [exact H|].
  rewrite existsb_app in H. apply orb_false_iff in H as [_ H].
  now apply existsb_trimStart.
Qed.

Lemma clean_run (u v : jsstring) :
  clean u -> existsb isPunctuation v = false -> clean (u ++ v).
Proof.
  unfold clean. intros Hu Hv.
  destruct (trimStart_app u v) as [E|E]; rewrite E.
  - now apply existsb_trimStart.
  - now rewrite existsb_app, Hu, Hv.
Qed.

Lemma clean_trim (u : jsstring) :
  clean u -> existsb isPunctuation (trim u) = false.
Proof.
  unfold clean. intros H. destruct (trim_prefix u) as [after E].
  rewrite E, existsb_app in H. now apply orb_false_iff in H.
Qed.

Lemma shaped_trim_clean (u : jsstring) :
  clean u -> (List.length u <= 50)%nat -> shaped (trim u).
Proof.
  intros Hc Hl. split; [apply trim_trim|]. split.
  - apply existsb_removelast. now apply clean_trim.
  - pose proof (trim_length u). lia.
Qed.

Lemma trim_length_start (u : jsstring) :
  (List.length (trim u) <= List.length (trimStart u))%nat.
Proof.
  destruct (trim_prefix u) as [after E]. rewrite E, length_app. lia.
Qed.

Lemma shaped_trim_mark (u : jsstring) (c : N) :
  clean u -> (List.length (trimStart u) <= 50)%nat ->
  shaped (trim (u ++ [c])).
Proof.
  intros Hc Hl. split; [apply trim_trim|].
  destruct (trim_prefix (u ++ [c])) as [after E].
  destruct (trimStart_snoc u c) as [E0|E1].
  - rewrite E0 in E. symmetry in E. apply app_eq_nil in E as [-> _].
    split; [reflexivity | simpl; lia].
  - rewrite E1 in E. unfold clean in Hc.
    destruct after as [|a after] using rev_ind.
    + rewrite app_nil_r in E. rewrite <- E, removelast_last.
      split; [exact Hc|]. rewrite length_app. simpl. lia.
    + clear IHafter. rewrite app_assoc in E.
      apply app_inj_tail in E as [E _].
      assert (Hp : existsb isPunctuation (trim (u ++ [c])) = false).
      { rewrite E, existsb_app in Hc. now apply orb_false_iff in Hc. }
      split; [now apply existsb_removelast|].
      apply (f_equal (@List.length N)) in E. rewrite length_app in E. lia.
Qed.

Lemma forceSplit_shaped : forall words temp segments,
  Forall shaped segments ->
  clean (temp ++ words) ->
  (List.length temp < 50)%nat ->
  Forall shaped (fst (forceSplit words temp segments)) /\
  clean (snd (forceSplit words temp segments)) /\
  (List.length (snd (forceSplit words temp segments)) < 50)%nat.
Proof.
  induction words as [|word rest IH]; intros temp segments Hs Hc Hl;
    cbn [forceSplit].
  - rewrite app_nil_r in Hc. simpl. auto.
  - assert (Hc' : clean ((temp ++ [word]) ++ rest))
      by now rewrite <- app_assoc.
    destruct (50 <=? List.length (temp ++ [word]))%nat eqn:E.
    + apply IH.
      * apply Forall_app. split; [exact Hs|]. constructor; [|constructor].
        apply shaped_trim_clean; [now apply clean_app_l in Hc'|].
        rewrite length_app. simpl. lia.
      * simpl. now apply clean_app_r in Hc'.
      * simpl. lia.
    + apply IH; [exact Hs | exact Hc' |].
      apply Nat.leb_gt in E. exact E.
Qed.

Lemma trimStart_length (u : jsstring) :
  (List.length (trimStart u) <= List.length u)%nat.
Proof.
  destruct (trimStart_decomp u) as [ws [E _]]. rewrite E at 2.
  rewrite length_app. lia.
Qed.

Lemma addPart_invariant (state : list jsstring * jsstring)
    (part : jsstring) :
  splitInvariant state -> isPart part -> splitInvariant (addPart state part).
Proof.
  destruct state as [segments cur]. intros [Hs [Hc Hl]] Hpart.
  cbn [fst snd] in Hs, Hc, Hl. unfold addPart.
  destruct (isEmptyString part) eqn:Eempty; [now repeat split|].
  destruct (existsb isPunctuation part) eqn:Ep.
  - destruct Hpart as [Hno | [c [-> Hcp]]]; [congruence|].
    destruct (isEmptyString (trim (cur ++ [c]))) eqn:Et.
    + apply trim_empty_iff in Et. apply trimStart_nil_iff in Et.
      split; [exact Hs|]. cbn [snd]. unfold clean. rewrite Et.
      split; [reflexivity | simpl; lia].
    + split; cbn [fst snd].
      * apply Forall_app. split; [exact Hs|]. constructor; [|constructor].
        now apply shaped_trim_mark.
      * split; [reflexivity | simpl; lia].
  - assert (Hc' : clean (cur ++ part)) by now apply clean_run.
    destruct (50 <? List.length (cur ++ part))%nat eqn:El.
    + destruct (forceSplit_shaped (cur ++ part) [] segments Hs Hc')
        as [H1 [H2 H3]]; [simpl; lia|].
      split; [exact H1|]. split; [exact H2|].
      pose proof (trimStart_length (snd (forceSplit (cur ++ part) [] segments))).
      lia.
    + apply Nat.ltb_ge in El. split; [exact Hs|]. split; [exact Hc'|].
      cbn [snd]. pose proof (trimStart_length (cur ++ part)). lia.
Qed.

Lemma fold_addPart_invariant : forall parts state,
  splitInvariant state -> Forall isPart parts ->
  splitInvariant (fold_left addPart parts state).
Proof.
  induction parts as [|part rest IH]; intros state Hi Hp; simpl.
  - exact Hi.
  - inversion Hp; subst. apply IH; [now apply addPart_invariant | assumption].
Qed.

Lemma Forall_filter {A} (P : A -> Prop) (f : A -> bool) (l : list A) :
  Forall P l -> Forall P (filter f l).
Proof.
  intros H. apply Forall_forall. intros x Hx.
  apply filter_In in Hx as [Hx _].
  now apply (proj1 (Forall_forall P l) H).
Qed.

Lemma splitTextByPunctuation_shaped (chars : jsstring) :
  Forall shaped (splitTextByPunctuation chars).
Proof.
  unfold splitTextByPunctuation.
  destruct (isEmptyString (trim chars)); [constructor|].
  assert (H : splitInvariant (fold_left addPart (split chars []) ([], []))).
  { apply fold_addPart_invariant.
    - split; [constructor|]. split; [reflexivity | simpl; lia].
    - now apply split_parts. }
  destruct (fold_left addPart (split chars []) ([], []))
    as [segments cur].
  destruct H as [Hs [Hc Hl]]. cbn [fst snd] in Hs, Hc, Hl.
  apply Forall_filter.
  destruct (isEmptyString (trim cur)); [exact Hs|].
  apply Forall_app. split; [exact Hs|]. constructor; [|constructor].
  split; [apply trim_trim|]. split.
  - apply existsb_removelast. now apply clean_trim.
  - pose proof (trim_length_start cur). lia.
Qed.

(** A trimmed string does not end in white space. *)
Lemma trimmed_last (seg : jsstring) :
  trim seg = seg -> seg <> [] -> isWhiteSpace (last seg 0%N) = false.
Proof.
  intros Ht Hne. unfold trim in Ht.
  destruct (trimStart (rev (trimStart seg))) as [|c rest] eqn:E.
  - simpl in Ht. congruence.
  - apply trimStart_head in E. rewrite <- Ht. simpl. now rewrite last_last.
Qed.

Lemma shaped_no_line_feed (seg : jsstring) :
  shaped seg -> ~ In 10%N seg.
Proof.
  intros [Ht [Hp _]] Hin.
  destruct seg as [|c seg] using rev_ind; [contradiction|]. clear IHseg.
  rewrite removelast_last in Hp.
  apply in_app_or in Hin as [Hin | [-> | []]].
  - assert (E : existsb isPunctuation seg = true).
    { apply existsb_exists. exists 10%N. split; [exact Hin | reflexivity]. }
    congruence.
  - apply trimmed_last in Ht; [|now destruct seg].
    rewrite last_last in Ht. discriminate.
Qed.

End SrtFacts.

Module TrackFacts.
Import Subtitle SubtitleFacts Srt SrtFacts.

(** *** Fragments that tile a span of time *)

Lemma tiles_app : forall l1 l2 a b c,
  tiles a l1 b -> tiles b l2 c -> tiles a (l1 ++ l2) c.
Proof.
  induction l1 as [|f l1 IH]; simpl; intros l2 a b c H1 H2.
  - now subst b.
  - destruct H1 as [Hs H1]. split; [exact Hs | now apply (IH _ _ b)].
Qed.

Lemma assign_tiles n scale t : forall items i c r,
  items <> [] ->
  tiles c (setLastEndTime (assign n scale i items c r) t) t.
Proof.
  induction items as [|[seg ideal] rest IH]; intros i c r Hne;
    [congruence|].
  destruct rest as [|[seg2 ideal2] rest].
  - simpl. split; reflexivity.
  - cbn [assign]. cbn [assign] in IH.
    cbn [setLastEndTime]. cbn [tiles]. split; [reflexivity|].
    cbn [endTime]. apply IH. discriminate.
Qed.

(** In the main branch the fragments tile the block. *)
Lemma calculate_tiles segs D s :
  totalChars segs <> 0%nat ->
  tiles s (calculateSubtitleTimings segs D s) (s + D).
Proof.
  intros Hw. rewrite (calculate_main _ _ _ Hw).
  apply assign_tiles.
  destruct segs as [|seg rest]; [now rewrite totalChars_nil in Hw|].
  unfold idealDurations. simpl. discriminate.
Qed.

(** *** The texts of the fragments *)

Lemma evenSplit_texts sd s : forall segs idx,
  map text (evenSplit sd s idx segs) = segs.
Proof.
  induction segs as [|seg rest IH]; intros idx; simpl;
    [reflexivity | now rewrite IH].
Qed.

Lemma assign_texts n scale : forall items i c r,
  map text (assign n scale i items c r) = map fst items.
Proof.
  induction items as [|[seg ideal] rest IH]; intros i c r; simpl;
    [reflexivity | now rewrite IH].
Qed.

Lemma setLastEndTime_texts t : forall l,
  map text (setLastEndTime l t) = map text l.
Proof.
  induction l as [|f [|g rest] IH]; [reflexivity | reflexivity |].
  change (setLastEndTime (f :: g :: rest) t)
    with (f :: setLastEndTime (g :: rest) t).
  rewrite !(map_cons text f). now rewrite IH.
Qed.

Lemma map_fst_combine {A B} : forall (l1 : list A) (l2 : list B),
  List.length l1 = List.length l2 -> map fst (combine l1 l2) = l1.
Proof.
  induction l1 as [|x l1 IH]; intros [|y l2] H; simpl in *;
    try reflexivity; try discriminate.
  f_equal. apply IH. lia.
Qed.

Lemma calculate_texts segs D s :
  map text (calculateSubtitleTimings segs D s) = segs.
Proof.
  destruct segs as [|seg rest]; [reflexivity|].
  destruct (totalChars (seg :: rest) =? 0)%nat eqn:Etc.
  - unfold calculateSubtitleTimings. rewrite Etc. apply evenSplit_texts.
  - apply Nat.eqb_neq in Etc. rewrite (calculate_main _ _ _ Etc).
    rewrite setLastEndTime_texts, assign_texts.
    apply map_fst_combine. now rewrite idealDurations_length.
Qed.

(** *** The subtitles of one audio file *)

Lemma hasInk_trim (s : jsstring) : hasInk (trim s) = hasInk s.
Proof.
  destruct (hasInk s) eqn:E.
  - destruct (hasInk (trim s)) eqn:Et; [reflexivity|].
    apply ink_nil_iff in Et. rewrite ink_trim in Et.
    apply ink_nil_iff in Et. congruence.
  - apply ink_nil_iff. rewrite ink_trim. now apply ink_nil_iff.
Qed.

Lemma blockSubtitles_blank txt d t :
  hasInk txt = false -> blockSubtitles txt d t = [].
Proof.
  intros H. unfold blockSubtitles.
  apply trim_empty_iff in H. rewrite H. simpl.
  now rewrite andb_false_r.
Qed.

Lemma blockSubtitles_inked txt d t :
  hasInk txt = true ->
  splitTextByPunctuation (trim txt) <> [] /\
  blockSubtitles txt d t
  = calculateSubtitleTimings (splitTextByPunctuation (trim txt)) d t.
Proof.
  intros H.
  assert (Hne : splitTextByPunctuation (trim txt) <> []).
  { apply (proj1 (splitTextByPunctuation_nonempty (trim txt))).
    now rewrite hasInk_trim. }
  split; [exact Hne|]. unfold blockSubtitles.
  assert (E1 : isEmptyString txt = false) by (destruct txt; [discriminate | reflexivity]).
  assert (E2 : isEmptyString (trim txt) = false).
  { destruct (isEmptyString (trim txt)) eqn:E; [|reflexivity].
    apply trim_empty_iff in E. congruence. }
  rewrite E1, E2. simpl.
  destruct (splitTextByPunctuation (trim txt)); [congruence | reflexivity].
Qed.

(** A text with a counted character shows something, and its fragments
    weigh what it weighs. *)
Lemma charCount_hasInk (txt : jsstring) :
  (0 < charCount txt)%nat -> hasInk txt = true.
Proof.
  intros H. destruct (hasInk txt) eqn:E; [reflexivity|].
  apply ink_nil_iff in E. rewrite <- charCount_ink, E in H.
  vm_compute in H. lia.
Qed.

Lemma totalChars_split_trim (txt : jsstring) :
  totalChars (splitTextByPunctuation (trim txt)) = charCount txt.
Proof.
  rewrite totalChars_concat, <- charCount_ink, splitTextByPunctuation_ink.
  rewrite ink_trim. apply charCount_ink.
Qed.

Lemma blockSubtitles_tiles txt d t :
  (0 < charCount txt)%nat -> tiles t (blockSubtitles txt d t) (t + d).
Proof.
  intros H.
  destruct (blockSubtitles_inked txt d t (charCount_hasInk _ H)) as [_ ->].
  apply calculate_tiles. rewrite totalChars_split_trim. lia.
Qed.

(** A text of punctuation only: equal shares. *)
Lemma blockSubtitles_marks txt d t :
  hasInk txt = true -> charCount txt = 0%nat ->
  blockSubtitles txt d t
  = evenSplit (d / Qnat (List.length (splitTextByPunctuation (trim txt))))
      t 0 (splitTextByPunctuation (trim txt)).
Proof.
  intros Hink Hc. destruct (blockSubtitles_inked txt d t Hink) as [Hne ->].
  pose proof (totalChars_split_trim txt) as Ht. rewrite Hc in Ht.
  unfold calculateSubtitleTimings.
  destruct (splitTextByPunctuation (trim txt)) as [|seg rest];
    [congruence|].
  now rewrite Ht.
Qed.

Lemma blockSubtitles_texts txt d t :
  map text (blockSubtitles txt d t) = splitTextByPunctuation (trim txt).
Proof.
  destruct (hasInk txt) eqn:H.
  - destruct (blockSubtitles_inked txt d t H) as [_ ->].
    apply calculate_texts.
  - rewrite (blockSubtitles_blank _ _ _ H). simpl.
    unfold splitTextByPunctuation.
    rewrite trim_trim. apply trim_empty_iff in H. now rewrite H.
Qed.

(** *** The loop over the audio files *)

Lemma audioSubtitles_acc : forall audios t subtitles,
  audioSubtitles audios t subtitles
  = subtitles ++ audioSubtitles audios t [].
Proof.
  induction audios as [|[txt d] rest IH]; intros t subtitles; simpl.
  - now rewrite app_nil_r.
  - rewrite IH. rewrite (IH _ (blockSubtitles txt d t)).
    now rewrite app_assoc.
Qed.

Lemma audioSubtitles_app : forall audios1 audios2 t,
  audioSubtitles (audios1 ++ audios2) t []
  = audioSubtitles audios1 t []
    ++ audioSubtitles audios2 (clockAfter t (map snd audios1)) [].
Proof.
  induction audios1 as [|[txt d] rest IH]; intros audios2 t.
  - reflexivity.
  - simpl. rewrite (audioSubtitles_acc (rest ++ audios2)), IH.
    rewrite (audioSubtitles_acc rest _ (blockSubtitles txt d t)).
    now rewrite <- !app_assoc.
Qed.

Lemma audioSubtitles_tiles : forall audios t,
  Forall (fun a => (0 < charCount (fst a))%nat) audios ->
  tiles t (audioSubtitles audios t []) (clockAfter t (map snd audios)).
Proof.
  induction audios as [|[txt d] rest IH]; intros t H.
  - reflexivity.
  - inversion H as [|? ? Hx Hrest]; subst. simpl in Hx.
    simpl audioSubtitles. rewrite audioSubtitles_acc.
    apply (tiles_app _ _ _ (t + d)).
    + now apply blockSubtitles_tiles.
    + simpl. now apply IH.
Qed.

Lemma audioSubtitles_texts : forall audios t,
  map text (audioSubtitles audios t [])
  = flat_map (fun a => splitTextByPunctuation (trim (fst a))) audios.
Proof.
  induction audios as [|[txt d] rest IH]; intros t; [reflexivity|].
  simpl audioSubtitles. rewrite audioSubtitles_acc, map_app, IH.
  now rewrite blockSubtitles_texts.
Qed.


Lemma buildSubtitles_texts introTxt introDuration audios :
  map text (buildSubtitles introTxt introDuration audios)
  = splitTextByPunctuation (trim introTxt)
    ++ flat_map (fun a => splitTextByPunctuation (trim (fst a))) audios.
Proof.
  unfold buildSubtitles.
  now rewrite audioSubtitles_acc, map_app, blockSubtitles_texts,
    audioSubtitles_texts.
Qed.

Lemma buildSubtitles_no_line_feed introTxt introDuration audios :
  Forall (fun f => ~ In 10%N (text f))
    (buildSubtitles introTxt introDuration audios).
Proof.
  apply Forall_forall. intros f Hf.
  apply (in_map text) in Hf. rewrite buildSubtitles_texts in Hf.
  apply shaped_no_line_feed.
  apply in_app_or in Hf as [Hf | Hf].
  - exact (proj1 (Forall_forall _ _)
             (splitTextByPunctuation_shaped (trim introTxt)) _ Hf).
  - apply in_flat_map in Hf as (a & _ & Hf).
    exact (proj1 (Forall_forall _ _)
             (splitTextByPunctuation_shaped (trim (fst a))) _ Hf).
Qed.

End TrackFacts.

Module TimeFacts.
Import Subtitle Srt.

(** *** The fields of a timestamp *)

Lemma Qfloor_unique (x : Q) (z : Z) :
  inject_Z z <= x -> x < inject_Z (z + 1) -> Qfloor x = z.
Proof.
  intros H1 H2.
  pose proof (Qfloor_le x) as H3. pose proof (Qlt_floor x) as H4.
  assert (z < Qfloor x + 1)%Z by (rewrite Zlt_Qlt; lra).
  assert (Qfloor x < z + 1)%Z by (rewrite Zlt_Qlt; lra).
  lia.
Qed.

Lemma floor_div_bounds (x m : Q) :
  0 < m ->
  m * inject_Z (Qfloor (x / m)) <= x /\
  x < m * inject_Z (Qfloor (x / m)) + m.
Proof.
  intros Hm.
  pose proof (Qfloor_le (x / m)) as H1.
  pose proof (Qlt_floor (x / m)) as H2.
  rewrite inject_Z_plus in H2. change (inject_Z 1) with 1 in H2.
  assert (E : x == m * (x / m)) by (field; lra).
  revert H1 H2 E. generalize (x / m), (inject_Z (Qfloor (x / m))).
  intros q f H1 H2 E. rewrite E. nra.
Qed.

Lemma jsTrunc_nonneg (x : Q) : 0 <= x -> jsTrunc x = Qfloor x.
Proof.
  intros H. unfold jsTrunc.
  destruct (Qlt_bool x 0) eqn:E; [|reflexivity].
  apply Qlt_bool_iff in E. lra.
Qed.

Lemma div_nonneg (x m : Q) : 0 <= x -> 0 < m -> 0 <= x / m.
Proof.
  intros Hx Hm. apply Qle_shift_div_l; [exact Hm | lra].
Qed.

(** For non-negative [x], [x % m] is [x] less the whole multiples of [m]. *)
Lemma jsRemainder_nonneg (x m : Q) :
  0 <= x -> 0 < m ->
  jsRemainder x m == x - m * inject_Z (Qfloor (x / m)) /\
  0 <= jsRemainder x m /\ jsRemainder x m < m.
Proof.
  intros Hx Hm. unfold jsRemainder.
  rewrite (jsTrunc_nonneg _ (div_nonneg _ _ Hx Hm)).
  destruct (floor_div_bounds x m Hm) as [H1 H2].
  split; [reflexivity | split; lra].
Qed.

Ltac inj :=
  repeat (rewrite inject_Z_plus || rewrite inject_Z_mult);
  change (inject_Z (-1)) with (-1 # 1) in *;
  change (inject_Z 1) with 1 in *;
  change (inject_Z 60) with 60 in *;
  change (inject_Z 3600) with 3600 in *;
  change (inject_Z 1000) with 1000 in *.

Lemma srt_fields (seconds : Q) :
  0 <= seconds ->
  (0 <= hoursOf seconds)%Z /\
  (0 <= minutesOf seconds < 60)%Z /\
  (0 <= secsOf seconds < 60)%Z /\
  (0 <= millisecondsOf seconds < 1000)%Z /\
  (1000 * (3600 * hoursOf seconds + 60 * minutesOf seconds
           + secsOf seconds)
   + millisecondsOf seconds = Qfloor (1000 * seconds))%Z.
Proof.
  intros Hx. unfold hoursOf, minutesOf, secsOf, millisecondsOf.
  destruct (jsRemainder_nonneg seconds 3600 Hx ltac:(lra)) as [E1 [L1 U1]].
  destruct (jsRemainder_nonneg seconds 60 Hx ltac:(lra)) as [E2 [L2 U2]].
  destruct (jsRemainder_nonneg seconds 1 Hx ltac:(lra)) as [E3 [L3 U3]].
  destruct (floor_div_bounds seconds 3600 ltac:(lra)) as [HL HU].
  destruct (floor_div_bounds (jsRemainder seconds 3600) 60 ltac:(lra))
    as [ML MU].
  destruct (floor_div_bounds seconds 60 ltac:(lra)) as [KL KU].
  pose proof (Qfloor_le (jsRemainder seconds 60)) as SL.
  pose proof (Qlt_floor (jsRemainder seconds 60)) as SU.
  pose proof (Qfloor_le (jsRemainder seconds 1 * 1000)) as FL.
  pose proof (Qlt_floor (jsRemainder seconds 1 * 1000)) as FU.
  rewrite inject_Z_plus in SU, FU. change (inject_Z 1) with 1 in SU, FU.
  remember (Qfloor (seconds / 3600)) as h eqn:Eh.
  remember (Qfloor (jsRemainder seconds 3600 / 60)) as m eqn:Em.
  remember (Qfloor (seconds / 60)) as k eqn:Ek.
  remember (Qfloor (jsRemainder seconds 60)) as s eqn:Es.
  remember (Qfloor (seconds / 1)) as w eqn:Ew.
  remember (Qfloor (jsRemainder seconds 1 * 1000)) as f eqn:Ef.
  assert (Hh : (-1 < h)%Z) by (rewrite Zlt_Qlt; inj; lra).
  assert (Hm1 : (-1 < m)%Z) by (rewrite Zlt_Qlt; inj; lra).
  assert (Hm2 : (m < 60)%Z) by (rewrite Zlt_Qlt; inj; lra).
  assert (Hs1 : (-1 < s)%Z) by (rewrite Zlt_Qlt; inj; lra).
  assert (Hs2 : (s < 60)%Z) by (rewrite Zlt_Qlt; inj; lra).
  assert (Hf1 : (-1 < f)%Z) by (rewrite Zlt_Qlt; inj; lra).
  assert (Hf2 : (f < 1000)%Z) by (rewrite Zlt_Qlt; inj; lra).
  assert (Hk : k = (60 * h + m)%Z).
  { rewrite Ek. apply Qfloor_unique.
    - inj. apply Qle_shift_div_l; lra.
    - inj. apply Qlt_shift_div_r; lra. }
  assert (Hw : w = (3600 * h + 60 * m + s)%Z).
  { rewrite Ew. apply Qfloor_unique.
    - inj. apply Qle_shift_div_l; [lra|].
      assert (Ik : inject_Z k == 60 * inject_Z h + inject_Z m).
      { rewrite Hk. inj. reflexivity. }
      lra.
    - inj. apply Qlt_shift_div_r; [lra|].
      assert (Ik : inject_Z k == 60 * inject_Z h + inject_Z m).
      { rewrite Hk. inj. reflexivity. }
      lra. }
  repeat split; try lia.
  symmetry. apply Qfloor_unique.
  - inj.
    assert (Iw : inject_Z w
                 == 3600 * inject_Z h + 60 * inject_Z m + inject_Z s).
    { rewrite Hw. inj. reflexivity. }
    lra.
  - inj.
    assert (Iw : inject_Z w
                 == 3600 * inject_Z h + 60 * inject_Z m + inject_Z s).
    { rewrite Hw. inj. reflexivity. }
    lra.
Qed.

(** Hours, minutes and seconds make the whole seconds of the time. *)
Lemma srt_whole_seconds (seconds : Q) :
  0 <= seconds ->
  (3600 * hoursOf seconds + 60 * minutesOf seconds + secsOf seconds
   = Qfloor seconds)%Z.
Proof.
  intros Hx. destruct (srt_fields seconds Hx) as (_ & _ & _ & Hf & E).
  pose proof (Qfloor_le (1000 * seconds)) as FL.
  pose proof (Qlt_floor (1000 * seconds)) as FU.
  rewrite <- E in FL, FU.
  remember (3600 * hoursOf seconds + 60 * minutesOf seconds
            + secsOf seconds)%Z as w eqn:Ew.
  remember (millisecondsOf seconds) as f eqn:Ef.
  assert (F0 : 0 <= inject_Z f)
    by (change 0 with (inject_Z 0); rewrite <- Zle_Qle; lia).
  assert (F1 : inject_Z f + 1 <= 1000).
  { change 1000 with (inject_Z 1000). change 1 with (inject_Z 1).
    rewrite <- inject_Z_plus, <- Zle_Qle. lia. }
  rewrite inject_Z_plus, inject_Z_mult in FL.
  rewrite !inject_Z_plus, inject_Z_mult in FU.
  change (inject_Z 1000) with 1000 in FL, FU.
  change (inject_Z 1) with 1 in FU.
  symmetry. apply Qfloor_unique; [lra|].
  rewrite inject_Z_plus. change (inject_Z 1) with 1. lra.
Qed.


(** *** The text of a timestamp *)

Lemma padded_below (width : nat) (bound : nat) :
  forallb (fun n => readsAs (padStart (numberToString (Z.of_nat n)) width)
                      width (Z.of_nat n)) (seq 0 bound) = true ->
  forall z, (0 <= z < Z.of_nat bound)%Z ->
  readsAs (padStart (numberToString z) width) width z = true.
Proof.
  intros H z Hz. rewrite forallb_forall in H.
  specialize (H (Z.to_nat z)). rewrite Z2Nat.id in H by lia.
  apply H. apply in_seq. lia.
Qed.

Lemma padded_two (z : Z) :
  (0 <= z < 100)%Z -> readsAs (padStart (numberToString z) 2) 2 z = true.
Proof. apply (padded_below 2 100). vm_compute. reflexivity. Qed.

Lemma padded_three (z : Z) :
  (0 <= z < 1000)%Z -> readsAs (padStart (numberToString z) 3) 3 z = true.
Proof. apply (padded_below 3 1000). vm_compute. reflexivity. Qed.

Lemma readsAs_two (s : string) (z : Z) :
  readsAs s 2 z = true ->
  exists a b, s = String a (String b EmptyString) /\
    isDigitChar a = true /\ isDigitChar b = true /\
    (z = 10 * digitValue a + digitValue b)%Z.
Proof.
  destruct s as [|a [|b [|c s]]]; cbn [readsAs];
    rewrite ?andb_false_r; try discriminate.
  change (10 ^ Z.of_nat 1)%Z with 10%Z. change (10 ^ Z.of_nat 0)%Z with 1%Z.
  intros H. apply andb_true_iff in H as [Ha H].
  apply andb_true_iff in H as [Hb H]. apply Z.eqb_eq in H.
  exists a, b. repeat split; try assumption. lia.
Qed.

Lemma readsAs_three (s : string) (z : Z) :
  readsAs s 3 z = true ->
  exists a b c, s = String a (String b (String c EmptyString)) /\
    isDigitChar a = true /\ isDigitChar b = true /\ isDigitChar c = true /\
    (z = 100 * digitValue a + 10 * digitValue b + digitValue c)%Z.
Proof.
  destruct s as [|a [|b [|c [|d s]]]]; cbn [readsAs];
    rewrite ?andb_false_r; try discriminate.
  change (10 ^ Z.of_nat 2)%Z with 100%Z.
  change (10 ^ Z.of_nat 1)%Z with 10%Z. change (10 ^ Z.of_nat 0)%Z with 1%Z.
  intros H. apply andb_true_iff in H as [Ha H].
  apply andb_true_iff in H as [Hb H]. apply andb_true_iff in H as [Hc H].
  apply Z.eqb_eq in H.
  exists a, b, c. repeat split; try assumption. lia.
Qed.

Lemma hours_below (seconds : Q) :
  0 <= seconds -> seconds < 360000 -> (hoursOf seconds < 100)%Z.
Proof.
  intros H0 H1. unfold hoursOf.
  destruct (floor_div_bounds seconds 3600 ltac:(lra)) as [HL _].
  rewrite Zlt_Qlt. change (inject_Z 100) with 100. lra.
Qed.

(** *** Line feeds in the SRT text *)

Lemma count_app (l1 l2 : jsstring) (c : N) :
  count_occ N.eq_dec (l1 ++ l2) c
  = (count_occ N.eq_dec l1 c + count_occ N.eq_dec l2 c)%nat.
Proof. apply count_occ_app. Qed.

Lemma ofString_app (s1 s2 : string) :
  ofString (String.append s1 s2) = ofString s1 ++ ofString s2.
Proof. induction s1 as [|c s1 IH]; simpl; [reflexivity | now rewrite IH]. Qed.

Lemma uint_no_line_feed (d : Decimal.uint) :
  count_occ N.eq_dec (ofString (DecimalString.NilEmpty.string_of_uint d))
    10%N = 0%nat.
Proof. induction d; simpl; auto. Qed.

Lemma numberToString_no_line_feed (z : Z) :
  count_occ N.eq_dec (ofString (numberToString z)) 10%N = 0%nat.
Proof.
  unfold numberToString, DecimalString.NilZero.string_of_int.
  destruct (Z.to_int z) as [d|d];
    unfold DecimalString.NilZero.string_of_uint.
  - destruct d; try reflexivity; apply uint_no_line_feed.
  - change (ofString (String "-" ?s)) with (45%N :: ofString s).
    destruct d; try reflexivity;
      rewrite count_occ_cons_neq by discriminate;
      apply uint_no_line_feed.
Qed.

Lemma padStart_no_line_feed (z : Z) (width : nat) :
  count_occ N.eq_dec (ofString (padStart (numberToString z) width)) 10%N
  = 0%nat.
Proof.
  unfold padStart. rewrite ofString_app, count_app.
  rewrite numberToString_no_line_feed.
  induction (width - String.length (numberToString z))%nat; simpl; auto.
Qed.

Lemma formatSrtTime_no_line_feed (seconds : Q) :
  count_occ N.eq_dec (ofString (formatSrtTime seconds)) 10%N = 0%nat.
Proof.
  unfold formatSrtTime.
  repeat (rewrite ofString_app, count_app, padStart_no_line_feed;
          cbn [ofString]; rewrite count_occ_cons_neq by discriminate).
  rewrite padStart_no_line_feed. reflexivity.
Qed.

Lemma srtBlock_line_feeds (index : nat) (subtitle : Subtitle) :
  ~ In 10%N (text subtitle) ->
  count_occ N.eq_dec (srtBlock index subtitle) 10%N = 4%nat.
Proof.
  intros H. apply (count_occ_not_In N.eq_dec) in H.
  unfold srtBlock. rewrite !count_app, H.
  rewrite numberToString_no_line_feed, !formatSrtTime_no_line_feed.
  reflexivity.
Qed.

Lemma srtBlocks_line_feeds : forall subtitles index,
  Forall (fun f => ~ In 10%N (text f)) subtitles ->
  count_occ N.eq_dec (srtBlocks index subtitles) 10%N
  = (4 * List.length subtitles)%nat.
Proof.
  induction subtitles as [|f rest IH]; intros index H; [reflexivity|].
  inversion H; subst. cbn [srtBlocks].
  rewrite count_app, srtBlock_line_feeds, IH by assumption.
  simpl List.length. lia.
Qed.

End TimeFacts.

Module ShiftFacts.
Import Subtitle SubtitleFacts Srt.

(** *** Moving the start of a block *)

Lemma evenSplit_shift sd s shift : forall segs idx,
  Forall2 (shifted shift)
    (evenSplit sd s idx segs) (evenSplit sd (s + shift) idx segs).
Proof.
  induction segs as [|seg rest IH]; intros idx; simpl; constructor.
  - unfold shifted. simpl. repeat split; lra.
  - apply IH.
Qed.

Lemma assign_shift n scale shift : forall items i c c' r,
  c' == c + shift ->
  Forall2 (shifted shift)
    (assign n scale i items c r) (assign n scale i items c' r).
Proof.
  induction items as [|[seg ideal] rest IH]; intros i c c' r Hc; simpl;
    constructor.
  - unfold shifted. simpl. repeat split; lra.
  - apply IH. lra.
Qed.

Lemma setLastEndTime_shift shift t t' : forall l l',
  t' == t + shift ->
  Forall2 (shifted shift) l l' ->
  Forall2 (shifted shift) (setLastEndTime l t) (setLastEndTime l' t').
Proof.
  intros l l' Ht H. induction H as [|f g l l' Hfg Hrest IH]; [constructor|].
  destruct Hrest as [|f2 g2 l l' Hfg2 Hrest].
  - simpl. constructor; [|constructor].
    destruct Hfg as (E1 & E2 & _). unfold shifted. simpl. auto.
  - change (setLastEndTime (f :: f2 :: l) t)
      with (f :: setLastEndTime (f2 :: l) t).
    change (setLastEndTime (g :: g2 :: l') t')
      with (g :: setLastEndTime (g2 :: l') t').
    constructor; [exact Hfg | exact IH].
Qed.

Lemma calculate_shift segments totalDuration start shift :
  Forall2 (shifted shift)
    (calculateSubtitleTimings segments totalDuration start)
    (calculateSubtitleTimings segments totalDuration (start + shift)).
Proof.
  destruct segments as [|seg rest]; [constructor|].
  destruct (totalChars (seg :: rest) =? 0)%nat eqn:Etc.
  - unfold calculateSubtitleTimings. rewrite Etc. apply evenSplit_shift.
  - apply Nat.eqb_neq in Etc. rewrite !(calculate_main _ _ _ Etc).
    apply setLastEndTime_shift; [lra|].
    apply assign_shift. reflexivity.
Qed.

End ShiftFacts.

Module SrtSpec.
Import Subtitle SubtitleFacts Srt SrtFacts TrackFacts TimeFacts ShiftFacts.

(** X1. Splitting a text into fragments loses and adds nothing that shows:
    the code units of the fragments that are not white space are, in order,
    those of the text.  In particular the fragments weigh together what the
    text weighs ([charCount]: code units other than punctuation and white
    space). *)
Theorem split_keeps_the_ink (chars : jsstring) :
  ink (List.concat (splitTextByPunctuation chars)) = ink chars /\
  totalChars (splitTextByPunctuation chars) = charCount chars.
Proof.
  split; [apply splitTextByPunctuation_ink|].
  rewrite totalChars_concat, <- charCount_ink, splitTextByPunctuation_ink.
  apply charCount_ink.
Qed.

(** X2. Every fragment of [splitTextByPunctuation] is non-empty and trimmed,
    a punctuation mark of the splitting class occurs in it at most as its
    last code unit, and it holds no line feed. *)
Theorem fragments_are_trimmed_and_end_at_the_mark (chars : jsstring) :
  Forall (fun seg =>
            seg <> [] /\
            trim seg = seg /\
            existsb isPunctuation (removelast seg) = false /\
            ~ In 10%N seg)
    (splitTextByPunctuation chars).
Proof.
  apply Forall_forall. intros seg Hin.
  pose proof (proj1 (Forall_forall _ _)
                (proj2 (splitTextByPunctuation_nonempty chars)) seg Hin)
    as Hne.
  pose proof (proj1 (Forall_forall _ _)
                (splitTextByPunctuation_shaped chars) seg Hin) as Hs.
  split; [exact Hne|]. split; [apply Hs|]. split; [apply Hs|].
  now apply shaped_no_line_feed.
Qed.

(** X3. No fragment of [splitTextByPunctuation] is longer than 51 code
    units: 50 code units of text and the mark that ends them. *)
Theorem fragments_hold_at_most_51_code_units (chars : jsstring) :
  Forall (fun seg => (List.length seg <= 51)%nat)
    (splitTextByPunctuation chars).
Proof.
  apply Forall_forall. intros seg Hin.
  apply (proj1 (Forall_forall _ _)
           (splitTextByPunctuation_shaped chars) seg Hin).
Qed.

(** X4. The texts of the subtitle track are the fragments of the trimmed
    intro text followed by the fragments of each trimmed audio text, in
    order; the durations play no part in them, and a blank text adds
    nothing. *)
Theorem track_texts_are_the_fragments_in_order
    (introTxt : jsstring) (introDuration : Q)
    (audios : list (jsstring * Q)) :
  map text (buildSubtitles introTxt introDuration audios)
  = splitTextByPunctuation (trim introTxt)
    ++ flat_map (fun a => splitTextByPunctuation (trim (fst a))) audios.
Proof. apply buildSubtitles_texts. Qed.

(** X5. When every text holds at least one counted character (a code unit
    that is neither punctuation nor white space) the subtitle track has no
    gap: it starts 5 s into the audio, every subtitle starts at the very time
    at which the one before ends, also from one audio file to the next, and
    the last one ends where the clock of the loop stands after the last audio
    file.  (In a block too short for its fragments a subtitle may end before
    it starts; see C8.) *)
Theorem worded_track_is_gapless
    (introTxt : jsstring) (introDuration : Q)
    (audios : list (jsstring * Q)) :
  (0 < charCount introTxt)%nat ->
  Forall (fun a => (0 < charCount (fst a))%nat) audios ->
  tiles SUBTITLE_START_OFFSET
    (buildSubtitles introTxt introDuration audios)
    (clockAfter (SUBTITLE_START_OFFSET + introDuration) (map snd audios)).
Proof.
  intros Hintro Haudios. unfold buildSubtitles. rewrite audioSubtitles_acc.
  apply (tiles_app _ _ _ (SUBTITLE_START_OFFSET + introDuration)).
  - now apply blockSubtitles_tiles.
  - now apply audioSubtitles_tiles.
Qed.

Lemma worded_track_is_gapless_witness :
  tiles SUBTITLE_START_OFFSET
    (buildSubtitles [72; 105; 44; 32; 97; 108; 108]%N 2
       [([0x4F60; 0x597D; 0xFF0C; 0x4E16; 0x754C]%N, 3)])
    (clockAfter (SUBTITLE_START_OFFSET + 2)
       (map snd [([0x4F60; 0x597D; 0xFF0C; 0x4E16; 0x754C]%N, 3)])).
Proof.
  apply (worded_track_is_gapless [72; 105; 44; 32; 97; 108; 108]%N 2
           [([0x4F60; 0x597D; 0xFF0C; 0x4E16; 0x754C]%N, 3)]).
  - vm_compute. lia.
  - repeat constructor.
Defined.

(** X6. The subtitles of an audio file start when that file starts in the
    merged audio, where the clock of the loop stands after the intro and the
    audio files before it, whether or not the earlier texts gave subtitles.
    When the text holds a counted character there is at least one subtitle
    and they tile the time of their file; when it holds punctuation only,
    its fragments get equal shares, the k-th ending at
    [start + k * (duration / n)]; when it is blank there are none. *)
Theorem block_starts_with_its_audio
    (introTxt : jsstring) (introDuration : Q)
    (audios1 : list (jsstring * Q)) (txt : jsstring) (d : Q)
    (audios2 : list (jsstring * Q)) :
  let t :=
    clockAfter (SUBTITLE_START_OFFSET + introDuration) (map snd audios1) in
  let segments := splitTextByPunctuation (trim txt) in
  (exists after,
      buildSubtitles introTxt introDuration (audios1 ++ (txt, d) :: audios2)
      = buildSubtitles introTxt introDuration audios1
        ++ blockSubtitles txt d t ++ after) /\
  ((0 < charCount txt)%nat ->
   blockSubtitles txt d t <> [] /\
   tiles t (blockSubtitles txt d t) (t + d)) /\
  (hasInk txt = true -> charCount txt = 0%nat ->
   segments <> [] /\
   blockSubtitles txt d t
   = evenSplit (d / Qnat (List.length segments)) t 0 segments) /\
  (hasInk txt = false -> blockSubtitles txt d t = []).
Proof.
  intros t segments. split; [|split; [|split]].
  - exists (audioSubtitles audios2 (t + d) []).
    unfold buildSubtitles.
    rewrite audioSubtitles_acc, audioSubtitles_app.
    rewrite (audioSubtitles_acc audios1 _ (blockSubtitles introTxt _ _)).
    fold t. cbn [audioSubtitles]. rewrite (audioSubtitles_acc audios2).
    cbn [app]. now rewrite <- app_assoc.
  - intros Hc. split; [|now apply blockSubtitles_tiles].
    intros Hnil. apply (f_equal (map text)) in Hnil.
    rewrite blockSubtitles_texts in Hnil.
    now destruct (blockSubtitles_inked txt d t (charCount_hasInk _ Hc))
      as [Hne _].
  - intros Hink Hc.
    split; [now destruct (blockSubtitles_inked txt d t Hink)|].
    now apply blockSubtitles_marks.
  - apply blockSubtitles_blank.
Qed.

Lemma block_starts_with_its_audio_witness :
  let txt := [0x4F60; 0x597D; 0xFF0C; 0x4E16; 0x754C]%N in
  let t := clockAfter (SUBTITLE_START_OFFSET + 2) (map snd [([32]%N, 4)]) in
  blockSubtitles txt 3 t <> [] /\
  tiles t (blockSubtitles txt 3 t) (t + 3).
Proof.
  destruct (block_starts_with_its_audio [72; 105]%N 2 [([32]%N, 4)]
              [0x4F60; 0x597D; 0xFF0C; 0x4E16; 0x754C]%N 3 [])
    as (_ & Hworded & _).
  apply Hworded. vm_compute. lia.
Defined.

(** X7. For a time that is not negative, minutes and seconds of
    [formatSrtTime] lie below 60, milliseconds below 1000, and hours, minutes
    and seconds together make the whole seconds of the time:
    [3600 * hours + 60 * minutes + seconds = floor(time)]. *)
Theorem timestamp_fields_split_the_seconds (seconds : Q) :
  0 <= seconds ->
  (0 <= hoursOf seconds)%Z /\
  (0 <= minutesOf seconds < 60)%Z /\
  (0 <= secsOf seconds < 60)%Z /\
  (0 <= millisecondsOf seconds < 1000)%Z /\
  (3600 * hoursOf seconds + 60 * minutesOf seconds + secsOf seconds
   = Qfloor seconds)%Z.
Proof.
  intros H. destruct (srt_fields seconds H) as (Hh & Hm & Hs & Hf & _).
  repeat (split; [assumption|]). now apply srt_whole_seconds.
Qed.

Lemma timestamp_fields_split_the_seconds_witness :
  (0 <= hoursOf (7323 # 2))%Z /\
  (0 <= minutesOf (7323 # 2) < 60)%Z /\
  (0 <= secsOf (7323 # 2) < 60)%Z /\
  (0 <= millisecondsOf (7323 # 2) < 1000)%Z /\
  (3600 * hoursOf (7323 # 2) + 60 * minutesOf (7323 # 2) + secsOf (7323 # 2)
   = Qfloor (7323 # 2))%Z.
Proof.
  apply (timestamp_fields_split_the_seconds (7323 # 2)).
  vm_compute. discriminate.
Defined.

(** X8. Below 100 hours [formatSrtTime] writes a well-formed SRT timestamp
    [dd:dd:dd,ddd]; read back, its first three fields give the whole seconds
    of the time and its last field a number of milliseconds below 1000. *)
Theorem timestamp_is_well_formed (seconds : Q) :
  0 <= seconds -> seconds < 360000 ->
  wellFormedTimestamp (formatSrtTime seconds) = true /\
  exists milliseconds,
    (0 <= milliseconds < 1000)%Z /\
    readTimestamp (formatSrtTime seconds)
    = Some (1000 * Qfloor seconds + milliseconds)%Z.
Proof.
  intros H0 H1.
  destruct (srt_fields seconds H0) as [Hh [Hm [Hs [Hf _]]]].
  pose proof (srt_whole_seconds seconds H0) as E.
  pose proof (hours_below seconds H0 H1) as Hh2.
  destruct (readsAs_two _ _ (padded_two (hoursOf seconds) ltac:(lia)))
    as [h1 [h2 [Eh [Dh1 [Dh2 Vh]]]]].
  destruct (readsAs_two _ _ (padded_two (minutesOf seconds) ltac:(lia)))
    as [m1 [m2 [Em [Dm1 [Dm2 Vm]]]]].
  destruct (readsAs_two _ _ (padded_two (secsOf seconds) ltac:(lia)))
    as [s1 [s2 [Es [Ds1 [Ds2 Vs]]]]].
  destruct (readsAs_three _ _
              (padded_three (millisecondsOf seconds) ltac:(lia)))
    as [f1 [f2 [f3 [Ef [Df1 [Df2 [Df3 Vf]]]]]]].
  unfold formatSrtTime. rewrite Eh, Em, Es, Ef.
  cbn [String.append wellFormedTimestamp readTimestamp].
  rewrite Dh1, Dh2, Dm1, Dm2, Ds1, Ds2, Df1, Df2, Df3.
  split; [reflexivity|].
  exists (millisecondsOf seconds). split; [exact Hf|]. f_equal. lia.
Qed.

Lemma timestamp_is_well_formed_witness :
  wellFormedTimestamp (formatSrtTime (7 # 3)) = true /\
  exists milliseconds,
    (0 <= milliseconds < 1000)%Z /\
    readTimestamp (formatSrtTime (7 # 3))
    = Some (1000 * Qfloor (7 # 3) + milliseconds)%Z.
Proof.
  apply (timestamp_is_well_formed (7 # 3)).
  - vm_compute. discriminate.
  - vm_compute. reflexivity.
Defined.

(** X9. The SRT text of a subtitle track has exactly four line feeds for
    each subtitle: no subtitle text holds one, so the blank line that ends a
    block never occurs inside a block. *)
Theorem srt_has_four_line_feeds_per_subtitle
    (introTxt : jsstring) (introDuration : Q)
    (audios : list (jsstring * Q)) :
  count_occ N.eq_dec
    (generateSrtContent (buildSubtitles introTxt introDuration audios)) 10%N
  = (4 * List.length (buildSubtitles introTxt introDuration audios))%nat.
Proof.
  unfold generateSrtContent. apply srtBlocks_line_feeds.
  apply buildSubtitles_no_line_feed.
Qed.

(** X26. When some fragment holds a counted character (the main branch), the
    subtitles of a block are as many as its fragments and tile the block:
    the first starts at the start offset, each one starts at the very time
    at which the one before ends, and the last ends at the sum of start
    offset and block duration.  (With X24: in a block that lasts 0.3 s for
    each fragment none of them ends before it starts, so they do not
    overlap.) *)
Theorem worded_fragments_tile_the_block
    (segments : list jsstring) (totalDuration start : Q) :
  totalChars segments <> 0%nat ->
  let subtitles := calculateSubtitleTimings segments totalDuration start in
  List.length subtitles = List.length segments /\
  tiles start subtitles (start + totalDuration).
Proof.
  intros Hw. cbv zeta. split; [|now apply calculate_tiles].
  rewrite (calculate_main _ _ _ Hw).
  rewrite setLastEndTime_length, assign_length, length_combine,
    idealDurations_length. apply Nat.min_id.
Qed.

Lemma worded_fragments_tile_the_block_witness :
  let segments :=
    splitTextByPunctuation
      [0x4F60; 0x597D; 0x3002; 0x4ECA; 0x5929; 0x5929; 0x6C14; 0x4E0D; 0x9519;
       0xFF0C; 0x9002; 0x5408; 0x51FA; 0x95E8; 0x3002]%N in
  let subtitles := calculateSubtitleTimings segments 6 5 in
  List.length subtitles = List.length segments /\
  tiles 5 subtitles (5 + 6).
Proof.
  apply (worded_fragments_tile_the_block
           (splitTextByPunctuation
              [0x4F60; 0x597D; 0x3002; 0x4ECA; 0x5929; 0x5929; 0x6C14; 0x4E0D;
               0x9519; 0xFF0C; 0x9002; 0x5408; 0x51FA; 0x95E8; 0x3002]%N)
           6 5).
  vm_compute. discriminate.
Defined.

(** X23. The timing of the fragments of a block does not depend on where
    the block starts: moving the start by [shift] moves every start and end
    time by [shift] and changes neither the texts nor the durations. *)
Theorem timings_move_with_the_block (segments : list jsstring)
    (totalDuration start shift : Q) :
  Forall2 (shifted shift)
    (calculateSubtitleTimings segments totalDuration start)
    (calculateSubtitleTimings segments totalDuration (start + shift)) /\
  Forall2 (fun f g => duration g == duration f)
    (calculateSubtitleTimings segments totalDuration start)
    (calculateSubtitleTimings segments totalDuration (start + shift)).
Proof.
  pose proof (calculate_shift segments totalDuration start shift) as H.
  split; [exact H|].
  induction H as [|f g l l' (_ & Hs & He) _ IH]; constructor; [|exact IH].
  unfold duration. lra.
Qed.

End SrtSpec.

(** ** URL handling *)

Module UrlFacts.
Import Video.

Lemma truthy_append (s1 s2 : string) :
  truthy (String.append s1 s2) = truthy s1 || truthy s2.
Proof. destruct s1; reflexivity. Qed.

Lemma truthy_normalizeUrl (baseUrl url : string) :
  truthy (normalizeUrl baseUrl url) = truthy url.
Proof.
  unfold normalizeUrl. destruct (truthy url) eqn:Eu; simpl.
  - destruct (String.prefix "http" url); [exact Eu|].
    destruct (truthy baseUrl); [|exact Eu].
    rewrite truthy_append.
    destruct (String.prefix "/" url); [now rewrite Eu, orb_true_r|].
    simpl. apply orb_true_r.
  - exact Eu.
Qed.

Lemma prefix_nil (s : string) : String.prefix EmptyString s = true.
Proof. destruct s; reflexivity. Qed.

Lemma prefix_http_strip (baseUrl rest : string) :
  String.prefix "http" baseUrl = true ->
  String.prefix "http" (String.append (stripTrailingSlash baseUrl) rest)
  = true.
Proof.
  destruct baseUrl as [|c1 [|c2 [|c3 [|c4 tail]]]];
    cbn [String.prefix];
    repeat (destruct (ascii_dec _ _); [|discriminate]);
    intros H; try discriminate H.
  subst.
  destruct tail as [|c5 tail];
    cbn [stripTrailingSlash String.append String.prefix Ascii.eqb Bool.eqb];
    repeat (destruct (ascii_dec _ _); [|congruence]); apply prefix_nil.
Qed.

Lemma normalizeUrl_fixed (baseUrl url : string) :
  truthy url = false \/ String.prefix "http" url = true
  \/ truthy baseUrl = false ->
  normalizeUrl baseUrl url = url.
Proof.
  unfold normalizeUrl. intros [H | [H | H]]; rewrite H.
  - reflexivity.
  - now destruct (negb (truthy url)).
  - destruct (negb (truthy url)); [reflexivity|].
    now destruct (String.prefix "http" url).
Qed.

Lemma normalizeVideos_map BASE_URL : forall urls,
  normalizeVideos BASE_URL urls
  = map (fun v => mkVideoSource (normalizeUrl BASE_URL (video_url v))
                    (video_download v) (video_duration v))
      (filter (fun v => truthy (video_url v)) urls).
Proof.
  unfold normalizeVideos.
  induction urls as [|v urls IH]; simpl; [reflexivity|].
  rewrite truthy_normalizeUrl.
  destruct (truthy (video_url v)); simpl; now rewrite IH.
Qed.

Lemma normalizeImages_map BASE_URL : forall urls,
  normalizeImages BASE_URL urls
  = map (fun v => mkImageSource (normalizeUrl BASE_URL (image_url v))
                    (image_download v) (image_dimensions v))
      (filter (fun v => truthy (image_url v)) urls).
Proof.
  unfold normalizeImages.
  induction urls as [|v urls IH]; simpl; [reflexivity|].
  rewrite truthy_normalizeUrl.
  destruct (truthy (image_url v)); simpl; now rewrite IH.
Qed.

End UrlFacts.

Module UrlSpec.
Import Video UrlFacts.

(** X10. Normalising the URL lists of a request drops exactly the sources
    whose URL is the empty string and keeps the others in order: a non-empty
    URL never becomes empty, so the filter behind [normalizeUrl] sees what it
    would have seen before. *)
Theorem normalising_drops_exactly_the_empty_urls (BASE_URL : string)
    (videos : list VideoSource) (images : list ImageSource) :
  normalizeVideos BASE_URL videos
  = map (fun v => mkVideoSource (normalizeUrl BASE_URL (video_url v))
                    (video_download v) (video_duration v))
      (filter (fun v => truthy (video_url v)) videos) /\
  normalizeImages BASE_URL images
  = map (fun v => mkImageSource (normalizeUrl BASE_URL (image_url v))
                    (image_download v) (image_dimensions v))
      (filter (fun v => truthy (image_url v)) images).
Proof.
  split; [apply normalizeVideos_map | apply normalizeImages_map].
Qed.

(** X11. When BASE_URL is empty or starts with [http], normalising a URL a
    second time changes nothing (the handler normalises every URL and
    [downloadVideo] normalises it again). *)
Theorem normalising_twice_is_normalising_once (baseUrl url : string) :
  String.prefix "http" baseUrl = true \/ baseUrl = EmptyString ->
  normalizeUrl baseUrl (normalizeUrl baseUrl url) = normalizeUrl baseUrl url.
Proof.
  intros Hbase.
  destruct (truthy url) eqn:Eu;
    [|now rewrite !(normalizeUrl_fixed baseUrl url) by auto].
  destruct (String.prefix "http" url) eqn:Eh;
    [now rewrite !(normalizeUrl_fixed baseUrl url) by auto|].
  destruct Hbase as [Hbase | ->];
    [|now rewrite !(normalizeUrl_fixed EmptyString url) by auto].
  destruct (truthy baseUrl) eqn:Eb;
    [|now rewrite !(normalizeUrl_fixed baseUrl url) by auto].
  apply normalizeUrl_fixed. right. left.
  unfold normalizeUrl. rewrite Eu, Eh, Eb. cbn [negb].
  now apply prefix_http_strip.
Qed.

Lemma normalising_twice_is_normalising_once_witness :
  normalizeUrl "http://cdn.example/"
    (normalizeUrl "http://cdn.example/" "clips/a.mp4")
  = normalizeUrl "http://cdn.example/" "clips/a.mp4".
Proof.
  apply (normalising_twice_is_normalising_once "http://cdn.example/"
           "clips/a.mp4").
  left. reflexivity.
Defined.

End UrlSpec.

(** ** The 9:16 video generator: the run as a whole *)

Module HandlerFacts.
Import Video VideoFacts.

(** What a successful answer says about the run. *)
Lemma success_inv BASE_URL req timeline actualDuration duration :
  generateVideo916 BASE_URL req = success timeline actualDuration duration ->
  0 < targetDuration req /\
  assemble (targetDuration req)
    (normalizeImages BASE_URL (imageUrls req))
    (normalizeVideos BASE_URL (videoUrls req))
    (normalizeVideos BASE_URL (appendVideoUrls req)) = Resolved timeline /\
  timeline <> [] /\
  actualDuration == Qmin (Qsum (durations timeline)) (targetDuration req) /\
  duration = toFixed2 actualDuration.
Proof.
  intros H.
  assert (Htarget : 0 < targetDuration req).
  { unfold generateVideo916 in H.
    destruct (Qle_bool (targetDuration req) 0) eqn:E; [discriminate|].
    now apply Qle_bool_false in E. }
  split; [exact Htarget|].
  destruct (generate_cases BASE_URL req Htarget ltac:(congruence))
    as [(E & _) | (files & Hfiles & Hfin)]; [congruence|].
  rewrite Hfin in H. unfold finish in H.
  destruct files as [|f files]; [discriminate|].
  destruct (finish_spec (targetDuration req) (f :: files) ltac:(discriminate))
    as (a & Ea & _ & Hmin).
  unfold finish in Ea. rewrite Ea in H. injection H as <- <- <-.
  repeat split; [exact Hfiles | discriminate | exact Hmin].
Qed.

Lemma Forall_nth_error {A} (P : A -> Prop) (l : list A) :
  (forall i x, nth_error l i = Some x -> P x) -> Forall P l.
Proof.
  intros H. apply Forall_forall. intros x Hx.
  destruct (In_nth_error _ _ Hx) as [i Hi]. exact (H i x Hi).
Qed.

Lemma firstn_In {A} (x : A) (n : nat) (l : list A) :
  In x (firstn n l) -> In x l.
Proof.
  intros H. rewrite <- (firstn_skipn n l). apply in_or_app. now left.
Qed.

Lemma imageCandidate_kind w h :
  fst (imageCandidate w h) <> clip_segment.
Proof.
  unfold imageCandidate.
  destruct (VIDEO_HEIGHT <? scaledHeight w h)%Z; discriminate.
Qed.

(** *** What each pool puts on the timeline *)

Lemma videoStage_segments target vids files :
  0 < target ->
  videoStage target vids = Resolved files ->
  (List.length files <= 1)%nat /\
  Forall (fun seg => seg_kind seg = clip_segment /\
                     exists srcs, seg_source seg = FromVideos srcs) files.
Proof.
  intros Ht H.
  destruct (videoStage_spec _ _ _ Ht H)
    as [_ [[_ ->] | (new & d & _ & _ & -> & _)]].
  - split; [simpl; lia | constructor].
  - split; [simpl; lia|].
    constructor; [|constructor]. split; [reflexivity|]. now eexists.
Qed.

Lemma imageStagePlan_segments rem imgs :
  0 < rem ->
  Forall (fun seg => seg_kind seg <> clip_segment /\
                     exists img, seg_source seg = FromImage img /\
                                 In img imgs /\ usableImage img = true)
    (imageStagePlan rem imgs).
Proof.
  intros Hrem. destruct (imageStagePlan_spec rem imgs Hrem) as (_ & _ & Hseg & _).
  apply Forall_nth_error. intros i seg Hi.
  destruct (Hseg i seg Hi) as (image & acc & Himage & _ & _ & ->).
  destruct (plannedImageVideo_fields image acc rem) as (Ek & Es & _).
  split; [rewrite Ek; apply imageCandidate_kind|].
  exists (vi_source image). split; [exact Es|].
  apply nth_error_In in Himage.
  destruct (filterImages_In _ _ Himage) as (Hin & Hdim & Hw & Hh).
  unfold downloadImages in Hin. apply filter_In in Hin as [Hin Hdl].
  split; [exact Hin|]. unfold usableImage. rewrite Hdl, Hdim. simpl.
  apply andb_true_iff. split; apply Z.leb_le; assumption.
Qed.

Lemma appendStage_segments rem apps out :
  0 < rem ->
  appendStage rem apps = Resolved out ->
  Forall (fun seg => seg_kind seg = clip_segment /\
                     exists v, seg_source seg = FromAppend v /\
                               In v apps /\ usableVideo v = true) out.
Proof.
  intros Hrem H.
  destruct (appendStage_spec _ _ _ Hrem H) as (new & Hsrc & Hdur & _ & Hseg & _).
  apply Forall_nth_error. intros i seg Hi.
  destruct (Hseg i seg Hi) as (p & Hp & Ek & Es & _).
  split; [exact Ek|]. exists (pv_source p). split; [exact Es|].
  assert (Hin : In (pv_source p) (downloadAppendVideos apps)).
  { apply nth_error_In in Hp.
    apply (in_map pv_source) in Hp. rewrite Hsrc in Hp.
    exact (firstn_In _ _ _ Hp). }
  unfold downloadAppendVideos in Hin. apply filter_In in Hin as [Hin Hdl].
  split; [exact Hin|]. unfold usableVideo. rewrite Hdl. simpl.
  apply nth_error_In in Hp.
  rewrite Forall_forall in Hdur. now rewrite (Hdur p Hp).
Qed.


(** The image pool overshoots what is left by less than a second. *)
Lemma imageStagePlan_overshoot rem imgs :
  0 < rem -> Qsum (durations (imageStagePlan rem imgs)) < rem + 1.
Proof.
  intros Hrem. destruct (imageStagePlan_spec rem imgs Hrem) as (_ & _ & Hseg & _).
  destruct (imageStagePlan rem imgs) as [|f0 files0] eqn:E using rev_ind.
  - change (Qsum (durations [])) with 0. lra.
  - clear IHfiles0.
    assert (Hn : nth_error (files0 ++ [f0]) (List.length files0) = Some f0).
    { rewrite nth_error_app2 by lia. now rewrite Nat.sub_diag. }
    destruct (Hseg _ _ Hn) as (image & acc & _ & Hacc & Hlt & Hf).
    rewrite durations_app, Qsum_app.
    unfold durations in Hacc. rewrite map_app, firstn_app in Hacc.
    rewrite length_map, Nat.sub_diag, firstn_O, app_nil_r in Hacc.
    rewrite firstn_all2 in Hacc by (rewrite length_map; lia).
    unfold durations at 1. rewrite <- Hacc.
    simpl durations. rewrite Qsum_cons, Qsum_nil.
    destruct (plannedImageVideo_fields image acc rem) as (_ & _ & Ed).
    rewrite Hf, Ed.
    destruct (fitImageDuration_spec acc rem (candidateOf image)
                (imageCandidate_long _ _) Hlt) as (Efit & _).
    rewrite Efit.
    pose proof (Qmax_min_le_max 1 (candidateOf image) (rem - acc)) as Hm.
    assert (Qmax 1 (rem - acc) < rem - acc + 1).
    { apply Q.max_lub_lt; lra. }
    lra.
Qed.

Lemma imageStagePlan_positive rem imgs :
  0 < rem -> Forall (fun seg => 1 <= seg_duration seg) (imageStagePlan rem imgs).
Proof.
  intros Hrem. destruct (imageStagePlan_spec rem imgs Hrem) as (_ & _ & Hseg & _).
  apply Forall_nth_error. intros i seg Hi.
  destruct (Hseg i seg Hi) as (image & acc & _ & _ & Hlt & ->).
  destruct (plannedImageVideo_fields image acc rem) as (_ & _ & ->).
  now destruct (fitImageDuration_spec acc rem (candidateOf image)
                  (imageCandidate_long _ _) Hlt) as (_ & _ & H1 & _).
Qed.

(** The three pools of a run, with what each leaves to the next. *)
Lemma assemble_pools target imgs vids apps files :
  0 < target ->
  assemble target imgs vids apps = Resolved files ->
  exists clips images fillers,
    files = clips ++ images ++ fillers /\
    videoStage target vids = Resolved clips /\
    Qsum (durations clips) <= target /\
    (images = [] \/
     Qsum (durations clips) < target /\
     images = imageStagePlan (target - currentDurationOf clips) imgs /\
     currentDurationOf clips == Qsum (durations clips)) /\
    Qsum (durations (clips ++ images)) < target + 1 /\
    (fillers = [] \/
     0 < target - Qsum (durations (clips ++ images)) /\
     appendStage (target - Qsum (durations (clips ++ images))) apps
     = Resolved fillers) /\
    Qsum (durations files) < target + 1.
Proof.
  intros Ht H.
  destruct (assemble_inv _ _ _ _ _ H) as (f1 & f2 & f3 & H1 & -> & H2 & H3).
  destruct (videoStage_sum _ _ _ Ht H1) as (Hcur & Hle & _).
  exists f1, f2, f3.
  assert (Himg : f2 = [] \/
            Qsum (durations f1) < target /\
            f2 = imageStagePlan (target - currentDurationOf f1) imgs /\
            currentDurationOf f1 == Qsum (durations f1)).
  { destruct (Qlt_bool 0 (target - currentDurationOf f1)) eqn:E;
      simpl in H2.
    - destruct (isEmpty imgs); simpl in H2; [now left|].
      right. apply Qlt_bool_iff in E. repeat split; [lra | exact H2 | exact Hcur].
    - now left. }
  assert (H12 : Qsum (durations (f1 ++ f2)) < target + 1).
  { rewrite durations_app, Qsum_app.
    destruct Himg as [-> | (Hlt & -> & Ecur)].
    - change (Qsum (durations [])) with 0. lra.
    - pose proof (imageStagePlan_overshoot (target - currentDurationOf f1) imgs
                    ltac:(lra)). lra. }
  assert (Hfil : f3 = [] \/
            0 < target - Qsum (durations (f1 ++ f2)) /\
            appendStage (target - Qsum (durations (f1 ++ f2))) apps
            = Resolved f3).
  { destruct (Qlt_bool 0 (target - Qsum (durations (f1 ++ f2)))) eqn:E;
      simpl in H3.
    - destruct (isEmpty apps); simpl in H3.
      + left. now injection H3.
      + right. apply Qlt_bool_iff in E. split; [exact E | exact H3].
    - left. now injection H3. }
  repeat split; try assumption.
  - now rewrite app_assoc.
  - rewrite durations_app, Qsum_app.
    destruct Hfil as [-> | (Hpos & Happ)].
    + change (Qsum (durations [])) with 0. lra.
    + destruct (appendStage_spec _ _ _ Hpos Happ) as (_ & _ & _ & _ & _ & Hs).
      destruct Hs as [Hs | [Hs _]]; lra.
Qed.


(** *** Runs in which the clips fill the target *)

Lemma videoStage_resolves target vids :
  forallb usableVideo vids = true ->
  exists clips, videoStage target vids = Resolved clips.
Proof.
  intros Hvids. unfold videoStage. destruct vids as [|v rest] eqn:E; [eauto|].
  rewrite <- E in *.
  assert (Hdl : downloadVideos vids = Resolved vids).
  { clear E. induction vids as [|u us IHus]; [reflexivity|].
    simpl in Hvids. apply andb_true_iff in Hvids as [Hu Hus].
    unfold usableVideo in Hu. apply andb_true_iff in Hu as [Hu _].
    simpl. now rewrite Hu, (IHus Hus). }
  rewrite Hdl. simpl.
  destruct (processVideos_resolves target vids [] 0) as ([pv total] & ->).
  { apply forallb_forall. intros u Hu.
    rewrite forallb_forall in Hvids. specialize (Hvids u Hu).
    unfold usableVideo in Hvids. now apply andb_true_iff in Hvids. }
  simpl. destruct pv; [eauto|]. destruct (Qlt_bool _ _); eauto.
Qed.

Lemma assemble_clips_only target imgs vids apps seg :
  videoStage target vids = Resolved [seg] ->
  seg_duration seg == target ->
  assemble target imgs vids apps = Resolved [seg].
Proof.
  intros H E. unfold assemble. rewrite H. cbn [bind currentDurationOf].
  assert (E1 : Qlt_bool 0 (target - seg_duration seg) = false)
    by (apply Qlt_bool_false; lra).
  rewrite E1. cbn [andb].
  assert (E2 : Qlt_bool 0 (target - Qsum (durations [seg])) = false).
  { apply Qlt_bool_false. unfold durations. simpl map.
    rewrite Qsum_cons, Qsum_nil. lra. }
  cbn [bind]. rewrite E2. reflexivity.
Qed.

(** *** Positive durations *)

Lemma Qsum_positive : forall l : list Q,
  Forall (fun d => 0 < d) l -> l <> [] -> 0 < Qsum l.
Proof.
  induction l as [|x l IH]; intros H Hne; [congruence|].
  inversion H as [|? ? Hx Hl]; subst. rewrite Qsum_cons.
  destruct l as [|y l].
  - rewrite Qsum_nil. lra.
  - specialize (IH Hl ltac:(discriminate)). lra.
Qed.

Lemma normalizeVideos_In BASE_URL urls v :
  In v (normalizeVideos BASE_URL urls) ->
  exists u, In u urls /\ video_duration v = video_duration u /\
            video_download v = video_download u.
Proof.
  unfold normalizeVideos. intros H. apply filter_In in H as [H _].
  apply in_map_iff in H as (u & <- & Hu). exists u. auto.
Qed.

Lemma videoStage_positive target vids files :
  0 < target ->
  (forall v d, In v vids -> video_duration v = Some d -> 0 < d) ->
  videoStage target vids = Resolved files ->
  Forall (fun seg => 0 < seg_duration seg) files.
Proof.
  intros Ht Hpos H.
  destruct (videoStage_spec _ _ _ Ht H)
    as [_ [[_ ->] | (new & d & _ & Hne & -> & Hsrc & Hdur & _ & Hd)]];
    constructor; [|constructor]. simpl.
  destruct Hd as [Hd | (_ & Hd & _)]; [lra|]. rewrite Hd.
  apply Qsum_positive.
  - apply Forall_forall. intros x Hx. apply in_map_iff in Hx as (p & <- & Hp).
    rewrite Forall_forall in Hdur. apply (Hpos (pv_source p)).
    + apply (firstn_In _ (List.length new)). rewrite <- Hsrc.
      now apply in_map.
    + now apply Hdur.
  - destruct new; [congruence | discriminate].
Qed.

Lemma appendStage_positive rem apps out :
  0 < rem ->
  (forall v d, In v apps -> video_duration v = Some d -> 0 < d) ->
  appendStage rem apps = Resolved out ->
  Forall (fun seg => 0 < seg_duration seg) out.
Proof.
  intros Hrem Hpos H.
  destruct (appendStage_spec _ _ _ Hrem H)
    as (new & Hsrc & Hdur & _ & Hseg & _).
  apply Forall_nth_error. intros i seg Hi.
  destruct (Hseg i seg Hi) as (p & Hp & _ & _ & Hlt & ->).
  apply nth_error_In in Hp.
  assert (Hd : 0 < pv_duration p).
  { apply (Hpos (pv_source p)).
    - assert (Hin : In (pv_source p) (downloadAppendVideos apps)).
      { apply (firstn_In _ (List.length new)). rewrite <- Hsrc.
        now apply in_map. }
      unfold downloadAppendVideos in Hin. now apply filter_In in Hin.
    - rewrite Forall_forall in Hdur. now apply Hdur. }
  apply Q.min_glb_lt; lra.
Qed.

(** *** Rounding to hundredths *)

Lemma mathRound_bounds (x : Q) :
  x - (1#2) < inject_Z (mathRound x) /\ inject_Z (mathRound x) <= x + (1#2).
Proof.
  unfold mathRound.
  pose proof (Qfloor_le (x + (1#2))) as H1.
  pose proof (Qlt_floor (x + (1#2))) as H2.
  rewrite inject_Z_plus in H2. change (inject_Z 1) with 1 in H2.
  split; lra.
Qed.

Lemma toFixed2_near (x : Q) :
  x - (1#200) <= toFixed2 x /\ toFixed2 x <= x + (1#200) /\
  exists k : Z, toFixed2 x * 100 == inject_Z k.
Proof.
  unfold toFixed2. destruct (Qlt_bool x 0).
  - destruct (mathRound_bounds (- x * 100)) as [H1 H2].
    split; [|split; [|exists (- mathRound (- x * 100))%Z]].
    + revert H1 H2. generalize (inject_Z (mathRound (- x * 100))).
      intros z H1 H2.
      assert (z / 100 <= - x + (1#200)) by (apply Qle_shift_div_r; lra).
      lra.
    + revert H1 H2. generalize (inject_Z (mathRound (- x * 100))).
      intros z H1 H2.
      assert (- x - (1#200) < z / 100) by (apply Qlt_shift_div_l; lra).
      lra.
    + rewrite inject_Z_opp. field.
  - destruct (mathRound_bounds (x * 100)) as [H1 H2].
    split; [|split; [|exists (mathRound (x * 100))]].
    + revert H1 H2. generalize (inject_Z (mathRound (x * 100))).
      intros z H1 H2.
      assert (x - (1#200) < z / 100) by (apply Qlt_shift_div_l; lra).
      lra.
    + revert H1 H2. generalize (inject_Z (mathRound (x * 100))).
      intros z H1 H2. apply Qle_shift_div_r; lra.
    + field.
Qed.

(** *** When an image scrolls *)

Lemma floor_above (x : Q) (z : Z) :
  (z <= Qfloor x)%Z <-> inject_Z z <= x.
Proof.
  pose proof (Qfloor_le x) as H1. pose proof (Qlt_floor x) as H2. split.
  - intros H. rewrite Zle_Qle in H. lra.
  - intros H. assert (z < Qfloor x + 1)%Z by (rewrite Zlt_Qlt; lra). lia.
Qed.

Lemma scaledHeight_above (w h : Z) :
  (0 < w)%Z ->
  (VIDEO_HEIGHT < scaledHeight w h)%Z <-> (3841 * w <= 2160 * h)%Z.
Proof.
  intros Hw. unfold scaledHeight, mathRound, VIDEO_HEIGHT, VIDEO_WIDTH.
  assert (Hq : 0 < inject_Z w)
    by (change 0 with (inject_Z 0); now rewrite <- Zlt_Qlt).
  assert (E : inject_Z h * (inject_Z 1080 / inject_Z w) * inject_Z w
              == 1080 * inject_Z h).
  { change (inject_Z 1080) with 1080. field. lra. }
  assert (Hz : (3841 * w <= 2160 * h)%Z
               <-> 3841 * inject_Z w <= 2160 * inject_Z h).
  { rewrite Zle_Qle, !inject_Z_mult. reflexivity. }
  rewrite Hz.
  assert (Hfl : (1920 < Qfloor (inject_Z h * (inject_Z 1080 / inject_Z w)
                                + (1 # 2)))%Z
                <-> inject_Z 1921
                    <= inject_Z h * (inject_Z 1080 / inject_Z w) + (1 # 2)).
  { rewrite <- floor_above. lia. }
  rewrite Hfl. change (inject_Z 1921) with 1921.
  revert E. generalize (inject_Z h * (inject_Z 1080 / inject_Z w)).
  intros q E. split; intros H; nra.
Qed.

End HandlerFacts.

Module PoolFacts.
Import Video VideoFacts HandlerFacts.

(** *** Sources in the order of the request *)

(** A list that follows another one index by index is its image. *)
Lemma map_firstn_nth_error {A B C} (f : A -> C) (g : B -> C)
    (l : list A) (l' : list B) :
  (forall i x, nth_error l i = Some x ->
               exists y, nth_error l' i = Some y /\ f x = g y) ->
  map f l = map g (firstn (List.length l) l').
Proof.
  intros H. apply nth_error_ext. intros n.
  rewrite !nth_error_map, nth_error_firstn.
  destruct (nth_error l n) as [x|] eqn:E.
  - destruct (H n x E) as (y & Hy & Hxy).
    assert (Hn : (n < List.length l)%nat)
      by (apply nth_error_Some; congruence).
    apply Nat.ltb_lt in Hn. rewrite Hn, Hy. simpl. now rewrite Hxy.
  - apply nth_error_None in E.
    assert (Hn : (n <? List.length l)%nat = false)
      by (apply Nat.ltb_ge; exact E).
    now rewrite Hn.
Qed.

Lemma imageStagePlan_sources rem imgs :
  0 < rem ->
  map seg_source (imageStagePlan rem imgs)
  = map (fun image => FromImage (vi_source image))
      (firstn (List.length (imageStagePlan rem imgs))
         (filterImages (downloadImages imgs))).
Proof.
  intros Hrem. destruct (imageStagePlan_spec rem imgs Hrem) as (_ & _ & Hseg & _).
  apply map_firstn_nth_error. intros i seg Hi.
  destruct (Hseg i seg Hi) as (image & acc & Himage & _ & _ & ->).
  exists image. split; [exact Himage|].
  now destruct (plannedImageVideo_fields image acc rem) as (_ & -> & _).
Qed.

Lemma appendStage_sources rem apps out :
  0 < rem ->
  appendStage rem apps = Resolved out ->
  map seg_source out
  = map FromAppend (firstn (List.length out) (downloadAppendVideos apps)).
Proof.
  intros Hrem H.
  destruct (appendStage_spec _ _ _ Hrem H) as (new & Hsrc & _ & _ & Hseg & _).
  apply map_firstn_nth_error. intros i seg Hi.
  destruct (Hseg i seg Hi) as (p & Hp & _ & Es & _).
  exists (pv_source p). split; [|exact Es].
  assert (Hn : nth_error (map pv_source new) i = Some (pv_source p))
    by (rewrite nth_error_map, Hp; reflexivity).
  rewrite Hsrc, nth_error_firstn in Hn.
  destruct (i <? List.length new)%nat; [exact Hn | discriminate].
Qed.

(** *** Only the last segment of a pool is shortened *)

Lemma imageStagePlan_full rem imgs i seg next :
  0 < rem ->
  nth_error (imageStagePlan rem imgs) i = Some seg ->
  nth_error (imageStagePlan rem imgs) (S i) = Some next ->
  exists image,
    nth_error (filterImages (downloadImages imgs)) i = Some image /\
    seg_duration seg = candidateOf image.
Proof.
  intros Hrem Hi Hnext.
  destruct (imageStagePlan_spec rem imgs Hrem) as (_ & _ & Hseg & _).
  destruct (Hseg _ _ Hi) as (image & acc & Himage & Hacc & Hlt & Eseg).
  destruct (Hseg _ _ Hnext) as (_ & acc' & _ & Hacc' & Hlt' & _).
  exists image. split; [exact Himage|].
  destruct (plannedImageVideo_fields image acc rem) as (_ & _ & Ed).
  rewrite Eseg, Ed.
  apply (fitImageDuration_spec acc rem (candidateOf image)
           (imageCandidate_long _ _) Hlt).
  unfold durations in Hacc, Hacc'. rewrite firstn_map in Hacc, Hacc'.
  rewrite (Qsum_firstn_S seg_duration _ _ _ Hi) in Hacc'.
  rewrite <- Hacc, Eseg, Ed in Hacc'. lra.
Qed.

Lemma appendStage_full rem apps out i seg next :
  0 < rem ->
  appendStage rem apps = Resolved out ->
  nth_error out i = Some seg ->
  nth_error out (S i) = Some next ->
  exists v d,
    nth_error (downloadAppendVideos apps) i = Some v /\
    video_duration v = Some d /\
    seg_duration seg == d.
Proof.
  intros Hrem H Hi Hnext.
  destruct (appendStage_spec _ _ _ Hrem H)
    as (new & Hsrc & Hdur & _ & Hseg & _).
  destruct (Hseg _ _ Hi) as (p & Hp & _ & _ & Hlt & Ed).
  destruct (Hseg _ _ Hnext) as (_ & _ & _ & _ & Hlt' & _).
  exists (pv_source p), (pv_duration p). split; [|split].
  - assert (Hn : nth_error (map pv_source new) i = Some (pv_source p))
      by (rewrite nth_error_map, Hp; reflexivity).
    rewrite Hsrc, nth_error_firstn in Hn.
    destruct (i <? List.length new)%nat; [exact Hn | discriminate].
  - apply nth_error_In in Hp. rewrite Forall_forall in Hdur.
    now apply Hdur.
  - unfold durations in Hlt', Ed, Hlt. rewrite firstn_map in Hlt', Ed, Hlt.
    rewrite (Qsum_firstn_S seg_duration _ _ _ Hi) in Hlt'.
    destruct (Qlt_le_dec (pv_duration p)
                (rem - Qsum (map seg_duration (firstn i out)))) as [Hs | Hl].
    + rewrite Q.min_l in Ed by lra. exact Ed.
    + rewrite Q.min_r in Ed by lra. lra.
Qed.

End PoolFacts.

Module HandlerSpec.
Import Video VideoFacts HandlerFacts PoolFacts.

(** C1, as stated, fails: asked for half a second with one still image
    (a valid request: the target is positive and the image is usable), the
    handler returns a timeline of one segment that lasts 1 s, the least an
    image segment may last; the durations of the emitted segments exceed the
    target by half a second, far more than one frame. *)
Lemma short_target_timeline_runs_over :
  let image := mkImageSource "http://cdn/ok.png" true (Some (1000, 1000)%Z) in
  let req := mkRequest (1#2) [image] [] [] in
  0 < targetDuration req /\
  hasUsableSource EmptyString req = true /\
  exists timeline actualDuration duration,
    generateVideo916 EmptyString req
    = success timeline actualDuration duration /\
    Qsum (durations timeline) == 1 /\
    ~ (Qsum (durations timeline) <= targetDuration req + (1#30)).
Proof.
  split; [reflexivity|]. split; [reflexivity|].
  do 3 eexists. split; [reflexivity|].
  split; [reflexivity|]. vm_compute. intros H. apply H. reflexivity.
Qed.

(** C1, amended.  For a valid request (positive target, at least one usable
    source), whatever video the handler returns: the durations of the
    segments of its timeline add up to less than the target plus one second
    (the excess comes from the one-second floor of the last image segment);
    the video itself, the concatenation cut to the target when longer, lasts
    [min(sum, target)], no more than the target; and the duration reported in
    the answer, rounded to hundredths, stays within one frame (1/30 s) of the
    target.  The handler does return a video unless the run is aborted by a
    rejected await. *)
Theorem timeline_runs_over_by_less_than_a_second
    (BASE_URL : string) (req : Request) :
  0 < targetDuration req ->
  hasUsableSource BASE_URL req = true ->
  (forall timeline actualDuration duration,
      generateVideo916 BASE_URL req
      = success timeline actualDuration duration ->
      Qsum (durations timeline) < targetDuration req + 1 /\
      actualDuration == Qmin (Qsum (durations timeline)) (targetDuration req) /\
      actualDuration <= targetDuration req /\
      duration <= targetDuration req + (1#30)) /\
  (generateVideo916 BASE_URL req <> generation_failed ->
   exists timeline actualDuration duration,
     generateVideo916 BASE_URL req = success timeline actualDuration duration).
Proof.
  intros Htarget Husable. split.
  - intros timeline actualDuration duration Hok.
    destruct (success_inv _ _ _ _ _ Hok) as (_ & Hfiles & _ & Hmin & ->).
    destruct (assemble_pools _ _ _ _ _ Htarget Hfiles)
      as (clips & images & fillers & _ & _ & _ & _ & _ & _ & Hsum).
    assert (Hle : actualDuration <= targetDuration req)
      by (rewrite Hmin; apply Q.le_min_r).
    split; [exact Hsum|]. split; [exact Hmin|]. split; [exact Hle|].
    pose proof (toFixed2_upper actualDuration). lra.
  - intros Hrun.
    destruct (generate_cases _ _ Htarget Hrun)
      as [(_ & E1 & E2 & E3) | (files & Hfiles & ->)].
    { unfold hasUsableSource in Husable. rewrite E1, E2, E3 in Husable.
      discriminate. }
    destruct (assemble_spec _ _ _ _ _ Htarget Hfiles) as (Hne & _ & _).
    destruct (finish_spec (targetDuration req) files (Hne Husable))
      as (a & Hfin & _).
    exists files, a, (toFixed2 a). exact Hfin.
Qed.

Lemma timeline_runs_over_by_less_than_a_second_witness :
  let req :=
    mkRequest 10
      [mkImageSource "http://cdn/wide.png" true (Some (1000, 600)%Z)]
      [mkVideoSource "http://cdn/a.mp4" true (Some 4);
       mkVideoSource "http://cdn/b.mp4" true (Some 3)]
      [mkVideoSource "http://cdn/filler.mp4" true (Some 8)] in
  exists timeline actualDuration duration,
    generateVideo916 EmptyString req
    = success timeline actualDuration duration /\
    Qsum (durations timeline) < 10 + 1 /\
    actualDuration == Qmin (Qsum (durations timeline)) 10 /\
    actualDuration <= 10 /\
    duration <= 10 + (1#30).
Proof.
  destruct (timeline_runs_over_by_less_than_a_second EmptyString
              (mkRequest 10
                 [mkImageSource "http://cdn/wide.png" true
                    (Some (1000, 600)%Z)]
                 [mkVideoSource "http://cdn/a.mp4" true (Some 4);
                  mkVideoSource "http://cdn/b.mp4" true (Some 3)]
                 [mkVideoSource "http://cdn/filler.mp4" true (Some 8)])
              ltac:(reflexivity) ltac:(reflexivity))
    as [Hbound Hreturns].
  destruct (Hreturns ltac:(vm_compute; discriminate))
    as (timeline & actualDuration & duration & E).
  exists timeline, actualDuration, duration.
  split; [exact E | exact (Hbound _ _ _ E)].
Defined.

(** X12. The timeline of a returned video lists the pools in their order of
    priority: at most one clip segment made of the [videoUrls], then the
    image segments, each from a usable image of the request, then the
    segments of the [appendVideoUrls], each from an append video that
    downloaded and probed. *)
Theorem pools_appear_in_order (BASE_URL : string) (req : Request)
    (timeline : list Segment) (actualDuration duration : Q) :
  generateVideo916 BASE_URL req = success timeline actualDuration duration ->
  exists clips images fillers,
    timeline = clips ++ images ++ fillers /\
    (List.length clips <= 1)%nat /\
    Forall (fun seg => seg_kind seg = clip_segment /\
                       exists srcs, seg_source seg = FromVideos srcs) clips /\
    Forall (fun seg =>
              seg_kind seg <> clip_segment /\
              exists img,
                seg_source seg = FromImage img /\
                In img (normalizeImages BASE_URL (imageUrls req)) /\
                usableImage img = true) images /\
    Forall (fun seg =>
              seg_kind seg = clip_segment /\
              exists v,
                seg_source seg = FromAppend v /\
                In v (normalizeVideos BASE_URL (appendVideoUrls req)) /\
                usableVideo v = true) fillers.
Proof.
  intros H. destruct (success_inv _ _ _ _ _ H) as (Ht & Hfiles & _).
  destruct (assemble_pools _ _ _ _ _ Ht Hfiles)
    as (clips & images & fillers & E & H1 & Hle & Himg & _ & Hfil & _).
  exists clips, images, fillers. split; [exact E|].
  destruct (videoStage_segments _ _ _ Ht H1) as [Hlen Hclips].
  split; [exact Hlen|]. split; [exact Hclips|]. split.
  - destruct Himg as [-> | (Hlt & -> & Ecur)]; [constructor|].
    apply imageStagePlan_segments. lra.
  - destruct Hfil as [-> | (Hpos & Happ)]; [constructor|].
    exact (appendStage_segments _ _ _ Hpos Happ).
Qed.

Lemma pools_appear_in_order_witness :
  let req :=
    mkRequest 20
      [mkImageSource "http://cdn/square.png" true (Some (1000, 1000)%Z)]
      [mkVideoSource "http://cdn/a.mp4" true (Some 4)]
      [mkVideoSource "http://cdn/filler.mp4" true (Some 30)] in
  exists timeline actualDuration duration,
    generateVideo916 EmptyString req
    = success timeline actualDuration duration /\
    exists clips images fillers,
      timeline = clips ++ images ++ fillers /\
      (List.length clips <= 1)%nat /\
      Forall (fun seg => seg_kind seg = clip_segment /\
                         exists srcs, seg_source seg = FromVideos srcs)
        clips /\
      Forall (fun seg =>
                seg_kind seg <> clip_segment /\
                exists img,
                  seg_source seg = FromImage img /\
                  In img (normalizeImages EmptyString (imageUrls req)) /\
                  usableImage img = true) images /\
      Forall (fun seg =>
                seg_kind seg = clip_segment /\
                exists v,
                  seg_source seg = FromAppend v /\
                  In v (normalizeVideos EmptyString (appendVideoUrls req)) /\
                  usableVideo v = true) fillers.
Proof.
  do 3 eexists. split; [reflexivity|].
  apply (pools_appear_in_order EmptyString
           (mkRequest 20
              [mkImageSource "http://cdn/square.png" true
                 (Some (1000, 1000)%Z)]
              [mkVideoSource "http://cdn/a.mp4" true (Some 4)]
              [mkVideoSource "http://cdn/filler.mp4" true (Some 30)])
           _ _ _ eq_refl).
Defined.

(** X13. When every video of [videoUrls] downloads and probes and their
    durations add up to the target or more, the answer is a video of exactly
    the target duration made of the one clip segment: no image and no append
    video is used, and none of them can make the call fail. *)
Theorem clips_alone_fill_the_target (BASE_URL : string) (req : Request) :
  0 < targetDuration req ->
  forallb usableVideo (normalizeVideos BASE_URL (videoUrls req)) = true ->
  targetDuration req
  <= Qsum (videoCandidates (normalizeVideos BASE_URL (videoUrls req))) ->
  exists srcs t a,
    generateVideo916 BASE_URL req
    = success [mkSegment clip_segment (FromVideos srcs) t] a (toFixed2 a) /\
    t == targetDuration req /\ a == targetDuration req.
Proof.
  intros Ht Hvids Hfill.
  destruct (videoStage_resolves (targetDuration req) _ Hvids) as (clips & H1).
  destruct (videoStage_sum _ _ _ Ht H1) as (_ & Hle & Hshort & Hne & _).
  destruct (videoStage_spec _ _ _ Ht H1)
    as [_ [[Hnil _] | (new & t & _ & _ & -> & _)]].
  { rewrite Hnil in Hfill. change (Qsum (videoCandidates [])) with 0 in Hfill.
    lra. }
  unfold durations in Hle, Hshort. simpl map in Hle, Hshort.
  rewrite Qsum_cons, Qsum_nil in Hle, Hshort.
  assert (Et : t == targetDuration req).
  { destruct (Qlt_le_dec t (targetDuration req)) as [Hlt|Hge]; [|lra].
    specialize (Hshort ltac:(lra)). lra. }
  exists (map pv_source new), t, (Qsum [t]).
  split; [|split; [exact Et | rewrite Qsum_cons, Qsum_nil; lra]].
  unfold generateVideo916.
  assert (E0 : Qle_bool (targetDuration req) 0 = false)
    by (apply Qle_bool_false; exact Ht).
  rewrite E0.
  assert (Ev : isEmpty (videoUrls req) = false).
  { destruct (videoUrls req); [|reflexivity].
    simpl in H1. discriminate. }
  rewrite Ev, andb_false_r. cbn [andb].
  unfold compose.
  rewrite (assemble_clips_only _ _ _ _ _ H1 Et). cbn [bind].
  unfold finish. cbn [isEmpty].
  assert (E3 : Qlt_bool (targetDuration req)
                 (concatDuration
                    (durations
                       [mkSegment clip_segment (FromVideos (map pv_source new))
                          t])) = false).
  { apply Qlt_bool_false. unfold concatDuration, durations. simpl map.
    rewrite Qsum_cons, Qsum_nil. lra. }
  rewrite E3. reflexivity.
Qed.

Lemma clips_alone_fill_the_target_witness :
  exists srcs t a,
    generateVideo916 "http://cdn/"
      (mkRequest 10
         [mkImageSource "gone.png" false None]
         [mkVideoSource "a.mp4" true (Some 4);
          mkVideoSource "b.mp4" true (Some 7)]
         [mkVideoSource "broken.mp4" true None])
    = success [mkSegment clip_segment (FromVideos srcs) t] a (toFixed2 a) /\
    t == 10 /\ a == 10.
Proof.
  apply (clips_alone_fill_the_target "http://cdn/"
           (mkRequest 10
              [mkImageSource "gone.png" false None]
              [mkVideoSource "a.mp4" true (Some 4);
               mkVideoSource "b.mp4" true (Some 7)]
              [mkVideoSource "broken.mp4" true None])).
  - vm_compute. reflexivity.
  - vm_compute. reflexivity.
  - vm_compute. discriminate.
Defined.

(** X14. A returned video that is shorter than the target uses every usable
    source in full: its duration is the sum of all candidate durations, and
    nothing was cut. *)
Theorem short_video_uses_every_source (BASE_URL : string) (req : Request)
    (timeline : list Segment) (actualDuration duration : Q) :
  generateVideo916 BASE_URL req = success timeline actualDuration duration ->
  actualDuration < targetDuration req ->
  actualDuration == candidateTotal BASE_URL req /\
  actualDuration == Qsum (durations timeline).
Proof.
  intros H Hshort.
  destruct (success_inv _ _ _ _ _ H) as (Ht & Hfiles & _ & Hmin & _).
  destruct (assemble_spec _ _ _ _ _ Ht Hfiles) as (_ & _ & Hsum).
  assert (Hlt : Qsum (durations timeline) < targetDuration req).
  { destruct (Qlt_le_dec (Qsum (durations timeline)) (targetDuration req))
      as [Hlt | Hge]; [exact Hlt|].
    rewrite (Q.min_r _ _ Hge) in Hmin. lra. }
  rewrite Q.min_l in Hmin by lra.
  split; [|exact Hmin]. unfold candidateTotal.
  destruct Hsum as [Hsum | Hsum]; lra.
Qed.

Lemma short_video_uses_every_source_witness :
  let req :=
    mkRequest 30
      [mkImageSource "http://cdn/wide.png" true (Some (1000, 600)%Z)]
      [mkVideoSource "http://cdn/a.mp4" true (Some 4)]
      [mkVideoSource "http://cdn/filler.mp4" true (Some 8)] in
  exists timeline actualDuration duration,
    generateVideo916 EmptyString req
    = success timeline actualDuration duration /\
    actualDuration == candidateTotal EmptyString req /\
    actualDuration == Qsum (durations timeline).
Proof.
  do 3 eexists. split; [reflexivity|].
  apply (short_video_uses_every_source EmptyString
           (mkRequest 30
              [mkImageSource "http://cdn/wide.png" true
                 (Some (1000, 600)%Z)]
              [mkVideoSource "http://cdn/a.mp4" true (Some 4)]
              [mkVideoSource "http://cdn/filler.mp4" true (Some 8)])
           _ _ _ eq_refl).
  vm_compute. reflexivity.
Defined.

(** X15. When the probes report positive durations for the videos, every
    segment of a returned timeline lasts a positive time, and so does the
    returned video. *)
Theorem segments_last_a_positive_time (BASE_URL : string) (req : Request)
    (timeline : list Segment) (actualDuration duration : Q) :
  (forall v d,
      In v (videoUrls req ++ appendVideoUrls req) ->
      video_duration v = Some d -> 0 < d) ->
  generateVideo916 BASE_URL req = success timeline actualDuration duration ->
  Forall (fun seg => 0 < seg_duration seg) timeline /\
  0 < actualDuration.
Proof.
  intros Hpos H.
  destruct (success_inv _ _ _ _ _ H) as (Ht & Hfiles & Hne & Hmin & _).
  assert (Hall : Forall (fun seg => 0 < seg_duration seg) timeline).
  { destruct (assemble_pools _ _ _ _ _ Ht Hfiles)
      as (clips & images & fillers & -> & H1 & _ & Himg & _ & Hfil & _).
    apply Forall_app. split; [|apply Forall_app; split].
    - apply (videoStage_positive _ _ _ Ht) in H1; [exact H1|].
      intros v d Hv Hd.
      destruct (normalizeVideos_In _ _ _ Hv) as (u & Hu & Edur & _).
      apply (Hpos u d); [apply in_or_app; now left | congruence].
    - destruct Himg as [-> | (Hlt & -> & Ecur)]; [constructor|].
      eapply Forall_impl; [|apply imageStagePlan_positive; lra].
      simpl. intros seg Hseg. lra.
    - destruct Hfil as [-> | (Hrem & Happ)]; [constructor|].
      apply (appendStage_positive _ _ _ Hrem) in Happ; [exact Happ|].
      intros v d Hv Hd.
      destruct (normalizeVideos_In _ _ _ Hv) as (u & Hu & Edur & _).
      apply (Hpos u d); [apply in_or_app; now right | congruence]. }
  split; [exact Hall|].
  assert (Hsum : 0 < Qsum (durations timeline)).
  { apply Qsum_positive.
    - unfold durations. apply Forall_forall. intros x Hx.
      apply in_map_iff in Hx as (seg & <- & Hseg).
      exact (proj1 (Forall_forall _ _) Hall seg Hseg).
    - destruct timeline; [congruence | discriminate]. }
  rewrite Hmin. apply Q.min_glb_lt; assumption.
Qed.

Lemma segments_last_a_positive_time_witness :
  let req :=
    mkRequest 20
      [mkImageSource "http://cdn/square.png" true (Some (1000, 1000)%Z)]
      [mkVideoSource "http://cdn/a.mp4" true (Some 4)]
      [mkVideoSource "http://cdn/filler.mp4" true (Some 30)] in
  exists timeline actualDuration duration,
    generateVideo916 EmptyString req
    = success timeline actualDuration duration /\
    Forall (fun seg => 0 < seg_duration seg) timeline /\
    0 < actualDuration.
Proof.
  do 3 eexists. split; [reflexivity|].
  eapply (segments_last_a_positive_time EmptyString
            (mkRequest 20
               [mkImageSource "http://cdn/square.png" true
                  (Some (1000, 1000)%Z)]
               [mkVideoSource "http://cdn/a.mp4" true (Some 4)]
               [mkVideoSource "http://cdn/filler.mp4" true (Some 30)])).
  - intros v d [<- | [<- | []]] E; injection E as <-;
      vm_compute; reflexivity.
  - reflexivity.
Defined.

(** X16. What the three pools put together exceeds the target by less than
    one second: the final cut to [targetDuration] removes less than a
    second (the one-second floor of the last image segment is all that can
    overshoot). *)
Theorem final_cut_removes_less_than_a_second (BASE_URL : string)
    (req : Request) (timeline : list Segment)
    (actualDuration duration : Q) :
  generateVideo916 BASE_URL req = success timeline actualDuration duration ->
  Qsum (durations timeline) - actualDuration < 1 /\
  actualDuration <= Qsum (durations timeline).
Proof.
  intros H.
  destruct (success_inv _ _ _ _ _ H) as (Ht & Hfiles & _ & Hmin & _).
  destruct (assemble_pools _ _ _ _ _ Ht Hfiles)
    as (clips & images & fillers & _ & _ & _ & _ & _ & _ & Hsum).
  rewrite Hmin.
  destruct (Qlt_le_dec (Qsum (durations timeline)) (targetDuration req))
    as [Hlt | Hge].
  - rewrite Q.min_l by lra. lra.
  - rewrite Q.min_r by lra. lra.
Qed.

Lemma final_cut_removes_less_than_a_second_witness :
  let req :=
    mkRequest (9 # 2)
      [mkImageSource "http://cdn/wide.png" true (Some (1000, 600)%Z)]
      [mkVideoSource "http://cdn/a.mp4" true (Some 4)] [] in
  exists timeline actualDuration duration,
    generateVideo916 EmptyString req
    = success timeline actualDuration duration /\
    Qsum (durations timeline) - actualDuration < 1 /\
    actualDuration <= Qsum (durations timeline).
Proof.
  do 3 eexists. split; [reflexivity|].
  apply (final_cut_removes_less_than_a_second EmptyString
           (mkRequest (9 # 2)
              [mkImageSource "http://cdn/wide.png" true
                 (Some (1000, 600)%Z)]
              [mkVideoSource "http://cdn/a.mp4" true (Some 4)] [])
           _ _ _ eq_refl).
Defined.

(** X17. The branch an image takes, by its probed size.  When
    [2160 * height < 3841 * width], that is when the image scaled to the
    frame width is less than half a pixel higher than the frame, the handler
    makes a still of 5 s fitted to the budget.  When
    [2160 * height > 3841 * width] it takes the scrolling branch, and the
    render of that branch is rejected.  The tie
    [2160 * height = 3841 * width] is left out: there the scaled height is
    exactly a half, and the rounding of the product decides. *)
Theorem image_branch_follows_scaled_height (image : ValidImage)
    (accumulatedDuration remainingDuration : Q) :
  (0 < vi_width image)%Z ->
  ((2160 * vi_height image < 3841 * vi_width image)%Z ->
   imageVideo image accumulatedDuration remainingDuration
   = Resolved
       (mkSegment static_image_segment (FromImage (vi_source image))
          (fitImageDuration accumulatedDuration remainingDuration 5))) /\
  ((3841 * vi_width image < 2160 * vi_height image)%Z ->
   fst (imageCandidate (vi_width image) (vi_height image))
   = scrolling_image_segment /\
   imageVideo image accumulatedDuration remainingDuration = Rejected).
Proof.
  intros Hw.
  pose proof (scaledHeight_above (vi_width image) (vi_height image) Hw)
    as Hiff.
  unfold imageVideo, plannedImageVideo, imageCandidate.
  destruct (VIDEO_HEIGHT <? scaledHeight (vi_width image) (vi_height image))%Z
    eqn:E.
  - apply Z.ltb_lt in E. apply Hiff in E. split.
    + intros Hlt. lia.
    + intros _. split; reflexivity.
  - apply Z.ltb_ge in E. split.
    + intros _. reflexivity.
    + intros Hgt.
      assert (VIDEO_HEIGHT < scaledHeight (vi_width image) (vi_height image))%Z
        by (apply Hiff; lia).
      lia.
Qed.

Lemma image_branch_follows_scaled_height_witness :
  let wide := mkImageSource "http://cdn/wide.png" true (Some (1000, 600)%Z) in
  imageVideo (mkValidImage wide 1000 600) 4 10
  = Resolved (mkSegment static_image_segment (FromImage wide)
                (fitImageDuration 4 10 5)).
Proof.
  apply (image_branch_follows_scaled_height
           (mkValidImage
              (mkImageSource "http://cdn/wide.png" true (Some (1000, 600)%Z))
              1000 600) 4 10); simpl; lia.
Defined.

(** X25. In a successful answer every segment made from an image is a still:
    it comes from an image that downloaded, whose probed width and height are
    both at least 500 px and whose height, scaled to the frame width, is at
    most half a pixel above the frame height
    ([2160 * height <= 3841 * width]); its duration is the 5 s of a still
    image fitted to the budget.  So a smaller image never yields a segment,
    and neither does an image that scrolls. *)
Theorem image_segments_are_stills
    (BASE_URL : string) (req : Request)
    (timeline : list Segment) (actualDuration duration : Q)
    (seg : Segment) (img : ImageSource) :
  generateVideo916 BASE_URL req = success timeline actualDuration duration ->
  In seg timeline ->
  seg_source seg = FromImage img ->
  exists width height accumulated remaining,
    image_download img = true /\
    image_dimensions img = Some (width, height) /\
    (500 <= width)%Z /\ (500 <= height)%Z /\
    (2160 * height <= 3841 * width)%Z /\
    seg_kind seg = static_image_segment /\
    seg_duration seg = fitImageDuration accumulated remaining 5.
Proof.
  intros Hok Hin Hsrc.
  assert (Htarget : 0 < targetDuration req).
  { unfold generateVideo916 in Hok.
    destruct (Qle_bool (targetDuration req) 0) eqn:Et; [discriminate|].
    now apply Qle_bool_false in Et. }
  destruct (generate_cases BASE_URL req Htarget ltac:(congruence))
    as [(E & _) | (files & Hfiles & E)]; [congruence|].
  rewrite E in Hok. unfold finish in Hok.
  destruct (isEmpty files); [discriminate|]. injection Hok as <- _ _.
  pose proof (assemble_rendered _ _ _ _ _ Hfiles) as (g1 & Hg1 & Hstill).
  apply assemble_inv in Hfiles.
  destruct Hfiles as (f1 & f2 & f3 & Hv & -> & Hf2 & Hf3).
  rewrite Hv in Hg1. injection Hg1 as <-.
  apply in_app_or in Hin. destruct Hin as [Hin | Hin];
    [apply in_app_or in Hin; destruct Hin as [Hin | Hin]|].
  - (* from the videos *)
    destruct (videoStage_sum _ _ _ Htarget Hv) as (_ & _ & _ & _ & Hfrom).
    destruct (Hfrom _ Hin) as (srcs & Hc). congruence.
  - (* from the images *)
    remember (targetDuration req - currentDurationOf f1) as rem2 eqn:Erem2.
    destruct (Qlt_bool 0 rem2 &&
              negb (isEmpty (normalizeImages BASE_URL (imageUrls req))))
      eqn:Econd; [|subst f2; destruct Hin].
    destruct (Hstill eq_refl) as [_ Hstatic].
    subst f2.
    assert (E2 : 0 < rem2).
    { apply andb_true_iff in Econd. now apply Qlt_bool_iff. }
    rewrite Forall_forall in Hstatic. pose proof (Hstatic _ Hin) as Hk.
    apply In_nth_error in Hin. destruct Hin as (i & Hi).
    destruct (imageStagePlan_spec rem2
                (normalizeImages BASE_URL (imageUrls req)) E2)
      as (_ & _ & Hnth & _).
    destruct (Hnth i seg Hi) as (image & acc & Him & _ & _ & ->).
    destruct (plannedImageVideo_fields image acc rem2) as (Hkind & Hs & Hd).
    rewrite Hs in Hsrc. injection Hsrc as <-.
    apply nth_error_In, filterImages_In in Him.
    destruct Him as (Hdl & Hdim & Hw & Hh).
    unfold downloadImages in Hdl. apply filter_In in Hdl.
    exists (vi_width image), (vi_height image), acc, rem2.
    split; [apply Hdl|]. split; [exact Hdim|]. split; [exact Hw|].
    split; [exact Hh|].
    rewrite Hkind in Hk. rewrite Hd. unfold candidateOf.
    revert Hk. unfold imageCandidate. change VIDEO_HEIGHT with 1920%Z.
    destruct (Z.ltb_spec 1920 (scaledHeight (vi_width image) (vi_height image)));
      cbn [fst snd]; intros Hk; [discriminate|].
    split.
    { pose proof (scaledHeight_above (vi_width image) (vi_height image)
                    ltac:(lia)) as Hiff.
      change VIDEO_HEIGHT with 1920%Z in Hiff.
      assert (~ (3841 * vi_width image <= 2160 * vi_height image)%Z)
        by (intros Hc; apply Hiff in Hc; lia).
      lia. }
    split; [rewrite Hkind; unfold imageCandidate;
      change VIDEO_HEIGHT with 1920%Z;
      destruct (Z.ltb_spec 1920
                  (scaledHeight (vi_width image) (vi_height image)));
      [lia | reflexivity] | reflexivity].
  - (* from the append videos *)
    set (rem3 := targetDuration req - Qsum (durations (f1 ++ f2))) in *.
    destruct (Qlt_bool 0 rem3) eqn:E3; simpl in Hf3;
      [|injection Hf3 as <-; destruct Hin].
    apply Qlt_bool_iff in E3.
    destruct (negb (isEmpty (normalizeVideos BASE_URL (appendVideoUrls req))));
      [|injection Hf3 as <-; destruct Hin].
    destruct (appendStage_spec rem3 _ _ E3 Hf3) as (new & _ & _ & _ & Hnth & _).
    apply In_nth_error in Hin. destruct Hin as (i & Hi).
    destruct (Hnth i seg Hi) as (p & _ & _ & Hc & _). congruence.
Qed.

Lemma image_segments_are_stills_witness :
  let wide := mkImageSource "http://cdn/wide.png" true (Some (1000, 600)%Z) in
  let req :=
    mkRequest 10 [wide]
      [mkVideoSource "http://cdn/a.mp4" true (Some 4);
       mkVideoSource "http://cdn/b.mp4" true (Some 3)] [] in
  exists timeline actualDuration duration seg,
    generateVideo916 EmptyString req
    = success timeline actualDuration duration /\
    nth_error timeline 1 = Some seg /\
    seg_source seg = FromImage wide /\
    seg_kind seg = static_image_segment /\
    exists accumulated remaining,
      seg_duration seg = fitImageDuration accumulated remaining 5.
Proof.
  do 4 eexists. split; [reflexivity|]. split; [reflexivity|].
  split; [reflexivity|].
  edestruct (image_segments_are_stills EmptyString
               (mkRequest 10
                  [mkImageSource "http://cdn/wide.png" true
                     (Some (1000, 600)%Z)]
                  [mkVideoSource "http://cdn/a.mp4" true (Some 4);
                   mkVideoSource "http://cdn/b.mp4" true (Some 3)] []))
    as (w & h & acc & rem & _ & _ & _ & _ & _ & Hkind & Hdur).
  - reflexivity.
  - right. left. reflexivity.
  - reflexivity.
  - split; [exact Hkind|]. exists acc, rem. exact Hdur.
Defined.

(** X18. The [duration] written into the answer is the actual duration
    rounded to hundredths of a second: a whole number of hundredths that
    differs from the actual duration by at most 0.005 s. *)
Theorem reported_duration_is_in_hundredths (BASE_URL : string)
    (req : Request) (timeline : list Segment)
    (actualDuration duration : Q) :
  generateVideo916 BASE_URL req = success timeline actualDuration duration ->
  (exists k : Z, duration * 100 == inject_Z k) /\
  actualDuration - (1 # 200) <= duration /\
  duration <= actualDuration + (1 # 200).
Proof.
  intros H.
  destruct (success_inv _ _ _ _ _ H) as (_ & _ & _ & _ & ->).
  destruct (toFixed2_near actualDuration) as (H1 & H2 & H3).
  split; [exact H3|]. split; assumption.
Qed.

Lemma reported_duration_is_in_hundredths_witness :
  let req :=
    mkRequest 10 [] [mkVideoSource "http://cdn/a.mp4" true (Some (10 # 3))]
      [] in
  exists timeline actualDuration duration,
    generateVideo916 EmptyString req
    = success timeline actualDuration duration /\
    (exists k : Z, duration * 100 == inject_Z k) /\
    actualDuration - (1 # 200) <= duration /\
    duration <= actualDuration + (1 # 200).
Proof.
  do 3 eexists. split; [reflexivity|].
  apply (reported_duration_is_in_hundredths EmptyString
           (mkRequest 10 []
              [mkVideoSource "http://cdn/a.mp4" true (Some (10 # 3))] [])
           _ _ _ eq_refl).
Defined.

(** X21. Each pool takes its sources in the order of the request and skips
    no usable one: the clip segment is made of the first videos of
    [videoUrls], the image segments come one by one from the first usable
    images, the append segments from the first append videos that
    downloaded. *)
Theorem sources_are_used_in_request_order (BASE_URL : string)
    (req : Request) (timeline : list Segment)
    (actualDuration duration : Q) :
  generateVideo916 BASE_URL req = success timeline actualDuration duration ->
  exists clips images fillers,
    timeline = clips ++ images ++ fillers /\
    (clips = [] \/
     exists k t,
       (0 < k)%nat /\
       clips = [mkSegment clip_segment
                  (FromVideos
                     (firstn k (normalizeVideos BASE_URL (videoUrls req))))
                  t]) /\
    map seg_source images
    = map (fun image => FromImage (vi_source image))
        (firstn (List.length images)
           (filterImages
              (downloadImages (normalizeImages BASE_URL (imageUrls req))))) /\
    map seg_source fillers
    = map FromAppend
        (firstn (List.length fillers)
           (downloadAppendVideos
              (normalizeVideos BASE_URL (appendVideoUrls req)))).
Proof.
  intros H. destruct (success_inv _ _ _ _ _ H) as (Ht & Hfiles & _).
  destruct (assemble_pools _ _ _ _ _ Ht Hfiles)
    as (clips & images & fillers & E & H1 & _ & Himg & _ & Hfil & _).
  exists clips, images, fillers. split; [exact E|]. split; [|split].
  - destruct (videoStage_spec _ _ _ Ht H1)
      as [_ [[_ ->] | (new & t & _ & Hne & -> & Hsrc & _)]]; [now left|].
    right. exists (List.length new), t. split.
    + destruct new; [congruence | simpl; lia].
    + now rewrite Hsrc.
  - destruct Himg as [-> | (Hlt & -> & Ecur)]; [reflexivity|].
    apply imageStagePlan_sources. lra.
  - destruct Hfil as [-> | (Hpos & Happ)]; [reflexivity|].
    exact (appendStage_sources _ _ _ Hpos Happ).
Qed.

Lemma sources_are_used_in_request_order_witness :
  let req :=
    mkRequest 12
      [mkImageSource "http://cdn/small.png" true (Some (400, 300)%Z);
       mkImageSource "http://cdn/wide.png" true (Some (1000, 600)%Z);
       mkImageSource "http://cdn/square.png" true (Some (1000, 1000)%Z)]
      [mkVideoSource "http://cdn/a.mp4" true (Some 4)]
      [mkVideoSource "http://cdn/gone.mp4" false None;
       mkVideoSource "http://cdn/filler.mp4" true (Some 30)] in
  exists timeline actualDuration duration,
    generateVideo916 EmptyString req
    = success timeline actualDuration duration /\
    exists clips images fillers,
      timeline = clips ++ images ++ fillers /\
      (clips = [] \/
       exists k t,
         (0 < k)%nat /\
         clips = [mkSegment clip_segment
                    (FromVideos
                       (firstn k
                          (normalizeVideos EmptyString (videoUrls req))))
                    t]) /\
      map seg_source images
      = map (fun image => FromImage (vi_source image))
          (firstn (List.length images)
             (filterImages
                (downloadImages
                   (normalizeImages EmptyString (imageUrls req))))) /\
      map seg_source fillers
      = map FromAppend
          (firstn (List.length fillers)
             (downloadAppendVideos
                (normalizeVideos EmptyString (appendVideoUrls req)))).
Proof.
  do 3 eexists. split; [reflexivity|].
  apply (sources_are_used_in_request_order EmptyString
           (mkRequest 12
              [mkImageSource "http://cdn/small.png" true
                 (Some (400, 300)%Z);
               mkImageSource "http://cdn/wide.png" true
                 (Some (1000, 600)%Z);
               mkImageSource "http://cdn/square.png" true
                 (Some (1000, 1000)%Z)]
              [mkVideoSource "http://cdn/a.mp4" true (Some 4)]
              [mkVideoSource "http://cdn/gone.mp4" false None;
               mkVideoSource "http://cdn/filler.mp4" true (Some 30)])
           _ _ _ eq_refl).
Defined.

(** X22. In the image pool and in the append pool only the last segment is
    ever shortened: a segment that is followed by another segment of its
    pool lasts its full candidate duration. *)
Theorem only_the_last_segment_is_shortened (remaining : Q) :
  0 < remaining ->
  (forall imgs files i seg next,
      imageStage remaining imgs = Resolved files ->
      nth_error files i = Some seg ->
      nth_error files (S i) = Some next ->
      exists image,
        nth_error (filterImages (downloadImages imgs)) i = Some image /\
        seg_duration seg = candidateOf image) /\
  (forall apps out i seg next,
      appendStage remaining apps = Resolved out ->
      nth_error out i = Some seg ->
      nth_error out (S i) = Some next ->
      exists v d,
        nth_error (downloadAppendVideos apps) i = Some v /\
        video_duration v = Some d /\
        seg_duration seg == d).
Proof.
  intros Hrem. split.
  - intros imgs files i seg next Hfiles.
    destruct (imageStage_Resolved _ _ _ Hfiles) as [-> _].
    now apply imageStagePlan_full.
  - intros apps out i seg next. now apply appendStage_full.
Qed.

Lemma only_the_last_segment_is_shortened_witness :
  let imgs :=
    [mkImageSource "http://cdn/wide.png" true (Some (1000, 600)%Z);
     mkImageSource "http://cdn/square.png" true (Some (1000, 1000)%Z)] in
  let apps :=
    [mkVideoSource "http://cdn/a.mp4" true (Some 4);
     mkVideoSource "http://cdn/b.mp4" true (Some 30)] in
  (exists files seg next image,
      imageStage 7 imgs = Resolved files /\
      nth_error files 0 = Some seg /\
      nth_error files 1 = Some next /\
      nth_error (filterImages (downloadImages imgs)) 0 = Some image /\
      seg_duration seg = candidateOf image) /\
  (exists out seg next v d,
      appendStage 7 apps = Resolved out /\
      nth_error out 0 = Some seg /\
      nth_error out 1 = Some next /\
      nth_error (downloadAppendVideos apps) 0 = Some v /\
      video_duration v = Some d /\
      seg_duration seg == d).
Proof.
  destruct (only_the_last_segment_is_shortened 7
              ltac:(vm_compute; reflexivity)) as [Himages Hfillers].
  split.
  - do 3 eexists.
    edestruct (Himages
                 [mkImageSource "http://cdn/wide.png" true
                    (Some (1000, 600)%Z);
                  mkImageSource "http://cdn/square.png" true
                    (Some (1000, 1000)%Z)])
      with (i := 0%nat)
      as (image & Himage & Hd); [reflexivity | reflexivity | reflexivity |].
    exists image. split; [reflexivity|]. split; [reflexivity|].
    split; [reflexivity|]. split; [exact Himage | exact Hd].
  - do 3 eexists.
    edestruct (Hfillers
                 [mkVideoSource "http://cdn/a.mp4" true (Some 4);
                  mkVideoSource "http://cdn/b.mp4" true (Some 30)])
      with (i := 0%nat)
      as (v & d & Hv & Hdur & Hd); [reflexivity | reflexivity | reflexivity |].
    exists v, d. split; [reflexivity|]. split; [reflexivity|].
    split; [reflexivity|]. split; [exact Hv|]. split; [exact Hdur | exact Hd].
Defined.

End HandlerSpec.

(** ** Colours *)

Module ColorFacts.
Import Subtitle Srt Color SrtFacts.

(** *** Components up to 255 *)

Lemma below_256 (P : N -> bool) :
  forallb (fun n => P (N.of_nat n)) (seq 0 256) = true ->
  forall n, (n <= 255)%N -> P n = true.
Proof.
  intros H n Hn. rewrite forallb_forall in H.
  specialize (H (N.to_nat n)). rewrite N2Nat.id in H.
  apply H. apply in_seq. lia.
Qed.

Lemma sameString_eq (s1 s2 : jsstring) : sameString s1 s2 = true -> s1 = s2.
Proof. unfold sameString. now destruct (list_eq_dec N.eq_dec s1 s2). Qed.

(** A decimal numeral up to 255 is read back and printed in two hexadecimal
    digits. *)
Lemma component_decimal (n : N) :
  (n <= 255)%N ->
  component (decimal n) = [hexDigit (n / 16); hexDigit (n mod 16)].
Proof.
  intros Hn. apply sameString_eq.
  apply (below_256 (fun n => sameString (component (decimal n))
                                [hexDigit (n / 16); hexDigit (n mod 16)]));
    [|exact Hn].
  vm_compute. reflexivity.
Qed.

Lemma decimal_digits (n : N) :
  (n <= 255)%N ->
  forallb isDigit (decimal n) = true /\ decimal n <> [].
Proof.
  intros Hn.
  assert (H : forallb isDigit (decimal n)
              && negb (isEmptyString (decimal n)) = true).
  { apply (below_256 (fun n => forallb isDigit (decimal n)
                                && negb (isEmptyString (decimal n))));
      [|exact Hn].
    vm_compute. reflexivity. }
  apply andb_true_iff in H as [H1 H2]. split; [exact H1|].
  destruct (decimal n); [discriminate | discriminate].
Qed.

Lemma width_two (n : N) :
  (n <= 255)%N -> List.length (padStartUnits (toString16 n) 2) = 2%nat.
Proof.
  intros Hn. apply Nat.eqb_eq.
  apply (below_256
           (fun n => (List.length (padStartUnits (toString16 n) 2) =? 2)%nat));
    [|exact Hn].
  vm_compute. reflexivity.
Qed.

(** *** The pattern on a well-formed triple *)

Lemma digits_app : forall ds tail,
  forallb isDigit ds = true ->
  match tail with [] => True | c :: _ => isDigit c = false end ->
  digits (ds ++ tail) = (ds, tail).
Proof.
  induction ds as [|d ds IH]; intros tail Hds Htail; simpl.
  - destruct tail as [|c tail]; [reflexivity|]. simpl. now rewrite Htail.
  - simpl in Hds. apply andb_true_iff in Hds as [Hd Hds].
    now rewrite Hd, (IH tail Hds Htail).
Qed.

Lemma number_app ds tail :
  forallb isDigit ds = true -> ds <> [] ->
  match tail with [] => True | c :: _ => isDigit c = false end ->
  number (ds ++ tail) = Some (ds, tail).
Proof.
  intros Hds Hne Htail. unfold number. rewrite (digits_app _ _ Hds Htail).
  destruct ds; [congruence | reflexivity].
Qed.

Lemma digit_not_white (c : N) : isDigit c = true -> isWhiteSpace c = false.
Proof.
  unfold isDigit. intros H. apply andb_true_iff in H as [H1 H2].
  apply N.leb_le in H1, H2.
  assert (Hc : In c [48; 49; 50; 51; 52; 53; 54; 55; 56; 57]%N).
  { simpl. lia. }
  simpl in Hc.
  repeat (destruct Hc as [<- | Hc]; [reflexivity|]). contradiction.
Qed.

Lemma trimStart_white_app : forall ws s,
  forallb isWhiteSpace ws = true -> trimStart (ws ++ s) = trimStart s.
Proof.
  induction ws as [|c ws IH]; intros s H; simpl; [reflexivity|].
  simpl in H. apply andb_true_iff in H as [Hc Hws]. rewrite Hc. now apply IH.
Qed.

Lemma trimStart_numeral ws ds tail :
  forallb isWhiteSpace ws = true ->
  forallb isDigit ds = true -> ds <> [] ->
  trimStart (ws ++ ds ++ tail) = ds ++ tail.
Proof.
  intros Hws Hds Hne. rewrite (trimStart_white_app _ _ Hws).
  destruct ds as [|d ds]; [congruence|]. simpl in Hds.
  apply andb_true_iff in Hds as [Hd _]. simpl.
  now rewrite (digit_not_white _ Hd).
Qed.

Lemma matchRgbHere_triple r g b w1 w2 :
  forallb isDigit r = true -> r <> [] ->
  forallb isDigit g = true -> g <> [] ->
  forallb isDigit b = true -> b <> [] ->
  forallb isWhiteSpace w1 = true -> forallb isWhiteSpace w2 = true ->
  matchRgbHere (ofString "rgb(" ++ r ++ ofString "," ++ w1 ++ g
                ++ ofString "," ++ w2 ++ b ++ ofString ")")
  = Some (r, g, b).
Proof.
  intros Hr Nr Hg Ng Hb Nb Hw1 Hw2. unfold matchRgbHere.
  change (ofString "rgb(") with [114; 103; 98; 40]%N.
  change (ofString ",") with [44]%N. change (ofString ")") with [41]%N.
  cbn [literal app N.eqb Pos.eqb].
  rewrite (number_app r _ Hr Nr) by reflexivity.
  cbn [literal app N.eqb Pos.eqb].
  rewrite (trimStart_numeral w1 g _ Hw1 Hg Ng).
  rewrite (number_app g _ Hg Ng) by reflexivity.
  cbn [literal app N.eqb Pos.eqb].
  rewrite (trimStart_numeral w2 b _ Hw2 Hb Nb).
  rewrite (number_app b _ Hb Nb) by reflexivity.
  reflexivity.
Qed.

End ColorFacts.

Module ColorSpec.
Import Subtitle Srt Color SrtFacts ColorFacts.

(** X19. [parseColorForFFmpeg] always answers [0x] followed by six code
    units, unless the colour holds an [rgb(r, g, b)] with a component above
    255 (which is printed in three hexadecimal digits or more). *)
Theorem colour_has_six_digits (color : jsstring) :
  (forall r g b,
      matchRgb color = Some (r, g, b) ->
      (parseInt r <= 255 /\ parseInt g <= 255 /\ parseInt b <= 255)%N) ->
  exists six,
    parseColorForFFmpeg color = ofString "0x" ++ six /\
    List.length six = 6%nat.
Proof.
  intros Hrgb. unfold parseColorForFFmpeg.
  destruct (isEmptyString color).
  { exists (ofString "000000"). split; reflexivity. }
  assert (Hform : exists six,
            match matchRgb color with
            | Some (r, g, b) =>
                ofString "0x" ++ component r ++ component g ++ component b
            | None => ofString "0x000000"
            end = ofString "0x" ++ six /\ List.length six = 6%nat).
  { destruct (matchRgb color) as [[[r g] b]|].
    - destruct (Hrgb r g b eq_refl) as (Hr & Hg & Hb).
      exists (component r ++ component g ++ component b).
      split; [reflexivity|]. unfold component.
      rewrite !length_app, !width_two by assumption. reflexivity.
    - exists (ofString "000000"). split; reflexivity. }
  destruct (literal (ofString "#") color) as [hex|]; [|exact Hform].
  destruct (List.length hex =? 3)%nat eqn:E3.
  { apply Nat.eqb_eq in E3.
    destruct hex as [|a [|b [|c [|d hex]]]]; try discriminate.
    exists [a; a; b; b; c; c]. split; reflexivity. }
  destruct (List.length hex =? 6)%nat eqn:E6; [|exact Hform].
  apply Nat.eqb_eq in E6. exists hex. split; [reflexivity | exact E6].
Qed.

Lemma colour_has_six_digits_witness :
  exists six,
    parseColorForFFmpeg (ofString "rgb(255, 128, 0)") = ofString "0x" ++ six /\
    List.length six = 6%nat.
Proof.
  apply (colour_has_six_digits (ofString "rgb(255, 128, 0)")).
  intros r g b E. vm_compute in E. injection E as <- <- <-.
  vm_compute. repeat split; discriminate.
Defined.

(** X20. A colour written [rgb(r, g, b)] with components up to 255, with
    any white space after the commas, is answered as [0x] followed by the
    two lower-case hexadecimal digits of [r], of [g] and of [b]. *)
Theorem rgb_triple_is_printed_in_hex (r g b : N) (w1 w2 : jsstring) :
  (r <= 255)%N -> (g <= 255)%N -> (b <= 255)%N ->
  forallb isWhiteSpace w1 = true -> forallb isWhiteSpace w2 = true ->
  parseColorForFFmpeg
    (ofString "rgb(" ++ decimal r ++ ofString "," ++ w1 ++ decimal g
     ++ ofString "," ++ w2 ++ decimal b ++ ofString ")")
  = ofString "0x"
    ++ [hexDigit (r / 16); hexDigit (r mod 16);
        hexDigit (g / 16); hexDigit (g mod 16);
        hexDigit (b / 16); hexDigit (b mod 16)].
Proof.
  intros Hr Hg Hb Hw1 Hw2.
  destruct (decimal_digits r Hr) as [Dr Nr].
  destruct (decimal_digits g Hg) as [Dg Ng].
  destruct (decimal_digits b Hb) as [Db Nb].
  pose proof (matchRgbHere_triple _ _ _ _ _ Dr Nr Dg Ng Db Nb Hw1 Hw2) as Hm.
  unfold parseColorForFFmpeg.
  remember (ofString "rgb(" ++ decimal r ++ ofString "," ++ w1 ++ decimal g
            ++ ofString "," ++ w2 ++ decimal b ++ ofString ")") as color
    eqn:Ecolor.
  assert (Hhead : exists rest, color = 114%N :: rest).
  { rewrite Ecolor. eexists. reflexivity. }
  destruct Hhead as [rest Ehead].
  assert (Hmatch : matchRgb color = Some (decimal r, decimal g, decimal b)).
  { rewrite Ehead in *. cbn [matchRgb]. now rewrite Hm. }
  rewrite Hmatch. rewrite Ehead.
  cbn [isEmptyString]. change (ofString "#") with [35%N].
  cbn [literal N.eqb Pos.eqb].
  now rewrite !component_decimal by assumption.
Qed.

Lemma rgb_triple_is_printed_in_hex_witness :
  parseColorForFFmpeg
    (ofString "rgb(" ++ decimal 255 ++ ofString "," ++ [32%N] ++ decimal 128
     ++ ofString "," ++ [] ++ decimal 0 ++ ofString ")")
  = ofString "0x"
    ++ [hexDigit (255 / 16); hexDigit (255 mod 16);
        hexDigit (128 / 16); hexDigit (128 mod 16);
        hexDigit (0 / 16); hexDigit (0 mod 16)].
Proof.
  apply (rgb_triple_is_printed_in_hex 255 128 0 [32%N] []);
    try reflexivity; vm_compute; discriminate.
Defined.

End ColorSpec.

(** ** Binary64 arithmetic at three places *)

Module Binary64Facts.
Import PrimFloat Binary64.

(** The constants are the doubles nearest to 0.9 and 0.3. *)
Lemma constants_are_nearest :
  (exists v, valueOf nine_tenths = Some v /\
             v - (9#10) <= 1 # 18014398509481984 /\
             (9#10) - v <= 1 # 18014398509481984) /\
  (exists v, valueOf three_tenths = Some v /\
             v - (3#10) <= 1 # 36028797018963968 /\
             (3#10) - v <= 1 # 36028797018963968).
Proof.
  split; eexists; (split; [vm_compute; reflexivity|]);
    split; vm_compute; discriminate.
Qed.

(** The all-punctuation branch misses the end of the block.  The text "。。。"
    gives three fragments of punctuation only; in a block of 0.9 s that
    starts at 0 the last one ends at [0 + 3 * (0.9 / 3)], which on doubles
    is 0.8999999999999999, one unit in the last place below the
    [startTime + totalDuration] it would be reset to in the main branch; on
    exact rationals the two agree. *)
Lemma even_shares_end_before_the_block :
  let segments := Subtitle.splitTextByPunctuation [0x3002; 0x3002; 0x3002]%N in
  List.length segments = 3%nat /\
  Subtitle.totalChars segments = 0%nat /\
  ltb (evenSplitEndTime nine_tenths 0 3 2) (0 + nine_tenths)%float = true /\
  valueOf (evenSplitEndTime nine_tenths 0 3 2)
  = Some (8106479329266892 # 9007199254740992) /\
  valueOf (0 + nine_tenths)%float
  = Some (8106479329266893 # 9007199254740992) /\
  exists last,
    nth_error (Subtitle.calculateSubtitleTimings segments (9#10) 0) 2
    = Some last /\
    Subtitle.endTime last == 0 + (9#10).
Proof.
  split; [reflexivity|]. split; [reflexivity|].
  split; [vm_compute; reflexivity|].
  split; [vm_compute; reflexivity|].
  split; [vm_compute; reflexivity|].
  eexists. split; [reflexivity|]. vm_compute. reflexivity.
Qed.

(** The product [(seconds % 1) * 1000] of [formatSrtTime] is rounded before
    it is floored.  For the double 0.3, whose exact value lies below 3/10,
    the rounded product is 300, while the exact product is below 300 and
    [millisecondsOf] gives 299. *)
Lemma rounded_product_reaches_the_next_millisecond :
  exists v,
    valueOf three_tenths = Some v /\
    v < 3#10 /\
    eqb (millisecondsProduct three_tenths) 300%float = true /\
    Srt.millisecondsOf v = 299%Z.
Proof.
  eexists. split; [vm_compute; reflexivity|].
  split; [vm_compute; reflexivity|].
  split; vm_compute; reflexivity.
Qed.

(** At a tie the scaled height is decided by the rounding of the product.
    An image of 105840 x 188209 px is exactly 1920.5 px high once scaled;
    the double product is 1920.4999999999998, which [Math.round] takes down
    to 1920 (a still), while [scaledHeight] rounds the exact 1920.5 up to
    1921. *)
Lemma tie_is_decided_by_the_rounded_product :
  (2160 * 188209 = 3841 * 105840)%Z /\
  ltb (scaledProduct 105840 188209) 0x1.e02p+10%float = true /\
  valueOf 0x1.e02p+10%float = Some (8446448324575232 # 4398046511104) /\
  (8446448324575232 # 4398046511104) == 1920 + (1#2) /\
  Video.scaledHeight 105840 188209 = 1921%Z.
Proof.
  split; [reflexivity|]. split; [vm_compute; reflexivity|].
  split; [vm_compute; reflexivity|]. split; reflexivity.
Qed.

End Binary64Facts.
